(** * Container orchestration services: port allocator, container
    lifecycle and remote file bridge

    A shallow embedding of [backend/src/services/podman.ts] and
    [backend/src/services/file.ts].  The asynchronous TypeScript functions
    become computations in a state-and-exception monad: the state carries
    the module-level set [usedPorts] and a trace of everything the process
    does to its surroundings (external commands, console output, set
    updates); the surroundings answer through an oracle that sees the
    whole trace so far. *)

From Stdlib Require Import ZArith Ascii String List Lia.
From stdpp Require Import gmap strings list fin_maps pretty sorting.

Open Scope Z_scope.

(** ** JavaScript values used by the services *)

Module JS.

(** A JavaScript [number] restricted to what the services compute with:
    an integer or [NaN].  A [Set<number>] identifies [NaN] with itself,
    as equality on [option Z] does. *)
Definition number := option Z.
Definition NaN : number := None.
Definition Num : Z -> number := Some.

Definition isNaN (n : number) : bool :=
  match n with None => true | Some _ => false end.

(** [String(n)] *)
Definition String_of (n : number) : string :=
  match n with None => "NaN" | Some z => pretty z end.

(** Truthiness of a string: only the empty string is falsy. *)
Definition truthy (s : string) : bool :=
  match s with EmptyString => false | String _ _ => true end.

(** Truthiness of an optional string ([undefined] is falsy). *)
Definition truthy_opt (o : option string) : bool :=
  match o with None => false | Some s => truthy s end.

Fixpoint trimStart (s : string) : string :=
  match s with
  | String a s' => if Ascii.is_space a then trimStart s' else s
  | EmptyString => EmptyString
  end.

Definition trimEnd (s : string) : string :=
  String.rev (trimStart (String.rev s)).

(** [s.trim()], over the ASCII white space characters. *)
Definition trim (s : string) : string := trimEnd (trimStart s).

(** [s.startsWith(p)] *)
Fixpoint startsWith (p s : string) : bool :=
  match p, s with
  | EmptyString, _ => true
  | String a p', String b s' => if Ascii.eqb a b then startsWith p' s' else false
  | String _ _, EmptyString => false
  end.

(** [s.includes(p)] *)
Fixpoint includes (p s : string) : bool :=
  startsWith p s ||
  match s with
  | EmptyString => false
  | String _ s' => includes p s'
  end.

(** [s.split(sep)] for a one-character separator: the pieces between
    the separators, empty pieces included; never the empty list. *)
Fixpoint split_go (sep : ascii) (cur : string) (s : string) : list string :=
  match s with
  | EmptyString => [String.rev cur]
  | String a s' =>
      if Ascii.eqb a sep then String.rev cur :: split_go sep EmptyString s'
      else split_go sep (String a cur) s'
  end.
Definition split (sep : ascii) (s : string) : list string :=
  split_go sep EmptyString s.

Fixpoint drop_chars (n : nat) (s : string) : string :=
  match n, s with
  | O, _ => s
  | S n', String _ s' => drop_chars n' s'
  | S _, EmptyString => EmptyString
  end.

(** [s.replace(p, EmptyString)] with a string pattern: the first
    occurrence of [p] is removed. *)
Fixpoint remove_first (p s : string) : string :=
  if startsWith p s then drop_chars (String.length p) s
  else match s with
       | EmptyString => EmptyString
       | String a s' => String a (remove_first p s')
       end.

(** [s.lastIndexOf(c)] for a one-character [c]; [None] stands for -1. *)
Fixpoint lastIndexOf_go (c : ascii) (s : string) (i : nat) (found : option nat)
  : option nat :=
  match s with
  | EmptyString => found
  | String a s' =>
      lastIndexOf_go c s' (S i) (if Ascii.eqb a c then Some i else found)
  end.
Definition lastIndexOf (c : ascii) (s : string) : option nat :=
  lastIndexOf_go c s O None.

Fixpoint take_chars (n : nat) (s : string) : string :=
  match n, s with
  | O, _ => EmptyString
  | S n', String a s' => String a (take_chars n' s')
  | S _, EmptyString => EmptyString
  end.

(** [s.substring(0, s.lastIndexOf(c))]: a negative end index counts
    as 0. *)
Definition substring_to_last (c : ascii) (s : string) : string :=
  match lastIndexOf c s with
  | None => EmptyString
  | Some i => take_chars i s
  end.

(** *** [parseInt] with the radix left out *)

Definition digit_value (radix : Z) (c : ascii) : option Z :=
  let n := Z.of_nat (nat_of_ascii c) in
  let v :=
    if (48 <=? n) && (n <=? 57) then Some (n - 48)
    else if (97 <=? n) && (n <=? 122) then Some (n - 87)
    else if (65 <=? n) && (n <=? 90) then Some (n - 55)
    else None in
  match v with
  | Some d => if d <? radix then Some d else None
  | None => None
  end.

(** The longest prefix of digits, read in the radix; [acc] is [None]
    as long as no digit was read. *)
Fixpoint parse_digits (radix : Z) (acc : option Z) (s : string) : option Z :=
  match s with
  | EmptyString => acc
  | String a s' =>
      match digit_value radix a with
      | Some d => parse_digits radix (Some (radix * default 0 acc + d)) s'
      | None => acc
      end
  end.

Definition parseInt (s : string) : number :=
  let s1 := trimStart s in
  let '(sign, s2) :=
    match s1 with
    | String "-" r => (-1, r)
    | String "+" r => (1, r)
    | _ => (1, s1)
    end in
  let '(radix, s3) :=
    match s2 with
    | String "0" (String "x" r) => (16, r)
    | String "0" (String "X" r) => (16, r)
    | _ => (10, s2)
    end in
  match parse_digits radix None s3 with
  | None => NaN
  | Some n => Num (sign * n)
  end.

End JS.

Import JS.

(** ** The process and its surroundings *)

(** What [podman inspect] reports, as far as the services read it:
    [State.Running], [HostConfig?.PortBindings?.[3000/tcp]?.[0]?.HostPort],
    [Config.Labels?.assignedPort] and [Config.Image]. *)
Record ContainerInfo := {
  Running : bool;
  HostPort : option string;
  assignedPortLabel : option string;
  Image : option string;
}.

(** Commands run inside a container through [execInContainer]. *)
Inductive ShCmd :=
| sh_find_tree (containerPath : string)
    (* find P ( -name node_modules -o -name .next ) -prune -o -type f -o -type d | grep -v ... | sort *)
| sh_find_content_tree (containerPath : string)
    (* the same with components/ui pruned and the boilerplate files filtered out *)
| sh_stat (filePath : string)          (* stat -c %F filePath *)
| sh_cat (filePath : string).          (* cat filePath | head -c 10000000 *)

(** Everything the services ask of the operating system. *)
Inductive Cmd :=
| podman_ps_assignedPort
    (* podman ps -a --filter label=project=december --format {{.Labels.assignedPort}} *)
| lsof (port : number)                       (* lsof -i :port *)
| podman_inspect (containerId : string)
| podman_start (containerId : string)
| podman_stop (containerId : string)
| podman_rm (containerId : string)           (* podman rm -f *)
| podman_rmi (imageName : string)            (* podman rmi -f *)
| podman_exec_sh (containerId : string) (command : ShCmd)
| podman_cp (tempFile containerId absolutePath : string)
| podman_exec_mkdir (containerId dirPath : string)   (* podman exec id mkdir -p dir *)
| podman_exec_head (containerId absolutePath : string) (* podman exec id head -n 5 path *)
| fs_writeFile (file content : string)
| fs_unlink (file : string).

Inductive Event :=
| Exec (c : Cmd)
| console_log (args : list string)
| console_warn (args : list string)
| console_error (args : list string)
| usedPorts_add (port : number)
| usedPorts_delete (port : number).

Global Instance ShCmd_eq_dec : EqDecision ShCmd.
Proof. solve_decision. Defined.
Global Instance Cmd_eq_dec : EqDecision Cmd.
Proof. solve_decision. Defined.
Global Instance Event_eq_dec : EqDecision Event.
Proof. solve_decision. Defined.

(** The outcome of an awaited promise: a value, or a thrown [Error] with
    its message. *)
Inductive Result (A : Type) :=
| Ok (a : A)
| Throw (message : string).
Arguments Ok {A} a.
Arguments Throw {A} message.

(** The surroundings.  Each answer may depend on everything the process
    did before (the trace), so that any real run is the run against some
    oracle. *)
Record Env := {
  (** [execAsync(cmd)]: standard output on exit status 0, a rejection
      otherwise. *)
  exec_result : list Event -> Cmd -> Result string;
  (** [JSON.parse] of the output of [podman inspect], first element. *)
  inspect_result : list Event -> string -> Result ContainerInfo;
  (** The standard error output that comes with a successful
      [execAsync(cmd)]. *)
  exec_stderr : list Event -> Cmd -> string;
  (** [uuidv4()] *)
  uuidv4 : list Event -> string;
}.

(** The mutable state of the process: the module-level [usedPorts] and
    the trace. *)
Record State := {
  usedPorts : gset number;
  trace : list Event;
}.

Definition M (A : Type) : Type := State -> State * Result A.

Definition ret {A} (a : A) : M A := fun s => (s, Ok a).

Definition bind {A B} (m : M A) (k : A -> M B) : M B :=
  fun s =>
    match m s with
    | (s', Ok a) => k a s'
    | (s', Throw e) => (s', Throw e)
    end.

Definition throw {A} (message : string) : M A := fun s => (s, Throw message).

(** [try { m } catch (error) { h(error.message) }] *)
Definition try_catch {A} (m : M A) (h : string -> M A) : M A :=
  fun s =>
    match m s with
    | (s', Ok a) => (s', Ok a)
    | (s', Throw e) => h e s'
    end.

Declare Scope js_scope.
Delimit Scope js_scope with js.
Notation "x <- m ;; k" := (bind m (fun x => k))
  (at level 100, m at next level, right associativity) : js_scope.
Notation "m ;; k" := (bind m (fun _ => k))
  (at level 100, right associativity) : js_scope.
Notation "'try' m 'catch' h" := (try_catch m h)
  (at level 10, m at level 9, h at level 9) : js_scope.
Open Scope js_scope.

Definition emit (e : Event) : M unit :=
  fun s => ({| usedPorts := usedPorts s; trace := trace s ++ [e] |}, Ok tt).

(** The external commands of a trace, in the order they were issued. *)
Definition commands (tr : list Event) : list Cmd :=
  omap (fun e => match e with Exec c => Some c | _ => None end) tr.

(** ** The file tree as [file.ts] builds it

    The items of a tree are JavaScript objects that are shared between
    the map [fileTree] and the [children] arrays, and that are updated in
    place.  They live in a store, a list indexed by address; a map and a
    [children] array hold addresses. *)

Inductive ItemType := file | directory.

(** An address in the store. *)
Abbreviation addr := nat (only parsing).

Record FileItem := {
  name : string;
  path : string;
  type : ItemType;
  children : option (list addr);
  content : option string;
}.

Global Instance ItemType_eq_dec : EqDecision ItemType.
Proof. solve_decision. Defined.

Definition BASE_PATH : string := "/app/my-nextjs-app".

Definition getAbsolutePath (filePath : string) : string :=
  if startsWith "/" filePath then filePath else BASE_PATH +:+ "/" +:+ filePath.

(** The byte order mark, as the three bytes of its UTF-8 form. *)
Definition BOM : string := String "239" (String "187" (String "191" EmptyString)).

(** [output.replace(re, EmptyString)], where [re] matches a byte order
    mark at the start *)
Definition strip_BOM (output : string) : string :=
  if startsWith BOM output then drop_chars 3 output else output.

(** [output.trim().split(newline).filter(p => p && p !== containerPath)] *)
Definition listed_paths (containerPath output : string) : list string :=
  filter (fun p => truthy p = true /\ p <> containerPath)
    (split "010" (trim output)).

(** The item made for [filePath]: its name is the last piece of the path
    relative to [containerPath]; a directory starts with an empty
    [children] array and a file has none. *)
Definition new_item (containerPath filePath : string) (isDirectory : bool)
  : FileItem :=
  let relativePath := remove_first (containerPath +:+ "/") filePath in
  let parts := split "/" relativePath in
  let fileName := default EmptyString (last parts) in
  {| name := fileName;
     path := filePath;
     type := if isDirectory then directory else file;
     children := if isDirectory then Some [] else None;
     content := None |}.

Definition root_item (containerPath : string) : FileItem :=
  {| name := "root";
     path := containerPath;
     type := directory;
     children := Some [];
     content := None |}.

(** [parentPath || containerPath] where
    [parentPath = filePath.substring(0, filePath.lastIndexOf(/))] *)
Definition parent_key (containerPath filePath : string) : string :=
  let parentPath := substring_to_last "/" filePath in
  if truthy parentPath then parentPath else containerPath.

(** [parent.children.push(fileItem)] on the object at address [pa] *)
Definition push_child (pa a : addr) (heap : list FileItem) : list FileItem :=
  match heap !! pa with
  | Some parent =>
      match children parent with
      | Some cs =>
          <[pa := {| name := name parent; path := path parent;
                     type := type parent; children := Some (cs ++ [a]);
                     content := content parent |}]> heap
      | None => heap
      end
  | None => heap
  end.

(** [parent = fileTree.get(parentPath || containerPath)] and
    [if (parent && parent.children) parent.children.push(fileItem)] for
    the item at address [a] *)
Definition attach (containerPath : string) (fileTree : gmap string addr)
    (a : addr) (heap : list FileItem) : list FileItem :=
  match heap !! a with
  | Some fileItem =>
      match fileTree !! parent_key containerPath (path fileItem) with
      | Some pa => push_child pa a heap
      | None => heap
      end
  | None => heap
  end.

(** The local variables of [getFileTree]. *)
Record FileTreeState := {
  heap : list FileItem;
  fileTree : gmap string addr;
}.

Definition initial_tree (containerPath : string) : FileTreeState :=
  {| heap := [root_item containerPath];
     fileTree := {[containerPath := O]} |}.

(** The body of the loop of [getFileTree] after the [stat]: a new object,
    [fileTree.set], then the attachment to the parent. *)
Definition add_to_tree (containerPath : string) (st : FileTreeState)
    (filePath : string) (isDirectory : bool) : FileTreeState :=
  let a := length (heap st) in
  let heap1 := heap st ++ [new_item containerPath filePath isDirectory] in
  let fileTree1 := <[filePath := a]> (fileTree st) in
  {| heap := attach containerPath fileTree1 a heap1;
     fileTree := fileTree1 |}.

(** [root?.children || []] *)
Definition children_at (heap : list FileItem) (root : option addr) : list addr :=
  match root with
  | Some a =>
      match heap !! a with
      | Some item => default [] (children item)
      | None => []
      end
  | None => []
  end.

Definition root_children (containerPath : string) (st : FileTreeState)
  : list addr :=
  children_at (heap st) (fileTree st !! containerPath).

(** A [Map] that is iterated: the entries in the order in which their
    keys were first set. *)
Definition JSMap (V : Type) := list (string * V).

Fixpoint map_set {V} (k : string) (v : V) (m : JSMap V) : JSMap V :=
  match m with
  | [] => [(k, v)]
  | (k', v') :: m' =>
      if decide (k' = k) then (k, v) :: m' else (k', v') :: map_set k v m'
  end.

Fixpoint map_get {V} (k : string) (m : JSMap V) : option V :=
  match m with
  | [] => None
  | (k', v') :: m' => if decide (k' = k) then Some v' else map_get k m'
  end.

Definition batchSize : nat := 50.

(** The local variables of [getFileContentTree]. *)
Record ContentTreeState := {
  cheap : list FileItem;
  cfileTree : gmap string addr;
  pathToItemMap : JSMap addr;
  filesToRead : list string;
}.

Definition initial_content_tree (containerPath : string) : ContentTreeState :=
  {| cheap := [root_item containerPath];
     cfileTree := {[containerPath := O]};
     pathToItemMap := [];
     filesToRead := [] |}.

(** The body of the first loop of [getFileContentTree] after the
    [stat]. *)
Definition add_to_content_tree (containerPath : string) (st : ContentTreeState)
    (filePath : string) (isDirectory : bool) : ContentTreeState :=
  let a := length (cheap st) in
  {| cheap := cheap st ++ [new_item containerPath filePath isDirectory];
     cfileTree := <[filePath := a]> (cfileTree st);
     pathToItemMap := map_set filePath a (pathToItemMap st);
     filesToRead :=
       if isDirectory then filesToRead st else filesToRead st ++ [filePath] |}.

(** [fileItem.content = content] on the object at address [a] *)
Definition set_content (a : addr) (c : string) (heap : list FileItem)
  : list FileItem :=
  match heap !! a with
  | Some item =>
      <[a := {| name := name item; path := path item; type := type item;
                children := children item; content := Some c |}]> heap
  | None => heap
  end.

(** The second loop of [getFileContentTree], over the entries of
    [fileContents]. *)
Definition set_contents (pathToItemMap : JSMap addr) (fileContents : JSMap string)
    (heap : list FileItem) : list FileItem :=
  fold_left
    (fun h '(filePath, c) =>
       match map_get filePath pathToItemMap with
       | Some a => set_content a c h
       | None => h
       end)
    fileContents heap.

(** The third loop of [getFileContentTree], over
    [pathToItemMap.values()]. *)
Definition attach_all (containerPath : string) (fileTree : gmap string addr)
    (items : list addr) (heap : list FileItem) : list FileItem :=
  fold_left (fun h a => attach containerPath fileTree a h) items heap.

(** The tree below an address, read off the store, for showing results;
    [fuel] bounds the depth. *)
#[local] Set Warnings "-register-all".
Inductive Tree :=
| Node (name path : string) (type : ItemType)
    (children : option (list Tree)) (content : option string).

Fixpoint tree_at (fuel : nat) (heap : list FileItem) (a : addr) : option Tree :=
  match fuel with
  | O => None
  | S fuel' =>
      match heap !! a with
      | Some item =>
          Some (Node (name item) (path item) (type item)
                  (option_map (omap (tree_at fuel' heap)) (children item))
                  (content item))
      | None => None
      end
  end.

Definition forest (result : list FileItem * list addr) : list Tree :=
  omap (tree_at (length (fst result)) (fst result)) (snd result).

Definition forest_of (r : Result (list FileItem * list addr)) : list Tree :=
  match r with
  | Ok result => forest result
  | Throw _ => []
  end.

Section Services.

Variable E : Env.

Definition execAsync (c : Cmd) : M string :=
  fun s =>
    ({| usedPorts := usedPorts s; trace := trace s ++ [Exec c] |},
     exec_result E (trace s) c).

(** [usedPorts.add(port)] *)
Definition add (port : number) : M unit :=
  fun s =>
    ({| usedPorts := {[port]} ∪ usedPorts s;
        trace := trace s ++ [usedPorts_add port] |}, Ok tt).

(** [usedPorts.delete(port)] *)
Definition delete_port (port : number) : M unit :=
  fun s =>
    ({| usedPorts := usedPorts s ∖ {[port]};
        trace := trace s ++ [usedPorts_delete port] |}, Ok tt).

Definition get_usedPorts : M (gset number) :=
  fun s => (s, Ok (usedPorts s)).

(** *** podman.ts *)

Definition BASE_PORT : Z := 8000.

(** The ports read off the output of the listing: one label per line,
    the lines that are no number dropped. *)
Definition assignedPorts_of_stdout (stdout : string) : list Z :=
  omap parseInt
    (filter (fun p => truthy p = true /\ p <> "<no value>" /\ p <> EmptyString)
       (split "010" (trim stdout))).

Definition getAllAssignedPorts : M (list Z) :=
  try
    (stdout <- execAsync podman_ps_assignedPort ;;
     ret (assignedPorts_of_stdout stdout))
  catch (fun _ => ret []).

Definition isPortAvailable (port : number) : M bool :=
  try
    (stdout <- execAsync (lsof port) ;;
     ret (bool_decide (trim stdout = EmptyString)))
  catch (fun _ => ret true).

(** The loop of [findAvailablePort]; [n] counts the candidates that
    remain below [startPort + 1000]. *)
Fixpoint findAvailablePort_loop (allUsedPorts : gset number) (n : nat) (port : Z)
  : M Z :=
  match n with
  | O => throw "No available ports found"
  | S n' =>
      if bool_decide (Num port ∈ allUsedPorts)
      then findAvailablePort_loop allUsedPorts n' (port + 1)
      else
        available <- isPortAvailable (Num port) ;;
        if available : bool
        then add (Num port) ;; ret port
        else findAvailablePort_loop allUsedPorts n' (port + 1)
  end.

Definition findAvailablePort (startPort : Z) : M Z :=
  assignedPorts <- getAllAssignedPorts ;;
  used <- get_usedPorts ;;
  findAvailablePort_loop (used ∪ list_to_set (Num <$> assignedPorts))
    1000 startPort.

Definition releasePort (port : number) : M unit := delete_port port.

Definition inspectContainer (containerId : string) : M ContainerInfo :=
  fun s =>
    ({| usedPorts := usedPorts s;
        trace := trace s ++ [Exec (podman_inspect containerId)] |},
     inspect_result E (trace s) containerId).

Definition getPortFromContainer (containerInfo : ContainerInfo) : M number :=
  if truthy_opt (HostPort containerInfo)
  then
    let port := parseInt (default EmptyString (HostPort containerInfo)) in
    add port ;; ret port
  else if truthy_opt (assignedPortLabel containerInfo)
  then
    let port := parseInt (default EmptyString (assignedPortLabel containerInfo)) in
    add port ;; ret port
  else throw "Could not determine container port".

Definition startContainer (containerId : string) : M number :=
  try
    (info <- inspectContainer containerId ;;
     if Running info
     then getPortFromContainer info
     else
       let portLabel := assignedPortLabel info in
       let label := default EmptyString portLabel in
       assignedPort <-
         (reclaim <-
            (if truthy_opt portLabel
             then isPortAvailable (parseInt label)
             else ret false) ;;
          if reclaim : bool
          then
            let assignedPort := parseInt label in
            add assignedPort ;; ret assignedPort
          else
            assignedPort <- findAvailablePort BASE_PORT ;;
            if truthy_opt portLabel
               && negb (bool_decide (parseInt label = Num assignedPort))
            then throw ("Container port " +:+ label +:+
                        " is no longer available. Please recreate the container.")
            else ret (Num assignedPort)) ;;
       execAsync (podman_start containerId) ;;
       emit (console_log ["Started container: " +:+ containerId +:+
                          " on port " +:+ String_of assignedPort]) ;;
       ret assignedPort)
  catch (fun message => throw ("Failed to start container: " +:+ message)).

Definition stopContainer (containerId : string) : M unit :=
  try
    (containerInfo <- inspectContainer containerId ;;
     port <- getPortFromContainer containerInfo ;;
     releasePort port ;;
     execAsync (podman_stop containerId) ;;
     emit (console_log ["Stopped container: " +:+ containerId +:+
                        ", released port: " +:+ String_of port]))
  catch (fun message => throw ("Failed to stop container: " +:+ message)).

Definition deleteContainer (containerId : string) : M unit :=
  try
    (containerInfo <- inspectContainer containerId ;;
     port <- getPortFromContainer containerInfo ;;
     releasePort port ;;
     (if Running containerInfo
      then
        emit (console_log ["Stopping container before deletion: " +:+ containerId]) ;;
        execAsync (podman_stop containerId) ;; ret tt
      else ret tt) ;;
     execAsync (podman_rm containerId) ;;
     emit (console_log ["Deleted container: " +:+ containerId +:+
                        ", freed port: " +:+ String_of port]) ;;
     let imageName := default EmptyString (Image containerInfo) in
     if truthy_opt (Image containerInfo) && includes "dec-nextjs-" imageName
     then
       try
         (execAsync (podman_rmi imageName) ;;
          emit (console_log ["Deleted associated image: " +:+ imageName]))
       catch (fun imageError =>
                emit (console_warn ["Could not delete image " +:+ imageName +:+ ":";
                                    imageError]))
     else ret tt)
  catch (fun message => throw ("Failed to delete container: " +:+ message)).


(** *** file.ts *)

Definition execInContainer (containerId : string) (command : ShCmd) : M string :=
  execAsync (podman_exec_sh containerId command).

Definition getFileStat (containerId filePath : string) : M bool :=
  try
    (output <- execInContainer containerId (sh_stat filePath) ;;
     ret (includes "directory" (trim output)))
  catch (fun _ => ret false).

Definition readFile (containerId filePath : string) : M string :=
  output <- execInContainer containerId (sh_cat filePath) ;;
  ret (strip_BOM output).

(** The body of the loop of [getFileTree]. *)
Definition getFileTree_step (containerId containerPath : string)
    (st : FileTreeState) (filePath : string) : M FileTreeState :=
  stat <- getFileStat containerId filePath ;;
  ret (add_to_tree containerPath st filePath stat).

Fixpoint getFileTree_loop (containerId containerPath : string)
    (paths : list string) (st : FileTreeState) : M FileTreeState :=
  match paths with
  | [] => ret st
  | filePath :: rest =>
      st' <- getFileTree_step containerId containerPath st filePath ;;
      getFileTree_loop containerId containerPath rest st'
  end.

(** The result is the array [root.children]: the store of the objects
    built and the addresses of the top-level nodes. *)
Definition getFileTree (containerId containerPath : string)
  : M (list FileItem * list addr) :=
  output <- execInContainer containerId (sh_find_tree containerPath) ;;
  let paths := listed_paths containerPath output in
  st <- getFileTree_loop containerId containerPath paths
          (initial_tree containerPath) ;;
  ret (heap st, root_children containerPath st).

(** One element of a batch of [readFilesBatch]: a failed read becomes
    the content. *)
Definition read_or_placeholder (containerId filePath : string)
  : M (string * string) :=
  try
    (content <- readFile containerId filePath ;;
     ret (filePath, content))
  catch (fun message => ret (filePath, "Error reading file: " +:+ message)).

(** [Promise.all(batch.map(...))]: the commands of a batch are issued in
    the order of the batch, and the results come back in that order. *)
Fixpoint read_batch (containerId : string) (batch : list string)
  : M (list (string * string)) :=
  match batch with
  | [] => ret []
  | filePath :: rest =>
      r <- read_or_placeholder containerId filePath ;;
      rs <- read_batch containerId rest ;;
      ret (r :: rs)
  end.

(** The loop [for (i = 0; i < filePaths.length; i += batchSize)]; [fuel]
    bounds the number of batches. *)
Fixpoint readFilesBatch_loop (containerId : string) (filePaths : list string)
    (fuel : nat) (i : nat) (results : JSMap string) : M (JSMap string) :=
  match fuel with
  | O => ret results
  | S fuel' =>
      if (i <? length filePaths)%nat
      then
        let batch := list.take batchSize (list.drop i filePaths) in
        batchResults <- read_batch containerId batch ;;
        readFilesBatch_loop containerId filePaths fuel' (i + batchSize)
          (fold_left (fun m '(filePath, content) => map_set filePath content m)
             batchResults results)
      else ret results
  end.

Definition readFilesBatch (containerId : string) (filePaths : list string)
  : M (JSMap string) :=
  readFilesBatch_loop containerId filePaths (length filePaths) 0 [].

(** The first loop of [getFileContentTree]. *)
Definition getFileContentTree_step (containerId containerPath : string)
    (st : ContentTreeState) (filePath : string) : M ContentTreeState :=
  stat <- getFileStat containerId filePath ;;
  ret (add_to_content_tree containerPath st filePath stat).

Fixpoint getFileContentTree_loop (containerId containerPath : string)
    (paths : list string) (st : ContentTreeState) : M ContentTreeState :=
  match paths with
  | [] => ret st
  | filePath :: rest =>
      st' <- getFileContentTree_step containerId containerPath st filePath ;;
      getFileContentTree_loop containerId containerPath rest st'
  end.

Definition getFileContentTree (containerId containerPath : string)
  : M (list FileItem * list addr) :=
  output <- execInContainer containerId (sh_find_content_tree containerPath) ;;
  let paths := listed_paths containerPath output in
  st <- getFileContentTree_loop containerId containerPath paths
          (initial_content_tree containerPath) ;;
  fileContents <- readFilesBatch containerId (filesToRead st) ;;
  let heap1 := set_contents (pathToItemMap st) fileContents (cheap st) in
  let heap2 := attach_all containerPath (cfileTree st)
                 (map snd (pathToItemMap st)) heap1 in
  ret (heap2, children_at heap2 (cfileTree st !! containerPath)).

End Services.

(** ** Reading the answers of the surroundings *)

Definition with_event (s : State) (e : Event) : State :=
  {| usedPorts := usedPorts s; trace := trace s ++ [e] |}.

(** What a probe answer means to [isPortAvailable]: a rejected [lsof]
    and an empty output both count as no listener. *)
Definition no_listener (r : Result string) : bool :=
  match r with
  | Ok stdout => bool_decide (trim stdout = EmptyString)
  | Throw _ => true
  end.

(** What the answer to the listing means to [getAllAssignedPorts]. *)
Definition labeled_ports (r : Result string) : list Z :=
  match r with
  | Ok stdout => assignedPorts_of_stdout stdout
  | Throw _ => []
  end.

(** The ports released in a trace, in order. *)
Definition released (tr : list Event) : list number :=
  omap (fun e => match e with usedPorts_delete p => Some p | _ => None end) tr.

(** The set a call of [findAvailablePort] that starts in state [s]
    compares its candidates against: the reservations of [s] and the
    ports the listing reports when asked in [s]. *)
Definition allUsedPorts_at (E : Env) (s : State) : gset number :=
  usedPorts s ∪
  list_to_set (Num <$> labeled_ports (exec_result E (trace s) podman_ps_assignedPort)).

(** Candidate [z] was turned down by a scan that started at trace [tr0]
    and went on to add the events [new]: it was in the set the scan
    compared against, or its probe found a listener. *)
Definition rejected (E : Env) (allUsedPorts : gset number)
    (tr0 new : list Event) (z : Z) : Prop :=
  Num z ∈ allUsedPorts \/
  exists tr, tr `prefix_of` new /\
    no_listener (exec_result E (tr0 ++ tr) (lsof (Num z))) = false.

(** Where [getPortFromContainer] reads the bound port from: the host
    port of the 3000/tcp binding when there is one, the [assignedPort]
    label otherwise. *)
Definition port_source (info : ContainerInfo) (src : string) : Prop :=
  (HostPort info = Some src /\ truthy src = true) \/
  (truthy_opt (HostPort info) = false /\
   assignedPortLabel info = Some src /\ truthy src = true).

(** The message of the port conflict error of [startContainer]. *)
Definition port_conflict_message (portLabel : string) : string :=
  "Failed to start container: " +:+
  ("Container port " +:+ portLabel +:+
   " is no longer available. Please recreate the container.").

(** The end of [startContainer] once the port is settled: the runtime
    start, then the log line and the result. *)
Definition start_settled (E : Env) (containerId : string) (assignedPort : number)
    (s : State) : State * Result number :=
  match exec_result E (trace s) (podman_start containerId) with
  | Ok _ =>
      (with_event (with_event s (Exec (podman_start containerId)))
         (console_log ["Started container: " +:+ containerId +:+
                       " on port " +:+ String_of assignedPort]),
       Ok assignedPort)
  | Throw message =>
      (with_event s (Exec (podman_start containerId)),
       Throw ("Failed to start container: " +:+ message))
  end.

(** What the answer to a [stat] means to [getFileStat]: only an output
    that mentions [directory] makes a directory. *)
Definition is_directory (r : Result string) : bool :=
  match r with
  | Ok output => includes "directory" (trim output)
  | Throw _ => false
  end.

Definition stat_command (containerId filePath : string) : Cmd :=
  podman_exec_sh containerId (sh_stat filePath).

Definition cat_command (containerId filePath : string) : Cmd :=
  podman_exec_sh containerId (sh_cat filePath).

(** The classifications that the [stat]s of [paths], issued one after
    the other from trace [tr] on, come back with. *)
Fixpoint stat_answers (E : Env) (containerId : string) (tr : list Event)
    (paths : list string) : list bool :=
  match paths with
  | [] => []
  | filePath :: rest =>
      is_directory (exec_result E tr (stat_command containerId filePath))
      :: stat_answers E containerId
           (tr ++ [Exec (stat_command containerId filePath)]) rest
  end.

(** The tree after the paths of [classified] have gone through the loop
    of [getFileTree], each with its classification. *)
Definition tree_after (containerPath : string) (classified : list (string * bool))
  : FileTreeState :=
  fold_left (fun st '(filePath, isDirectory) =>
               add_to_tree containerPath st filePath isDirectory)
    classified (initial_tree containerPath).

(** Every entry of [fileTree] points to an object of the store that
    carries the path of the entry. *)
Definition tree_entries_ok (st : FileTreeState) : Prop :=
  forall q a, fileTree st !! q = Some a ->
    exists item, heap st !! a = Some item /\ path item = q.

(** What the answer to a read becomes in [readFilesBatch]. *)
Definition content_of (r : Result string) : string :=
  match r with
  | Ok output => strip_BOM output
  | Throw message => "Error reading file: " +:+ message
  end.

(** ** Concrete surroundings, for running the services on examples *)

(** Surroundings whose answers do not depend on the past. *)
Definition static_env (exec : Cmd -> Result string)
    (inspect : string -> Result ContainerInfo) : Env :=
  {| exec_result := fun _ c => exec c;
     inspect_result := fun _ containerId => inspect containerId;
     exec_stderr := fun _ _ => EmptyString;
     uuidv4 := fun _ => "6fa459ea" |}.

(** A fresh process: nothing reserved, nothing done yet. *)
Definition fresh : State := {| usedPorts := ∅; trace := [] |}.

(** [lsof] exits with status 1 when nothing listens on the port. *)
Definition exit1 {A} : Result A := Throw "Command failed: exit code 1".

(** A container created by [createContainer] on port 8000. *)
Definition info_on_8000 (running : bool) : ContainerInfo :=
  {| Running := running;
     HostPort := Some "8000";
     assignedPortLabel := Some "8000";
     Image := Some "dec-nextjs-abc" |}.

(** One running container on port 8000, which it listens on; every other
    port is free. *)
Definition env_running : Env :=
  static_env
    (fun c =>
       match c with
       | podman_ps_assignedPort => Ok "8000
"
       | lsof (Some 8000) => Ok "node 4242 user 21u IPv4 TCP *:8000 (LISTEN)
"
       | lsof _ => exit1
       | _ => Ok EmptyString
       end)
    (fun _ => Ok (info_on_8000 true)).

(** A stopped container labeled with port 8000 while something else
    listens on 8000; port 8001 is free. *)
Definition env_stopped_occupied : Env :=
  static_env
    (fun c =>
       match c with
       | podman_ps_assignedPort => Ok "8000
"
       | lsof (Some 8000) => Ok "node 4242 user 21u IPv4 TCP *:8000 (LISTEN)
"
       | lsof _ => exit1
       | _ => Ok EmptyString
       end)
    (fun _ => Ok (info_on_8000 false)).

(** A stopped container labeled with port 8000, and no listener
    anywhere. *)
Definition env_stopped_free : Env :=
  static_env
    (fun c =>
       match c with
       | podman_ps_assignedPort => Ok "8000
"
       | lsof _ => exit1
       | _ => Ok EmptyString
       end)
    (fun _ => Ok (info_on_8000 false)).

(** Nothing is labeled and nothing listens: the listing prints nothing
    and every probe exits with status 1. *)
Definition env_quiet : Env :=
  static_env
    (fun c =>
       match c with
       | podman_ps_assignedPort => Ok EmptyString
       | lsof _ => exit1
       | _ => Ok EmptyString
       end)
    (fun _ => Throw "no such container").

(** ** Interleaved calls of the allocator

    [findAvailablePort] suspends at each [await]: once on the listing of
    [getAllAssignedPorts] and once per probe of [isPortAvailable].
    Between two suspensions a call runs without interruption, and while
    it is suspended other calls may run.  A suspended call is kept as the
    point it waits at, with the values of its local variables. *)

Module Async.

Inductive Task :=
| AwaitListing (startPort : Z) (answer : Result string)
    (* waits for the listing of getAllAssignedPorts *)
| AwaitProbe (allUsedPorts : gset number) (remaining : nat) (port : Z)
    (answer : Result string)
    (* waits for the probe of [port]; [remaining] candidates follow it *)
| Settled (r : Result Z).

(** The loop from candidate [port] up to its next suspension. *)
Fixpoint scan (E : Env) (allUsedPorts : gset number) (n : nat) (port : Z)
    (s : State) : State * Task :=
  match n with
  | O => (s, Settled (Throw "No available ports found"))
  | S n' =>
      if bool_decide (Num port ∈ allUsedPorts)
      then scan E allUsedPorts n' (port + 1) s
      else (with_event s (Exec (lsof (Num port))),
            AwaitProbe allUsedPorts n' port
              (exec_result E (trace s) (lsof (Num port))))
  end.

(** The call itself: it runs up to the listing. *)
Definition call (E : Env) (startPort : Z) (s : State) : State * Task :=
  (with_event s (Exec podman_ps_assignedPort),
   AwaitListing startPort (exec_result E (trace s) podman_ps_assignedPort)).

(** A suspended call goes on when its command has completed. *)
Definition resume (E : Env) (t : Task) (s : State) : State * Task :=
  match t with
  | AwaitListing startPort answer =>
      scan E (usedPorts s ∪ list_to_set (Num <$> labeled_ports answer))
        1000 startPort s
  | AwaitProbe allUsedPorts n port answer =>
      if no_listener answer
      then ({| usedPorts := {[Num port]} ∪ usedPorts s;
               trace := trace s ++ [usedPorts_add (Num port)] |},
            Settled (Ok port))
      else scan E allUsedPorts n (port + 1) s
  | Settled r => (s, Settled r)
  end.

(** One call running with no other call in between. *)
Fixpoint complete (E : Env) (fuel : nat) (t : Task) (s : State) : State * Task :=
  match fuel with
  | O => (s, t)
  | S fuel' =>
      match t with
      | Settled _ => (s, t)
      | _ => let '(s', t') := resume E t s in complete E fuel' t' s'
      end
  end.

(** Several calls made one after the other, none of them resumed yet. *)
Fixpoint spawn (E : Env) (startPorts : list Z) (s : State) : State * list Task :=
  match startPorts with
  | [] => (s, [])
  | startPort :: rest =>
      let '(s1, t) := call E startPort s in
      let '(s2, ts) := spawn E rest s1 in
      (s2, t :: ts)
  end.

(** The event loop resumes the calls in the order of a schedule: the
    list of the indices of the calls whose command completes next. *)
Fixpoint run (E : Env) (schedule : list nat) (ts : list Task) (s : State)
  : State * list Task :=
  match schedule with
  | [] => (s, ts)
  | i :: schedule' =>
      match ts !! i with
      | Some t =>
          let '(s', t') := resume E t s in
          run E schedule' (<[i := t']> ts) s'
      | None => run E schedule' ts s
      end
  end.

(** The ports the calls of a pool have returned. *)
Definition returned (ts : list Task) : list Z :=
  omap (fun t => match t with Settled (Ok port) => Some port | _ => None end) ts.

End Async.

(** The listing of a container with the directories [/root/a] and
    [/root/c] and the file [/root/a/b.txt]; it starts with [/root]
    itself. *)
Definition small_listing : string := "/root
/root/a
/root/a/b.txt
/root/c
".

Definition env_small_tree : Env :=
  static_env
    (fun c =>
       match c with
       | podman_exec_sh _ (sh_find_tree _) => Ok small_listing
       | podman_exec_sh _ (sh_stat p) =>
           if decide (p = "/root/a/b.txt") then Ok "regular file
" else Ok "directory
"
       | _ => Ok EmptyString
       end)
    (fun _ => Throw "no such container").

(** ** More states and surroundings for examples *)

(** A process that holds a reservation for every port from 8000 to
    8999. *)
Definition window_reserved : State :=
  {| usedPorts := list_to_set (Num <$> seqZ 8000 1000); trace := [] |}.

(** A container that is reported without a host port binding and
    without the [assignedPort] label. *)
Definition info_without_port (running : bool) : ContainerInfo :=
  {| Running := running;
     HostPort := None;
     assignedPortLabel := None;
     Image := Some "dec-nextjs-abc" |}.

(** The runtime knows one container, which has neither binding nor
    label; nothing listens anywhere. *)
Definition env_without_port (running : bool) : Env :=
  static_env
    (fun c =>
       match c with
       | podman_ps_assignedPort => Ok "<no value>
"
       | lsof _ => exit1
       | _ => Ok EmptyString
       end)
    (fun _ => Ok (info_without_port running)).

(** The runtime is down: every command fails. *)
Definition env_down : Env :=
  static_env (fun _ => Throw "Command failed: podman")
    (fun _ => Throw "Command failed: podman inspect").

(** One running container on port 8000 that refuses to stop. *)
Definition env_stop_fails : Env :=
  static_env
    (fun c =>
       match c with
       | podman_stop _ => Throw "Command failed: podman stop"
       | _ => Ok EmptyString
       end)
    (fun _ => Ok (info_on_8000 true)).

(** ** More of the services *)

(** The double quote character. *)
Definition dquote : string := String "034" EmptyString.

(** The text of the copy command, as [writeFile] logs it. *)
Definition copy_command_text (tempFile containerId absolutePath : string)
  : string :=
  "podman cp " +:+ dquote +:+ tempFile +:+ dquote +:+ " " +:+
  dquote +:+ containerId +:+ ":" +:+ absolutePath +:+ dquote.

Section MoreServices.

Variable E : Env.

(** *** podman.ts, continued *)

Definition cleanupImage (containerId : string) : M unit :=
  try
    (let imageName := "dec-nextjs-" +:+ containerId in
     execAsync E (podman_rmi imageName) ;;
     emit (console_log ["Cleaned up failed image: " +:+ imageName]))
  catch (fun _ => ret tt).

(** *** file.ts, continued *)

(** [execAsync(cmd)] where both outputs are read. *)
Definition execAsync_both (c : Cmd) : M (string * string) :=
  fun s =>
    ({| usedPorts := usedPorts s; trace := trace s ++ [Exec c] |},
     match exec_result E (trace s) c with
     | Ok stdout => Ok (stdout, exec_stderr E (trace s) c)
     | Throw message => Throw message
     end).

(** A call into [fs/promises]. *)
Definition fsPromises (c : Cmd) : M unit :=
  execAsync E c ;; ret tt.

Definition get_uuidv4 : M string :=
  fun s => (s, Ok (uuidv4 E (trace s))).

(** [if (text) console.log(label + text)] *)
Definition log_if_truthy (label text : string) : M unit :=
  if truthy text then emit (console_log [label +:+ text]) else ret tt.

Definition writeFile (containerId filePath content : string) : M unit :=
  emit (console_log ["Writing file: " +:+ filePath +:+ " (" +:+
                     String_of (Num (Z.of_nat (String.length content))) +:+
                     " characters)"]) ;;
  uuid <- get_uuidv4 ;;
  let tempFile := "/tmp/file-" +:+ uuid in
  try
    (fsPromises (fs_writeFile tempFile content) ;;
     emit (console_log ["Temporary file created: " +:+ tempFile]) ;;
     let absolutePath := getAbsolutePath filePath in
     emit (console_log ["Target path: " +:+ absolutePath]) ;;
     (try
        (emit (console_log ["Executing: " +:+
                            copy_command_text tempFile containerId absolutePath]) ;;
         out <- execAsync_both (podman_cp tempFile containerId absolutePath) ;;
         log_if_truthy "Copy stderr: " (snd out) ;;
         log_if_truthy "Copy stdout: " (fst out) ;;
         emit (console_log ["File copied successfully"]))
      catch (fun copyError =>
        emit (console_log ["Copy failed, trying to create directory first:";
                           copyError]) ;;
        let dirPath := substring_to_last "/" absolutePath in
        emit (console_log ["Executing: podman exec " +:+ dquote +:+ containerId +:+
                           dquote +:+ " mkdir -p " +:+ dquote +:+ dirPath +:+
                           dquote]) ;;
        execAsync E (podman_exec_mkdir containerId dirPath) ;;
        emit (console_log ["Directory created"]) ;;
        emit (console_log ["Retrying: " +:+
                           copy_command_text tempFile containerId absolutePath]) ;;
        out <- execAsync_both (podman_cp tempFile containerId absolutePath) ;;
        log_if_truthy "Retry stderr: " (snd out) ;;
        log_if_truthy "Retry stdout: " (fst out) ;;
        emit (console_log ["File copied successfully on retry"]))) ;;
     (try
        (verifyOutput <- execAsync E (podman_exec_head containerId absolutePath) ;;
         emit (console_log ["File verification (first 5 lines):
" +:+ verifyOutput]))
      catch (fun verifyError =>
        emit (console_log ["Could not verify file content:"; verifyError]))) ;;
     fsPromises (fs_unlink tempFile) ;;
     emit (console_log ["Temporary file cleaned up"]))
  catch (fun error =>
    emit (console_error ["Write file error:"; error]) ;;
    (try (fsPromises (fs_unlink tempFile))
     catch (fun unlinkError =>
       emit (console_error ["Failed to clean up temp file:"; unlinkError]))) ;;
    throw error).

End MoreServices.

(** The temporary file of a call of [writeFile] that starts in state
    [s]: the identifier is drawn after the first log line. *)
Definition tempFile_of (E : Env) (filePath content : string) (s : State) : string :=
  "/tmp/file-" +:+
  uuidv4 E (trace s ++
            [console_log ["Writing file: " +:+ filePath +:+ " (" +:+
                          String_of (Num (Z.of_nat (String.length content))) +:+
                          " characters)"]]).

(** The copy fails until the directory exists: the first copy is
    rejected, the one after [mkdir] goes through.  The verification
    fails. *)
Definition env_copy_needs_mkdir : Env :=
  {| exec_result := fun tr c =>
       match c with
       | podman_cp _ _ _ =>
           if existsb (fun e => match e with
                                | Exec (podman_exec_mkdir _ _) => true
                                | _ => false
                                end) tr
           then Ok EmptyString
           else Throw "Command failed: podman cp"
       | podman_exec_head _ _ => Throw "Command failed: head"
       | _ => Ok EmptyString
       end;
     inspect_result := fun _ _ => Throw "no such container";
     exec_stderr := fun _ _ => EmptyString;
     uuidv4 := fun _ => "6fa459ea" |}.

(** The commands of the events [new], issued from trace [tr] on, each
    with the answer it got. *)
Fixpoint answered (E : Env) (tr : list Event) (new : list Event)
  : list (Cmd * Result string) :=
  match new with
  | [] => []
  | Exec c :: rest =>
      (c, exec_result E tr c) :: answered E (tr ++ [Exec c]) rest
  | e :: rest => answered E (tr ++ [e]) rest
  end.

(** An item with the content of its [children] array left out: a
    directory keeps an empty array, a file keeps none. *)
Definition without_children (item : FileItem) : FileItem :=
  {| name := name item;
     path := path item;
     type := type item;
     children := option_map (fun _ => []) (children item);
     content := content item |}.

(** The [children] arrays of a store are sound for a tree that starts
    at [containerPath]: a child is an object of the store that was made
    after its parent, it lies directly under the path of its parent, and
    no array holds a child twice. *)
Definition children_ok (containerPath : string) (objects : list FileItem) : Prop :=
  forall pa item cs,
    objects !! pa = Some item -> children item = Some cs ->
    NoDup cs /\
    forall c, c ∈ cs ->
      (pa < c)%nat /\
      exists child, objects !! c = Some child /\
        parent_key containerPath (path child) = path item.

(** The listing of a container in which the [stat] of [/root/a]
    fails. *)
Definition env_stat_fails : Env :=
  static_env
    (fun c =>
       match c with
       | podman_exec_sh _ (sh_find_tree _) => Ok small_listing
       | podman_exec_sh _ (sh_stat p) =>
           if decide (p = "/root/a") then Throw "Command failed: stat"
           else if decide (p = "/root/a/b.txt") then Ok "regular file
" else Ok "directory
"
       | _ => Ok EmptyString
       end)
    (fun _ => Throw "no such container").

(** A string without the character [c]. *)
Fixpoint lacks (c : ascii) (s : string) : bool :=
  match s with
  | EmptyString => true
  | String a s' => negb (Ascii.eqb a c) && lacks c s'
  end.

(** The entries that reading [paths] one after the other, from trace
    [tr] on, comes back with: each path with its content, or with the
    placeholder of its failure. *)
Fixpoint reads (E : Env) (containerId : string) (tr : list Event)
    (paths : list string) : list (string * string) :=
  match paths with
  | [] => []
  | filePath :: rest =>
      (filePath, content_of (exec_result E tr (cat_command containerId filePath)))
      :: reads E containerId (tr ++ [Exec (cat_command containerId filePath)]) rest
  end.

(** Sixty files [f0] ... [f59], of which [f7] cannot be read. *)
Definition sixty_files : list string :=
  (fun i : nat => "f" +:+ pretty i) <$> seq 0 60.

Definition env_one_unreadable : Env :=
  static_env
    (fun c =>
       match c with
       | podman_exec_sh _ (sh_cat p) =>
           if decide (p = "f7") then Throw "Command failed: cat"
           else Ok ("content of " +:+ p)
       | _ => Ok EmptyString
       end)
    (fun _ => Throw "no such container").

(** The local variables of [getFileContentTree] after the paths of
    [classified] have gone through its first loop. *)
Definition content_tree_after (containerPath : string)
    (classified : list (string * bool)) : ContentTreeState :=
  fold_left (fun st '(filePath, isDirectory) =>
               add_to_content_tree containerPath st filePath isDirectory)
    classified (initial_content_tree containerPath).

(** The paths that were not classified as directories, in their order:
    what [filesToRead] collects. *)
Definition files_of (classified : list (string * bool)) : list string :=
  omap (fun '(filePath, isDirectory) =>
          if isDirectory : bool then None else Some filePath) classified.

Definition with_content (item : FileItem) (c : option string) : FileItem :=
  {| name := name item;
     path := path item;
     type := type item;
     children := children item;
     content := c |}.

(** The small listing again, for [getFileContentTree]: [/root/a] is a
    directory, [/root/a/b.txt] can be read and [/root/c] cannot. *)
Definition env_small_content_tree : Env :=
  static_env
    (fun c =>
       match c with
       | podman_exec_sh _ (sh_find_content_tree _) => Ok small_listing
       | podman_exec_sh _ (sh_stat p) =>
           if decide (p = "/root/a") then Ok "directory
" else Ok "regular file
"
       | podman_exec_sh _ (sh_cat p) =>
           if decide (p = "/root/c") then Throw "Command failed: cat"
           else Ok "hello"
       | _ => Ok EmptyString
       end)
    (fun _ => Throw "no such container").

(** A listing that names a file before its directory. *)
Definition unsorted_listing : string := "/root/a/b.txt
/root/a
".

Definition env_unsorted_content_tree : Env :=
  static_env
    (fun c =>
       match c with
       | podman_exec_sh _ (sh_find_content_tree _) => Ok unsorted_listing
       | podman_exec_sh _ (sh_stat p) =>
           if decide (p = "/root/a") then Ok "directory
" else Ok "regular file
"
       | podman_exec_sh _ (sh_cat p) => Ok "hello"
       | _ => Ok EmptyString
       end)
    (fun _ => Throw "no such container").

(** A stopped container labeled with port 8000 in a process that cannot
    list the labeled ports; something listens on 8000 when the port is
    probed for the first time and is gone by the next probe. *)
Definition env_listener_leaves : Env :=
  {| exec_result := fun tr c =>
       match c with
       | podman_ps_assignedPort => Throw "Command failed: podman ps"
       | lsof (Some 8000) =>
           if existsb (fun e => match e with
                                | Exec (lsof (Some 8000)) => true
                                | _ => false
                                end) tr
           then exit1
           else Ok "node 4242 user 21u IPv4 TCP *:8000 (LISTEN)
"
       | lsof _ => exit1
       | _ => Ok EmptyString
       end;
     inspect_result := fun _ _ => Ok (info_on_8000 false);
     exec_stderr := fun _ _ => EmptyString;
     uuidv4 := fun _ => "6fa459ea" |}.


(** The number of copies into a container among the commands [cs]. *)
Definition copies (cs : list Cmd) : nat :=
  length (omap (fun c => match c with
                         | podman_cp _ _ _ => Some c
                         | _ => None
                         end) cs).

(** The container has stopped: nothing can be copied into it and no
    command runs in it, while the local file system works. *)
Definition env_container_stopped : Env :=
  static_env
    (fun c =>
       match c with
       | podman_cp _ _ _ => Throw "Command failed: podman cp"
       | podman_exec_mkdir _ _ => Throw "Command failed: podman exec"
       | podman_exec_head _ _ => Throw "Command failed: podman exec"
       | _ => Ok EmptyString
       end)
    (fun _ => Throw "no such container").

(** * Properties *)

(** ** Sanity checks of the string functions *)

Example parseInt_examples :
  parseInt "8000" = Num 8000 /\ parseInt "  -12px" = Num (-12) /\
  parseInt "0x1F" = Num 31 /\ parseInt "abc" = NaN /\
  parseInt EmptyString = NaN /\ String_of (Num 8042) = "8042".
Proof. vm_compute. repeat split. Qed.

Example split_examples :
  split "010" "a
b" = ["a"; "b"] /\ split "/" EmptyString = [EmptyString] /\
  split "/" "a/b/" = ["a"; "b"; EmptyString] /\
  trim "  x y
" = "x y" /\ remove_first "/r/" "/r/a/r/b" = "a/r/b" /\
  substring_to_last "/" "/root/a/b.txt" = "/root/a" /\
  substring_to_last "/" "plain" = EmptyString /\
  includes "dec-nextjs-" "localhost/dec-nextjs-42:latest" = true.
Proof. vm_compute. repeat split. Qed.


(** ** Running the primitives *)

Lemma isPortAvailable_run E p s :
  isPortAvailable E p s =
  (with_event s (Exec (lsof p)), Ok (no_listener (exec_result E (trace s) (lsof p)))).
Proof.
  unfold isPortAvailable, try_catch, bind, execAsync, ret, with_event, no_listener.
  destruct (exec_result E (trace s) (lsof p)); reflexivity.
Qed.

Lemma getAllAssignedPorts_run E s :
  getAllAssignedPorts E s =
  (with_event s (Exec podman_ps_assignedPort),
   Ok (labeled_ports (exec_result E (trace s) podman_ps_assignedPort))).
Proof.
  unfold getAllAssignedPorts, try_catch, bind, execAsync, ret, with_event, labeled_ports.
  destruct (exec_result E (trace s) podman_ps_assignedPort); reflexivity.
Qed.

Lemma commands_app tr1 tr2 : commands (tr1 ++ tr2) = commands tr1 ++ commands tr2.
Proof. unfold commands. apply omap_app. Qed.

(** A line of the listing that reads as a port is among the labeled
    ports. *)
Lemma assignedPorts_of_stdout_complete stdout line z :
  line ∈ split "010" (trim stdout) -> parseInt line = Num z ->
  z ∈ assignedPorts_of_stdout stdout.
Proof.
  intros Hin Hp. unfold assignedPorts_of_stdout.
  apply list_elem_of_omap. exists line. split; [|exact Hp].
  apply list_elem_of_filter. split; [|exact Hin].
  repeat split.
  - destruct line; [discriminate Hp | reflexivity].
  - intros ->. vm_compute in Hp. discriminate.
  - intros ->. discriminate Hp.
Qed.

(** ** The scan of the allocator *)

Section Allocator.

Variable E : Env.

Lemma rejected_shift allUsedPorts s e new z :
  rejected E allUsedPorts (trace (with_event s e)) new z ->
  rejected E allUsedPorts (trace s) (e :: new) z.
Proof.
  intros [Hin | (tr & Hpre & Hprobe)]; [left; exact Hin | right].
  exists (e :: tr). split; [apply prefix_cons; exact Hpre|].
  cbn in Hprobe. rewrite <- app_assoc in Hprobe. exact Hprobe.
Qed.

(** The loop looks at candidates [port], ..., [port + n - 1] only,
    returns the first one that is outside [allUsedPorts] and has no
    listener, after reserving it as its last act, and otherwise throws
    without touching the reservations. *)
Lemma findAvailablePort_loop_spec allUsedPorts n port s :
  let '(s', r) := findAvailablePort_loop E allUsedPorts n port s in
  exists new,
    trace s' = trace s ++ new /\
    (forall e, e ∈ new ->
       (exists z, e = Exec (lsof (Num z)) /\ port <= z < port + Z.of_nat n) \/
       (exists z, e = usedPorts_add (Num z))) /\
    match r with
    | Ok p =>
        port <= p < port + Z.of_nat n /\
        (Num p ∉ allUsedPorts) /\
        usedPorts s' = {[Num p]} ∪ usedPorts s /\
        (exists tr, new = tr ++ [Exec (lsof (Num p)); usedPorts_add (Num p)] /\
           no_listener (exec_result E (trace s ++ tr) (lsof (Num p))) = true) /\
        (forall z, port <= z < p -> rejected E allUsedPorts (trace s) new z)
    | Throw message =>
        message = "No available ports found" /\ usedPorts s' = usedPorts s /\
        (forall z, port <= z < port + Z.of_nat n ->
           rejected E allUsedPorts (trace s) new z)
    end.
Proof.
  revert port s. induction n as [|n IH]; intros port s.
  - simpl. exists []. rewrite app_nil_r. split; [reflexivity|].
    split; [intros c Hc; inversion Hc|]. repeat split. intros z Hz. lia.
  - cbn [findAvailablePort_loop]. case_bool_decide as Hmem.
    + specialize (IH (port + 1) s).
      destruct (findAvailablePort_loop E allUsedPorts n (port + 1) s) as [s' r].
      destruct IH as (new & Htr & Hev & Hr). exists new.
      split; [exact Htr|]. split.
      * intros e He. destruct (Hev e He) as [(z & -> & Hz) | Hadd]; [left | right; exact Hadd].
        exists z. split; [reflexivity|lia].
      * destruct r as [p|m].
        -- destruct Hr as (Hp & Hnot & Hu & Hlast & Hrej).
           repeat split; try assumption; try lia.
           intros z Hz. destruct (decide (z = port)) as [->|Hne]; [left; exact Hmem|].
           apply Hrej. lia.
        -- destruct Hr as (Hm & Hu & Hrej). repeat split; try assumption.
           intros z Hz. destruct (decide (z = port)) as [->|Hne]; [left; exact Hmem|].
           apply Hrej. lia.
    + unfold bind at 1. rewrite isPortAvailable_run.
      destruct (no_listener (exec_result E (trace s) (lsof (Num port)))) eqn:Hfree.
      * unfold bind, add, ret, with_event. cbn.
        exists [Exec (lsof (Num port)); usedPorts_add (Num port)].
        split; [rewrite <- app_assoc; reflexivity|]. split.
        { intros e He. apply elem_of_cons in He as [->|He].
          - left. exists port. split; [reflexivity|lia].
          - apply list_elem_of_singleton in He as ->. right. exists port. reflexivity. }
        repeat split; try assumption; try lia.
        exists []. rewrite app_nil_r. split; [reflexivity|exact Hfree].
      * specialize (IH (port + 1) (with_event s (Exec (lsof (Num port))))).
        destruct (findAvailablePort_loop E allUsedPorts n (port + 1)
                    (with_event s (Exec (lsof (Num port))))) as [s' r].
        destruct IH as (new & Htr & Hev & Hr).
        exists (Exec (lsof (Num port)) :: new). cbn in Htr.
        split; [rewrite Htr, <- app_assoc; reflexivity|]. split.
        { intros e He. apply elem_of_cons in He as [->|He].
          - left. exists port. split; [reflexivity|lia].
          - destruct (Hev e He) as [(z & -> & Hz) | Hadd]; [left | right; exact Hadd].
            exists z. split; [reflexivity|lia]. }
        assert (Hport : rejected E allUsedPorts (trace s)
                          (Exec (lsof (Num port)) :: new) port).
        { right. exists []. split; [apply prefix_nil|]. rewrite app_nil_r. exact Hfree. }
        destruct r as [p|m].
        -- destruct Hr as (Hp & Hnot & Hu & (tr & -> & Hfree') & Hrej).
           repeat split; try assumption; try lia.
           ++ exists (Exec (lsof (Num port)) :: tr). split; [reflexivity|].
              cbn in Hfree'. rewrite <- app_assoc in Hfree'. exact Hfree'.
           ++ intros z Hz. destruct (decide (z = port)) as [->|Hne]; [exact Hport|].
              apply rejected_shift, Hrej. lia.
        -- destruct Hr as (Hm & Hu & Hrej). repeat split; try assumption.
           intros z Hz. destruct (decide (z = port)) as [->|Hne]; [exact Hport|].
           apply rejected_shift, Hrej. lia.
Qed.

End Allocator.

(** The set a call of [findAvailablePort] compares its candidates
    against, when it starts in state [s]. *)
Lemma findAvailablePort_run E startPort s :
  findAvailablePort E startPort s =
  findAvailablePort_loop E (allUsedPorts_at E s) 1000 startPort
    (with_event s (Exec podman_ps_assignedPort)).
Proof.
  unfold findAvailablePort, bind at 1. rewrite getAllAssignedPorts_run.
  reflexivity.
Qed.

Lemma elem_of_allUsedPorts_at E s z :
  Num z ∈ allUsedPorts_at E s <->
  Num z ∈ usedPorts s \/
  z ∈ labeled_ports (exec_result E (trace s) podman_ps_assignedPort).
Proof.
  unfold allUsedPorts_at, Num. rewrite elem_of_union, elem_of_list_to_set.
  rewrite list_elem_of_fmap. split.
  - intros [H | (y & [= ->] & H)]; [left | right]; exact H.
  - intros [H | H]; [left; exact H | right; exists z; split; [reflexivity | exact H]].
Qed.

(** ** The scan window and the reservation of the allocator *)

(** X25.  A call [findAvailablePort startPort] during which no other call
    of the process runs first lists the labeled ports and then probes
    candidates of the window [startPort .. startPort + 999] only.  It
    either returns a port or throws the exhaustion error
    [No available ports found]; in the second case every candidate of the
    window was turned down and the reservations are unchanged.  A returned
    port lies in the window, was not in [usedPorts] when the call started
    and is not the number on any line of the labeled ports listing, and
    the last thing the call did was to add it to [usedPorts]. *)
Theorem findAvailablePort_window_reservation (E : Env) (startPort : Z) (s : State) :
  let '(s', r) := findAvailablePort E startPort s in
  exists new,
    trace s' = trace s ++ Exec podman_ps_assignedPort :: new /\
    (forall c, c ∈ commands new ->
       exists z, c = lsof (Num z) /\ startPort <= z <= startPort + 999) /\
    (forall p, usedPorts_delete p ∉ new) /\
    match r with
    | Ok port =>
        startPort <= port <= startPort + 999 /\
        (Num port ∉ usedPorts s) /\
        (forall stdout line,
           exec_result E (trace s) podman_ps_assignedPort = Ok stdout ->
           line ∈ split "010" (trim stdout) -> parseInt line <> Num port) /\
        usedPorts s' = {[Num port]} ∪ usedPorts s /\
        last new = Some (usedPorts_add (Num port))
    | Throw message =>
        message = "No available ports found" /\
        usedPorts s' = usedPorts s /\
        forall z, startPort <= z <= startPort + 999 ->
          rejected E (allUsedPorts_at E s)
            (trace s ++ [Exec podman_ps_assignedPort]) new z
    end.
Proof.
  rewrite findAvailablePort_run.
  pose proof (findAvailablePort_loop_spec E (allUsedPorts_at E s) 1000 startPort
                (with_event s (Exec podman_ps_assignedPort))) as H.
  destruct (findAvailablePort_loop E (allUsedPorts_at E s) 1000 startPort
              (with_event s (Exec podman_ps_assignedPort))) as [s' r].
  destruct H as (new & Htr & Hev & Hr). exists new. cbn in Htr.
  split; [rewrite Htr, <- app_assoc; reflexivity|]. split.
  { intros c Hc. apply list_elem_of_omap in Hc as (e & He & Hc).
    destruct (Hev e He) as [(z & -> & Hz) | (z & ->)]; [|discriminate].
    injection Hc as <-. exists z. split; [reflexivity|lia]. }
  split.
  { intros p Hin. destruct (Hev _ Hin) as [(z & [=] & _) | (z & [=])]. }
  destruct r as [port|message].
  - destruct Hr as (Hp & Hnot & Hu & (tr & -> & _) & _).
    rewrite elem_of_allUsedPorts_at in Hnot.
    split; [lia|]. split; [tauto|]. split.
    { intros stdout line Hps Hline Hparse. apply Hnot. right.
      rewrite Hps. cbn. eapply assignedPorts_of_stdout_complete; eassumption. }
    split; [exact Hu|].
    rewrite (last_app_cons tr [usedPorts_add (Num port)] (Exec (lsof (Num port)))).
    reflexivity.
  - destruct Hr as (Hm & Hu & Hrej). split; [exact Hm|]. split; [exact Hu|].
    intros z Hz. apply Hrej. lia.
Qed.

(** ** C3: [startContainer] on a running container *)

Section StartRunning.

Variable E : Env.

Lemma getPortFromContainer_binding info src s :
  HostPort info = Some src -> truthy src = true ->
  getPortFromContainer info s =
  ({| usedPorts := {[parseInt src]} ∪ usedPorts s;
      trace := trace s ++ [usedPorts_add (parseInt src)] |}, Ok (parseInt src)).
Proof.
  intros Hhp Ht. unfold getPortFromContainer. rewrite Hhp. cbn. rewrite Ht.
  reflexivity.
Qed.

Lemma getPortFromContainer_label info src s :
  truthy_opt (HostPort info) = false ->
  assignedPortLabel info = Some src -> truthy src = true ->
  getPortFromContainer info s =
  ({| usedPorts := {[parseInt src]} ∪ usedPorts s;
      trace := trace s ++ [usedPorts_add (parseInt src)] |}, Ok (parseInt src)).
Proof.
  intros Hhp Hl Ht. unfold getPortFromContainer. rewrite Hhp, Hl. cbn. rewrite Ht.
  reflexivity.
Qed.

Lemma getPortFromContainer_run info src s :
  port_source info src ->
  getPortFromContainer info s =
  ({| usedPorts := {[parseInt src]} ∪ usedPorts s;
      trace := trace s ++ [usedPorts_add (parseInt src)] |}, Ok (parseInt src)).
Proof.
  intros [[H1 H2] | (H1 & H2 & H3)].
  - apply getPortFromContainer_binding; assumption.
  - apply getPortFromContainer_label; assumption.
Qed.

End StartRunning.

(** C3, as amended.  On a container that is inspected as running,
    [startContainer] returns the port read from the 3000/tcp host port
    binding when there is one and from the [assignedPort] label otherwise.
    The inspection is the only command it issues (no [podman start]), and
    its one effect on the reservations is to add the returned port to
    [usedPorts]. *)
Theorem startContainer_running (E : Env) (containerId : string) (s : State)
    (info : ContainerInfo) (src : string) :
  inspect_result E (trace s) containerId = Ok info ->
  Running info = true ->
  port_source info src ->
  startContainer E containerId s =
  ({| usedPorts := {[parseInt src]} ∪ usedPorts s;
      trace := trace s ++ [Exec (podman_inspect containerId);
                           usedPorts_add (parseInt src)] |},
   Ok (parseInt src)).
Proof.
  intros Hins Hrun Hsrc.
  unfold startContainer, try_catch, bind, inspectContainer. rewrite Hins, Hrun.
  rewrite (getPortFromContainer_run info src _ Hsrc). cbn.
  rewrite <- app_assoc. reflexivity.
Qed.

Lemma startContainer_running_witness :
  startContainer env_running "c1" fresh =
  ({| usedPorts := {[Num 8000]} ∪ ∅;
      trace := [Exec (podman_inspect "c1"); usedPorts_add (Num 8000)] |},
   Ok (Num 8000)).
Proof.
  apply (startContainer_running env_running "c1" fresh (info_on_8000 true) "8000").
  - reflexivity.
  - reflexivity.
  - left. split; reflexivity.
Defined.

(** C3 as it was claimed fails: a fresh process that starts a running
    container on port 8000 ends with 8000 reserved, so the reservation set
    has changed. *)
Lemma startContainer_running_changes_usedPorts :
  inspect_result env_running (trace fresh) "c1" = Ok (info_on_8000 true) /\
  Running (info_on_8000 true) = true /\
  snd (startContainer env_running "c1" fresh) = Ok (Num 8000) /\
  usedPorts (fst (startContainer env_running "c1" fresh)) <> usedPorts fresh.
Proof.
  split; [reflexivity|]. split; [reflexivity|]. split; [reflexivity|].
  intros H. assert (Hin : Num 8000 ∈ usedPorts fresh).
  { rewrite <- H. vm_compute. set_solver. }
  cbn in Hin. set_solver.
Qed.

(** ** C2 and C9: [startContainer] on a stopped container *)

Section StartStopped.

Variable E : Env.

(** What a call of the allocator leaves behind, whatever the window. *)
Lemma findAvailablePort_effect startPort s :
  let '(s', r) := findAvailablePort E startPort s in
  exists new,
    trace s' = trace s ++ new /\
    (forall e, e ∈ new ->
       e = Exec podman_ps_assignedPort \/ (exists z, e = Exec (lsof (Num z))) \/
       (exists z, e = usedPorts_add (Num z))) /\
    match r with
    | Ok Q =>
        usedPorts s' = {[Num Q]} ∪ usedPorts s /\
        (Num Q ∉ allUsedPorts_at E s) /\
        exists tr, tr `prefix_of` new /\
          no_listener (exec_result E (trace s ++ tr) (lsof (Num Q))) = true
    | Throw message =>
        message = "No available ports found" /\ usedPorts s' = usedPorts s
    end.
Proof.
  rewrite findAvailablePort_run.
  pose proof (findAvailablePort_loop_spec E (allUsedPorts_at E s) 1000 startPort
                (with_event s (Exec podman_ps_assignedPort))) as H.
  destruct (findAvailablePort_loop E (allUsedPorts_at E s) 1000 startPort
              (with_event s (Exec podman_ps_assignedPort))) as [s' r].
  destruct H as (new & Htr & Hev & Hr).
  exists (Exec podman_ps_assignedPort :: new). cbn in Htr.
  split; [rewrite Htr, <- app_assoc; reflexivity|]. split.
  { intros e He. apply elem_of_cons in He as [->|He]; [left; reflexivity|].
    right. destruct (Hev e He) as [(z & -> & _) | Hadd]; [left; eexists; reflexivity|].
    right. exact Hadd. }
  destruct r as [Q|m].
  - destruct Hr as (_ & Hnot & Hu & (tr & -> & Hfree) & _).
    split; [exact Hu|]. split; [exact Hnot|].
    exists (Exec podman_ps_assignedPort :: tr). split.
    + apply prefix_cons. eexists; reflexivity.
    + cbn in Hfree. rewrite <- app_assoc in Hfree. exact Hfree.
  - destruct Hr as (Hm & Hu & _). split; assumption.
Qed.

Lemma startContainer_stopped_run containerId s info label :
  inspect_result E (trace s) containerId = Ok info ->
  Running info = false ->
  assignedPortLabel info = Some label ->
  truthy label = true ->
  let s1 := with_event s (Exec (podman_inspect containerId)) in
  let s2 := with_event s1 (Exec (lsof (parseInt label))) in
  startContainer E containerId s =
  if no_listener (exec_result E (trace s1) (lsof (parseInt label)))
  then
    start_settled E containerId (parseInt label)
      {| usedPorts := {[parseInt label]} ∪ usedPorts s;
         trace := trace s2 ++ [usedPorts_add (parseInt label)] |}
  else
    match findAvailablePort E BASE_PORT s2 with
    | (s3, Ok Q) =>
        if bool_decide (parseInt label = Num Q)
        then start_settled E containerId (Num Q) s3
        else (s3, Throw (port_conflict_message label))
    | (s3, Throw message) =>
        (s3, Throw ("Failed to start container: " +:+ message))
    end.
Proof.
  intros Hins Hrun Hlabel Ht s1 s2. subst s1 s2.
  unfold startContainer, try_catch, bind at 1, inspectContainer.
  rewrite Hins, Hrun. unfold bind at 1. unfold bind at 1. unfold bind at 3.
  rewrite Hlabel. cbn [truthy_opt default from_option id]. rewrite Ht.
  rewrite isPortAvailable_run. unfold with_event. cbn [trace usedPorts].
  destruct (no_listener (exec_result E _ (lsof (parseInt label)))).
  - unfold bind, add, ret, execAsync, emit, start_settled, with_event. cbn.
    destruct (exec_result E _ (podman_start containerId)); reflexivity.
  - unfold bind.
    destruct (findAvailablePort E BASE_PORT _) as [s3 [Q|m]]; [|reflexivity].
    cbn [andb]. case_bool_decide; cbn [negb].
    + unfold bind, ret, execAsync, emit, start_settled, with_event. cbn.
      destruct (exec_result E _ (podman_start containerId)); reflexivity.
    + reflexivity.
Qed.

End StartStopped.

(** [start_settled] issues the one command [podman start] and leaves the
    reservations alone. *)
Lemma start_settled_effect E containerId port s :
  let '(s', r) := start_settled E containerId port s in
  usedPorts s' = usedPorts s /\
  (exists new, trace s' = trace s ++ new /\
     commands new = [podman_start containerId]) /\
  match exec_result E (trace s) (podman_start containerId) with
  | Ok _ => r = Ok port
  | Throw message => r = Throw ("Failed to start container: " +:+ message)
  end.
Proof.
  unfold start_settled.
  destruct (exec_result E (trace s) (podman_start containerId)); cbn.
  - split; [reflexivity|]. split; [|reflexivity].
    eexists. rewrite <- app_assoc. split; reflexivity.
  - split; [reflexivity|]. split; [|reflexivity].
    eexists. split; reflexivity.
Qed.

(** The events of an allocator call contain no runtime start. *)
Lemma allocator_events_no_start (new : list Event) :
  (forall e, e ∈ new ->
     e = Exec podman_ps_assignedPort \/ (exists z, e = Exec (lsof (Num z))) \/
     (exists z, e = usedPorts_add (Num z))) ->
  forall c, c ∈ commands new -> c = podman_ps_assignedPort \/ exists p, c = lsof p.
Proof.
  intros Hev c Hc. apply list_elem_of_omap in Hc as (e & He & Hc).
  destruct (Hev e He) as [-> | [(z & ->) | (z & ->)]]; [| |discriminate].
  - injection Hc as <-. left. reflexivity.
  - injection Hc as <-. right. eexists. reflexivity.
Qed.

(** The port that the allocator returns lies in its window. *)
Lemma findAvailablePort_in_window E startPort s :
  let '(s', r) := findAvailablePort E startPort s in
  match r with
  | Ok Q => startPort <= Q <= startPort + 999
  | Throw _ => True
  end.
Proof.
  rewrite findAvailablePort_run.
  pose proof (findAvailablePort_loop_spec E (allUsedPorts_at E s) 1000 startPort
                (with_event s (Exec podman_ps_assignedPort))) as H.
  destruct (findAvailablePort_loop E (allUsedPorts_at E s) 1000 startPort
              (with_event s (Exec podman_ps_assignedPort))) as [s' [Q|m]];
    [|exact I].
  destruct H as (new & _ & _ & Hwin & _). lia.
Qed.

(** C2, as amended.  A stopped container carries the label [label],
    which reads as port [P].  If the probe finds no listener on [P],
    [startContainer] adds exactly [P] to [usedPorts] and issues
    [podman start] (its only commands are the inspection, the probe and
    the start), returning [P] when the start succeeds.  If the probe finds
    [P] occupied, the allocator is called.  When it allocates a port [Q],
    [Q] lies in the window from 8000, was not reserved, and is the one
    port added to [usedPorts]; if [Q] is another port than [P] the call
    fails with the port conflict error and no [podman start] was issued,
    and if [Q] is [P] itself the container is started on [P].  When the
    allocator finds no port, the call fails with the exhaustion error,
    [usedPorts] is unchanged and no [podman start] was issued. *)
Theorem startContainer_stopped_label (E : Env) (containerId : string) (s : State)
    (info : ContainerInfo) (label : string) (P : Z) :
  inspect_result E (trace s) containerId = Ok info ->
  Running info = false ->
  assignedPortLabel info = Some label ->
  truthy label = true ->
  parseInt label = Num P ->
  let s1 := with_event s (Exec (podman_inspect containerId)) in
  let s2 := with_event s1 (Exec (lsof (Num P))) in
  let '(s', r) := startContainer E containerId s in
  exists new, trace s' = trace s ++ new /\
  if no_listener (exec_result E (trace s1) (lsof (Num P)))
  then
    usedPorts s' = {[Num P]} ∪ usedPorts s /\
    commands new = [podman_inspect containerId; lsof (Num P);
                    podman_start containerId] /\
    match exec_result E (trace s2 ++ [usedPorts_add (Num P)])
            (podman_start containerId) with
    | Ok _ => r = Ok (Num P)
    | Throw message => r = Throw ("Failed to start container: " +:+ message)
    end
  else
    match findAvailablePort E BASE_PORT s2 with
    | (s3, Ok Q) =>
        BASE_PORT <= Q <= BASE_PORT + 999 /\
        (Num Q ∉ usedPorts s) /\
        usedPorts s' = {[Num Q]} ∪ usedPorts s /\
        if decide (Q = P)
        then
          podman_start containerId ∈ commands new /\
          match exec_result E (trace s3) (podman_start containerId) with
          | Ok _ => r = Ok (Num P)
          | Throw message =>
              r = Throw ("Failed to start container: " +:+ message)
          end
        else
          s' = s3 /\ r = Throw (port_conflict_message label) /\
          forall c, podman_start c ∉ commands new
    | (s3, Throw _) =>
        s' = s3 /\
        usedPorts s' = usedPorts s /\
        r = Throw "Failed to start container: No available ports found" /\
        forall c, podman_start c ∉ commands new
    end.
Proof.
  intros Hins Hrun Hlabel Ht HP s1 s2.
  rewrite (startContainer_stopped_run E containerId s info label Hins Hrun Hlabel Ht).
  rewrite HP. fold s1. fold s2.
  destruct (no_listener (exec_result E (trace s1) (lsof (Num P)))).
  - pose proof (start_settled_effect E containerId (Num P)
                  {| usedPorts := {[Num P]} ∪ usedPorts s;
                     trace := trace s2 ++ [usedPorts_add (Num P)] |}) as H.
    destruct (start_settled E containerId (Num P) _) as [s' r].
    destruct H as (Hu & (new & Htr & Hcmd) & Hr). cbn in Hu, Htr, Hr.
    exists ([Exec (podman_inspect containerId); Exec (lsof (Num P));
             usedPorts_add (Num P)] ++ new).
    split.
    { rewrite Htr. rewrite <- !app_assoc. reflexivity. }
    split; [exact Hu|]. split; [|exact Hr].
    rewrite commands_app, Hcmd. reflexivity.
  - pose proof (findAvailablePort_effect E BASE_PORT s2) as H.
    pose proof (findAvailablePort_in_window E BASE_PORT s2) as Hwin.
    destruct (findAvailablePort E BASE_PORT s2) as [s3 [Q|m]];
      destruct H as (new & Htr & Hev & Hr).
    + assert (Hnostart : forall c,
                podman_start c ∉ commands
                  ([Exec (podman_inspect containerId); Exec (lsof (Num P))] ++ new)).
      { intros c Hc. rewrite commands_app in Hc. apply elem_of_app in Hc as [Hc|Hc].
        - cbn in Hc. apply elem_of_cons in Hc as [Hc|Hc]; [discriminate|].
          apply list_elem_of_singleton in Hc. discriminate.
        - destruct (allocator_events_no_start new Hev _ Hc) as [Hc'|(p & Hc')];
            discriminate. }
      destruct Hr as (Hu & Hnot & _).
      rewrite elem_of_allUsedPorts_at in Hnot. cbn [usedPorts s2 s1 with_event] in Hu, Hnot.
      case_bool_decide as HQ.
      * assert (HQP : Q = P) by (unfold Num in HQ; congruence). subst Q.
        pose proof (start_settled_effect E containerId (Num P) s3) as H.
        destruct (start_settled E containerId (Num P) s3) as [s' r].
        destruct H as (Hu' & (new' & Htr' & Hcmd') & Hr').
        exists ([Exec (podman_inspect containerId); Exec (lsof (Num P))] ++ new ++ new').
        split.
        { rewrite Htr', Htr. cbn. rewrite <- !app_assoc. reflexivity. }
        split; [exact Hwin|]. split; [tauto|].
        split; [rewrite Hu'; exact Hu|].
        rewrite decide_True by reflexivity. split; [|exact Hr'].
        rewrite !commands_app, Hcmd'. rewrite !elem_of_app. right. right. left.
      * exists ([Exec (podman_inspect containerId); Exec (lsof (Num P))] ++ new).
        split.
        { rewrite Htr. cbn. rewrite <- !app_assoc. reflexivity. }
        split; [exact Hwin|]. split; [tauto|]. split; [exact Hu|].
        rewrite decide_False by (intros ->; apply HQ; reflexivity).
        split; [reflexivity|]. split; [reflexivity|]. exact Hnostart.
    + exists ([Exec (podman_inspect containerId); Exec (lsof (Num P))] ++ new).
      split.
      { rewrite Htr. cbn. rewrite <- !app_assoc. reflexivity. }
      destruct Hr as (-> & Hu).
      split; [reflexivity|]. split; [exact Hu|]. split; [reflexivity|].
      intros c Hc. rewrite commands_app in Hc. apply elem_of_app in Hc as [Hc|Hc].
      * cbn in Hc. apply elem_of_cons in Hc as [Hc|Hc]; [discriminate|].
        apply list_elem_of_singleton in Hc. discriminate.
      * destruct (allocator_events_no_start new Hev _ Hc) as [Hc'|(p & Hc')];
          discriminate.
Qed.

Lemma startContainer_stopped_label_witness :
  snd (startContainer env_stopped_free "c1" fresh) = Ok (Num 8000) /\
  snd (startContainer env_stopped_occupied "c1" fresh) =
    Throw (port_conflict_message "8000") /\
  usedPorts (fst (startContainer env_stopped_occupied "c1" fresh)) =
    {[Num 8001]}.
Proof.
  split.
  - pose proof (startContainer_stopped_label env_stopped_free "c1" fresh
                  (info_on_8000 false) "8000" 8000
                  eq_refl eq_refl eq_refl eq_refl eq_refl) as H.
    cbv zeta in H.
    destruct (startContainer env_stopped_free "c1" fresh) as [s' r].
    destruct H as (new & _ & H). vm_compute in H.
    destruct H as (_ & _ & H). exact H.
  - pose proof (startContainer_stopped_label env_stopped_occupied "c1" fresh
                  (info_on_8000 false) "8000" 8000
                  eq_refl eq_refl eq_refl eq_refl eq_refl) as H.
    cbv zeta in H.
    destruct (startContainer env_stopped_occupied "c1" fresh) as [[ports tr] r].
    destruct H as (new & _ & H). vm_compute in H.
    destruct H as (_ & _ & Hu & _ & Hr & _). cbn [fst snd usedPorts].
    split; [rewrite Hr; reflexivity|]. rewrite Hu. reflexivity.
Defined.

(** C2 as it was claimed fails: an occupied labeled port does not always
    end in the port conflict error.  In a process that holds a
    reservation for every port of the window, the allocator finds no port
    and the call fails with the exhaustion error.  And when the listing of
    the labeled ports fails and the listener on 8000 is gone by the time
    the allocator probes 8000, the allocator returns 8000 itself and the
    container is started. *)
Lemma startContainer_occupied_without_conflict :
  (no_listener
     (exec_result env_stopped_occupied [Exec (podman_inspect "c1")]
        (lsof (Num 8000))) = false /\
   snd (startContainer env_stopped_occupied "c1" window_reserved) =
     Throw "Failed to start container: No available ports found") /\
  (no_listener
     (exec_result env_listener_leaves [Exec (podman_inspect "c1")]
        (lsof (Num 8000))) = false /\
   snd (startContainer env_listener_leaves "c1" fresh) = Ok (Num 8000) /\
   commands (trace (fst (startContainer env_listener_leaves "c1" fresh))) =
     [podman_inspect "c1"; lsof (Num 8000); podman_ps_assignedPort;
      lsof (Num 8000); podman_start "c1"]).
Proof.
  split.
  - split; [reflexivity|]. vm_compute. reflexivity.
  - split; [reflexivity|]. split; vm_compute; reflexivity.
Qed.

(** C9.  When the labeled port [P] is occupied and the allocator hands
    out another port [Q], [startContainer] throws the port conflict error
    and leaves [Q] in [usedPorts]: [Q] was not reserved before and is on
    no container label, the allocator added it, nothing on this path
    removes a reservation, and no container was created or started for
    it (the commands issued are the inspection, the listing and
    probes). *)
Theorem startContainer_conflict_leaves_reservation (E : Env)
    (containerId : string) (s : State) (info : ContainerInfo)
    (label : string) (P Q : Z) (s3 : State) :
  inspect_result E (trace s) containerId = Ok info ->
  Running info = false ->
  assignedPortLabel info = Some label ->
  truthy label = true ->
  parseInt label = Num P ->
  let s1 := with_event s (Exec (podman_inspect containerId)) in
  let s2 := with_event s1 (Exec (lsof (Num P))) in
  no_listener (exec_result E (trace s1) (lsof (Num P))) = false ->
  findAvailablePort E BASE_PORT s2 = (s3, Ok Q) ->
  Q <> P ->
  let '(s', r) := startContainer E containerId s in
  r = Throw (port_conflict_message label) /\
  usedPorts s' = {[Num Q]} ∪ usedPorts s /\
  (Num Q ∉ usedPorts s) /\
  (Q ∉ labeled_ports (exec_result E (trace s2) podman_ps_assignedPort)) /\
  exists new,
    trace s' = trace s ++ new /\
    usedPorts_add (Num Q) ∈ new /\
    (forall p, usedPorts_delete p ∉ new) /\
    (forall c, c ∈ commands new ->
       c = podman_inspect containerId \/ c = podman_ps_assignedPort \/
       exists p, c = lsof p).
Proof.
  intros Hins Hrun Hlabel Ht HP s1 s2 Hocc Halloc HQP.
  rewrite (startContainer_stopped_run E containerId s info label Hins Hrun Hlabel Ht).
  rewrite HP. fold s1. fold s2. rewrite Hocc, Halloc.
  rewrite bool_decide_eq_false_2 by (unfold Num; congruence).
  pose proof (findAvailablePort_run E BASE_PORT s2) as Hrun'.
  rewrite Halloc in Hrun'. symmetry in Hrun'.
  pose proof (findAvailablePort_loop_spec E (allUsedPorts_at E s2) 1000 BASE_PORT
                (with_event s2 (Exec podman_ps_assignedPort))) as H.
  rewrite Hrun' in H. destruct H as (new & Htr & Hev & Hr).
  destruct Hr as (_ & Hnot & Hu & (tr & -> & _) & _).
  rewrite elem_of_allUsedPorts_at in Hnot. cbn in Hu, Htr.
  split; [reflexivity|]. split; [exact Hu|]. split; [tauto|]. split; [tauto|].
  exists ([Exec (podman_inspect containerId); Exec (lsof (Num P));
           Exec podman_ps_assignedPort] ++
          tr ++ [Exec (lsof (Num Q)); usedPorts_add (Num Q)]).
  split; [rewrite Htr; rewrite <- !app_assoc; reflexivity|]. split.
  { rewrite !elem_of_app. right. right. rewrite !elem_of_cons. tauto. }
  split.
  { intros p Hin. apply elem_of_app in Hin as [Hin|Hin].
    - rewrite !elem_of_cons in Hin. destruct Hin as [?|[?|[?|Hin]]]; try discriminate.
      inversion Hin.
    - destruct (Hev _ Hin) as [(z & [=] & _) | (z & [=])]. }
  intros c Hc. rewrite commands_app in Hc. apply elem_of_app in Hc as [Hc|Hc].
  - cbn in Hc. rewrite !elem_of_cons in Hc.
    destruct Hc as [->|[->|[->|Hc]]]; [tauto|right; right; eexists; reflexivity|tauto|].
    inversion Hc.
  - apply list_elem_of_omap in Hc as (e & He & Hc).
    destruct (Hev e He) as [(z & -> & _) | (z & ->)]; [|discriminate].
    injection Hc as <-. right. right. eexists. reflexivity.
Qed.

Lemma startContainer_conflict_leaves_reservation_witness :
  snd (startContainer env_stopped_occupied "c1" fresh) =
    Throw (port_conflict_message "8000") /\
  Num 8001 ∈ usedPorts (fst (startContainer env_stopped_occupied "c1" fresh)).
Proof.
  pose proof (startContainer_conflict_leaves_reservation env_stopped_occupied
                "c1" fresh (info_on_8000 false) "8000" 8000 8001
                (fst (findAvailablePort env_stopped_occupied BASE_PORT
                        (with_event (with_event fresh (Exec (podman_inspect "c1")))
                           (Exec (lsof (Num 8000))))))
                eq_refl eq_refl eq_refl eq_refl eq_refl eq_refl eq_refl) as H.
  cbv zeta in H.
  destruct (startContainer env_stopped_occupied "c1" fresh) as [s' r].
  destruct H as (Hr & Hu & _); [discriminate|].
  split; [exact Hr|]. cbn [fst]. rewrite Hu. set_solver.
Defined.

(** ** C4: [deleteContainer] *)

(** An element that occurs once in a list determines the prefix before
    it. *)
Lemma prefix_snoc_inv {A} (x : A) (pre post tr : list A) :
  x ∉ pre -> x ∉ post -> (tr ++ [x]) `prefix_of` (pre ++ x :: post) -> tr = pre.
Proof.
  revert tr. induction pre as [|a pre IH]; intros tr Hpre Hpost [k Hk].
  - destruct tr as [|b tr]; [reflexivity|]. exfalso. cbn in Hk.
    injection Hk as -> Hk. apply Hpost. rewrite Hk, <- app_assoc.
    apply elem_of_app. right. left.
  - destruct tr as [|b tr].
    + exfalso. cbn in Hk. injection Hk as -> _. apply Hpre. left.
    + cbn in Hk. injection Hk as -> Hk. f_equal. apply IH.
      * intros Hin. apply Hpre. right. exact Hin.
      * exact Hpost.
      * exists k. exact Hk.
Qed.

Ltac run_step :=
  unfold bind, try_catch, ret, throw, emit, execAsync, releasePort, delete_port,
    with_event; cbn [trace usedPorts].

Ltac norm_trace :=
  cbn [trace usedPorts fst snd] in *;
  repeat rewrite <- app_assoc in *; cbn [app] in *.

(** Membership of an element in an explicit list, case by case. *)
Ltac not_in_explicit H :=
  cbn in H;
  repeat (apply elem_of_cons in H as [H|H]; [try discriminate H|]);
  try (apply elem_of_nil in H; contradiction).

Ltac give_prefix n :=
  match goal with
  | |- exists tr, (?l = _ /\ _) \/ _ => exists (take n l); cbn [take firstn]
  end.

Ltac split_at_command x :=
  match goal with
  | H : (?tr ++ [x]) `prefix_of` ?l |- _ =>
      let rec go pre l :=
        lazymatch l with
        | x :: ?post =>
            apply (prefix_snoc_inv x (rev pre) post) in H;
            [ cbn [rev app] in H; subst tr
            | cbn [rev app]; let Hin := fresh in intros Hin; not_in_explicit Hin
            | let Hin := fresh in intros Hin; not_in_explicit Hin ]
        | ?e :: ?l' => go (e :: pre) l'
        end in
      go (@nil Event) l
  end.

Lemma release_after_add (port : number) (used : gset number) :
  ({[port]} ∪ used) ∖ {[port]} = used ∖ {[port]}.
Proof.
  apply set_eq. intros x. rewrite !elem_of_difference, elem_of_union. tauto.
Qed.

(** C4.  Let the inspection of the container succeed and its port be
    determined.  Then [deleteContainer] releases that port exactly once,
    whether the container runs or not, and ends with the port outside
    [usedPorts].  On a running container the command after the inspection
    is [podman stop], and [podman rm] follows it once the stop succeeded;
    on a stopped one no stop is issued and [podman rm] comes right after
    the inspection.  An image is removed only if it is the image of the
    container and its name contains [dec-nextjs-]; once the removal of the
    image is attempted the call succeeds, and a failed removal is
    reported with [console.warn]. *)
Theorem deleteContainer_stop_release_image (E : Env) (containerId : string)
    (s : State) (info : ContainerInfo) (src : string) :
  inspect_result E (trace s) containerId = Ok info ->
  port_source info src ->
  let port := parseInt src in
  let '(s', r) := deleteContainer E containerId s in
  exists new,
    trace s' = trace s ++ new /\
    released new = [port] /\
    usedPorts s' = usedPorts s ∖ {[port]} /\
    (if Running info
     then exists rest,
         commands new = podman_inspect containerId :: podman_stop containerId :: rest /\
         (podman_stop containerId ∉ rest) /\
         forall tr out,
           (tr ++ [Exec (podman_stop containerId)]) `prefix_of` new ->
           exec_result E (trace s ++ tr) (podman_stop containerId) = Ok out ->
           exists rest', rest = podman_rm containerId :: rest'
     else exists rest,
         commands new = podman_inspect containerId :: podman_rm containerId :: rest /\
         forall c, podman_stop c ∉ commands new) /\
    (forall img, podman_rmi img ∈ commands new ->
       Image info = Some img /\ includes "dec-nextjs-" img = true /\
       r = Ok tt /\
       exists tr,
         (new = tr ++ [Exec (podman_rmi img);
                       console_log ["Deleted associated image: " +:+ img]] /\
          exists out, exec_result E (trace s ++ tr) (podman_rmi img) = Ok out) \/
         (exists message,
            new = tr ++ [Exec (podman_rmi img);
                         console_warn ["Could not delete image " +:+ img +:+ ":";
                                       message]] /\
            exec_result E (trace s ++ tr) (podman_rmi img) = Throw message)).
Proof.
  intros Hins Hsrc port.
  unfold deleteContainer, try_catch, bind at 1, inspectContainer. rewrite Hins.
  unfold bind at 1. unfold bind at 1.
  rewrite (getPortFromContainer_run info src _ Hsrc). fold port.
  cbn [trace usedPorts].
  destruct (Running info) eqn:Hrun.
  - run_step. norm_trace.
    destruct (exec_result E _ (podman_stop containerId)) as [out1|m1] eqn:Hstop;
      norm_trace.
    + destruct (exec_result E _ (podman_rm containerId)) as [out2|m2] eqn:Hrm;
        norm_trace.
      * destruct (Image info) as [img|] eqn:Himg;
          cbn [truthy_opt default from_option id andb].
        -- destruct (truthy img && includes "dec-nextjs-" img) eqn:Hmatch.
           ++ apply andb_true_iff in Hmatch as [_ Hinc].
              destruct (exec_result E _ (podman_rmi img)) as [out3|m3] eqn:Hrmi;
                norm_trace.
              ** eexists. split; [reflexivity|]. split; [reflexivity|].
                 split; [apply release_after_add|]. split.
                 { eexists. split; [reflexivity|]. split.
                   - intros Hin. not_in_explicit Hin.
                   - intros tr out Hpre Hout. eexists. reflexivity. }
                 intros img' Hin. not_in_explicit Hin. injection Hin as ->.
                 repeat (split; [reflexivity || assumption|]).
                 give_prefix 7%nat. left. split; [reflexivity|]. eexists. exact Hrmi.
              ** eexists. split; [reflexivity|]. split; [reflexivity|].
                 split; [apply release_after_add|]. split.
                 { eexists. split; [reflexivity|]. split.
                   - intros Hin. not_in_explicit Hin.
                   - intros tr out Hpre Hout. eexists. reflexivity. }
                 intros img' Hin. not_in_explicit Hin. injection Hin as ->.
                 repeat (split; [reflexivity || assumption|]).
                 give_prefix 7%nat. right. exists m3. split; [reflexivity|exact Hrmi].
           ++ eexists. split; [reflexivity|]. split; [reflexivity|].
              split; [apply release_after_add|]. split.
              { eexists. split; [reflexivity|]. split.
                - intros Hin. not_in_explicit Hin.
                - intros tr out Hpre Hout. eexists. reflexivity. }
              intros img' Hin. not_in_explicit Hin.
        -- eexists. split; [reflexivity|]. split; [reflexivity|].
           split; [apply release_after_add|]. split.
           { eexists. split; [reflexivity|]. split.
             - intros Hin. not_in_explicit Hin.
             - intros tr out Hpre Hout. eexists. reflexivity. }
           intros img' Hin. not_in_explicit Hin.
      * eexists. split; [reflexivity|]. split; [reflexivity|].
        split; [apply release_after_add|]. split.
        { eexists. split; [reflexivity|]. split.
          - intros Hin. not_in_explicit Hin.
          - intros tr out Hpre Hout. eexists. reflexivity. }
        intros img' Hin. not_in_explicit Hin.
    + eexists. split; [reflexivity|]. split; [reflexivity|].
      split; [apply release_after_add|]. split.
      { eexists. split; [reflexivity|]. split.
        - intros Hin. not_in_explicit Hin.
        - intros tr out Hpre Hout. exfalso.
          split_at_command (Exec (podman_stop containerId)).
          rewrite Hstop in Hout. discriminate. }
      intros img' Hin. not_in_explicit Hin.
  - run_step. norm_trace.
    destruct (exec_result E _ (podman_rm containerId)) as [out2|m2] eqn:Hrm;
      norm_trace.
    + destruct (Image info) as [img|] eqn:Himg;
        cbn [truthy_opt default from_option id andb].
      * destruct (truthy img && includes "dec-nextjs-" img) eqn:Hmatch.
        -- apply andb_true_iff in Hmatch as [_ Hinc].
           destruct (exec_result E _ (podman_rmi img)) as [out3|m3] eqn:Hrmi;
             norm_trace.
           ++ eexists. split; [reflexivity|]. split; [reflexivity|].
              split; [apply release_after_add|]. split.
              { eexists. split; [reflexivity|]. intros c Hin. not_in_explicit Hin. }
              intros img' Hin. not_in_explicit Hin. injection Hin as ->.
              repeat (split; [reflexivity || assumption|]).
              give_prefix 5%nat. left. split; [reflexivity|]. eexists. exact Hrmi.
           ++ eexists. split; [reflexivity|]. split; [reflexivity|].
              split; [apply release_after_add|]. split.
              { eexists. split; [reflexivity|]. intros c Hin. not_in_explicit Hin. }
              intros img' Hin. not_in_explicit Hin. injection Hin as ->.
              repeat (split; [reflexivity || assumption|]).
              give_prefix 5%nat. right. exists m3. split; [reflexivity|exact Hrmi].
        -- eexists. split; [reflexivity|]. split; [reflexivity|].
           split; [apply release_after_add|]. split.
           { eexists. split; [reflexivity|]. intros c Hin. not_in_explicit Hin. }
           intros img' Hin. not_in_explicit Hin.
      * eexists. split; [reflexivity|]. split; [reflexivity|].
        split; [apply release_after_add|]. split.
        { eexists. split; [reflexivity|]. intros c Hin. not_in_explicit Hin. }
        intros img' Hin. not_in_explicit Hin.
    + eexists. split; [reflexivity|]. split; [reflexivity|].
      split; [apply release_after_add|]. split.
      { eexists. split; [reflexivity|]. intros c Hin. not_in_explicit Hin. }
      intros img' Hin. not_in_explicit Hin.
Qed.

Lemma deleteContainer_stop_release_image_witness :
  released (trace (fst (deleteContainer env_running "c1" fresh))) = [Num 8000] /\
  Num 8000 ∉ usedPorts (fst (deleteContainer env_running "c1" fresh)).
Proof.
  pose proof (deleteContainer_stop_release_image env_running "c1" fresh
                (info_on_8000 true) "8000" eq_refl
                (or_introl (conj eq_refl eq_refl))) as H.
  cbv zeta in H.
  destruct (deleteContainer env_running "c1" fresh) as [s' r].
  destruct H as (new & Htr & Hrel & Hu & _). cbn [fst]. split.
  - rewrite Htr. exact Hrel.
  - rewrite Hu. intros Hin. apply elem_of_difference in Hin as [_ Hin].
    apply Hin. apply elem_of_singleton. reflexivity.
Defined.

(** ** C5: calls of the allocator that overlap *)

Module AsyncFacts.
Import Async.

(** A scan that no other call interrupts ends as the loop of the
    sequential [findAvailablePort] does. *)
Lemma complete_scan E allUsedPorts n :
  forall port s fuel, (n <= fuel)%nat ->
    let '(s1, t1) := scan E allUsedPorts n port s in
    let '(s2, r) := findAvailablePort_loop E allUsedPorts n port s in
    complete E (S fuel) t1 s1 = (s2, Settled r).
Proof.
  induction n as [|n IH]; intros port s fuel Hfuel.
  - reflexivity.
  - cbn [scan findAvailablePort_loop]. case_bool_decide as Hmem.
    + apply IH. lia.
    + unfold bind at 1. rewrite isPortAvailable_run.
      cbn [complete resume].
      destruct (no_listener (exec_result E (trace s) (lsof (Num port)))).
      * unfold bind, add, ret, with_event. cbn.
        destruct fuel; reflexivity.
      * destruct fuel as [|fuel]; [lia|].
        specialize (IH (port + 1) (with_event s (Exec (lsof (Num port)))) fuel).
        destruct (scan E allUsedPorts n (port + 1)
                    (with_event s (Exec (lsof (Num port))))) as [s1 t1].
        apply IH. lia.
Qed.

Lemma complete_step E fuel t s :
  complete E (S fuel) t s =
  match t with
  | Settled _ => (s, t)
  | _ => let '(s', t') := resume E t s in complete E fuel t' s'
  end.
Proof. reflexivity. Qed.

Lemma resume_listing E startPort answer s :
  resume E (AwaitListing startPort answer) s =
  scan E (usedPorts s ∪ list_to_set (Num <$> labeled_ports answer))
    1000 startPort s.
Proof. reflexivity. Qed.

(** One call on its own is the sequential [findAvailablePort]. *)
Lemma complete_call E startPort s :
  let '(s1, t1) := call E startPort s in
  let '(s2, r) := findAvailablePort E startPort s in
  complete E 1002 t1 s1 = (s2, Settled r).
Proof.
  unfold call. rewrite findAvailablePort_run.
  rewrite (complete_step E 1001). cbv beta iota. rewrite resume_listing.
  pose proof (complete_scan E (allUsedPorts_at E s) 1000 startPort
                (with_event s (Exec podman_ps_assignedPort)) 1000%nat
                (Nat.le_refl _)) as H.
  change (usedPorts (with_event s (Exec podman_ps_assignedPort)) ∪ _)
    with (allUsedPorts_at E s).
  destruct (scan E (allUsedPorts_at E s) 1000 startPort _) as [s1 t1].
  destruct (findAvailablePort_loop E (allUsedPorts_at E s) 1000 startPort _)
    as [s2 r].
  exact H.
Qed.

(** Two calls of which the second starts after the first has returned
    get different ports. *)
Lemma consecutive_calls_distinct E startPort1 startPort2 s s1 s2 p1 p2 :
  findAvailablePort E startPort1 s = (s1, Ok p1) ->
  findAvailablePort E startPort2 s1 = (s2, Ok p2) ->
  p1 <> p2.
Proof.
  intros H1 H2.
  pose proof (findAvailablePort_effect E startPort1 s) as E1. rewrite H1 in E1.
  pose proof (findAvailablePort_effect E startPort2 s1) as E2. rewrite H2 in E2.
  destruct E1 as (_ & _ & _ & Hu1 & _). destruct E2 as (_ & _ & _ & _ & Hnot & _).
  intros ->. apply Hnot. apply elem_of_allUsedPorts_at. left.
  rewrite Hu1. apply elem_of_union. left. apply elem_of_singleton. reflexivity.
Qed.

(** C5 fails on the code.  In a fresh process with no labeled container
    and no listener, two calls [findAvailablePort 8000] are made together.
    Both listings complete before either probe does (the schedule resumes
    call 0, call 1, call 0, call 1), and both calls return 8000: each
    compared 8000 with the reservations as they were when its listing
    completed, and reserved it only after its probe. *)
Theorem overlapping_calls_return_same_port :
  let '(s0, ts) := spawn env_quiet [8000; 8000] fresh in
  let '(s', ts') := run env_quiet [0; 1; 0; 1]%nat ts s0 in
  ts' = [Settled (Ok 8000); Settled (Ok 8000)] /\
  returned ts' = [8000; 8000] /\
  ~ NoDup (returned ts').
Proof.
  vm_compute. split; [reflexivity|]. split; [reflexivity|].
  intros H. apply NoDup_cons in H as [H _]. apply H. left.
Qed.

(** C1 fails on the code, by the defect of C5.  In a fresh process with
    no labeled container and no listener, two calls
    [findAvailablePort 8000] are made together and both listings complete
    before either probe does.  When the probe of call 0 completes, call 0
    reserves 8000 and returns it.  Call 1 still waits for its own probe of
    8000, with the set it compares candidates against taken when its
    listing completed, so without 8000.  When that probe completes, call 1
    decides for 8000 and returns it, although 8000 is in [usedPorts] at
    that moment, and [usedPorts] is what it was before. *)
Theorem stale_snapshot_returns_reserved_port :
  let '(s0, ts) := spawn env_quiet [8000; 8000] fresh in
  let '(s1, ts1) := run env_quiet [0; 1; 0]%nat ts s0 in
  ts1 = [Settled (Ok 8000); AwaitProbe ∅ 999 8000 exit1] /\
  Num 8000 ∈ usedPorts s1 /\
  (let '(s2, ts2) := run env_quiet [1]%nat ts1 s1 in
   ts2 = [Settled (Ok 8000); Settled (Ok 8000)] /\
   usedPorts s2 = usedPorts s1).
Proof.
  vm_compute. repeat split; reflexivity.
Qed.

(** The same two calls get 8000 and 8001 when the first one returns
    before the listing of the second completes. *)
Example calls_in_turn_return_distinct_ports :
  let '(s0, ts) := spawn env_quiet [8000; 8000] fresh in
  let '(s', ts') := run env_quiet [0; 0; 1; 1]%nat ts s0 in
  returned ts' = [8000; 8001].
Proof. vm_compute. reflexivity. Qed.

End AsyncFacts.

(** ** The loops of [file.ts] *)

Lemma getFileStat_run E containerId filePath s :
  getFileStat E containerId filePath s =
  (with_event s (Exec (stat_command containerId filePath)),
   Ok (is_directory (exec_result E (trace s) (stat_command containerId filePath)))).
Proof.
  unfold getFileStat, execInContainer, try_catch, bind, execAsync, ret,
    with_event, is_directory, stat_command.
  destruct (exec_result E (trace s) _); reflexivity.
Qed.

Lemma getFileTree_loop_run E containerId containerPath paths :
  forall st s,
    getFileTree_loop E containerId containerPath paths st s =
    ({| usedPorts := usedPorts s;
        trace := trace s ++ map (fun p => Exec (stat_command containerId p)) paths |},
     Ok (fold_left (fun st '(filePath, isDirectory) =>
                      add_to_tree containerPath st filePath isDirectory)
           (zip paths (stat_answers E containerId (trace s) paths)) st)).
Proof.
  induction paths as [|p paths IH]; intros st s.
  - cbn. rewrite app_nil_r. destruct s; reflexivity.
  - cbn [getFileTree_loop]. unfold bind at 1, getFileTree_step.
    unfold bind at 1. rewrite getFileStat_run. unfold ret at 1.
    rewrite IH. cbn. rewrite <- app_assoc. reflexivity.
Qed.

(** ** A path and the path of its parent *)

Lemma take_chars_le n s : String.le (take_chars n s) s.
Proof.
  unfold String.le, String.leb. revert s.
  induction n as [|n IH]; intros [|a s]; cbn; try exact I.
  assert (Ascii.compare a a = Eq) as ->.
  { unfold Ascii.compare. apply N.compare_refl. }
  apply IH.
Qed.

Lemma take_chars_length n s :
  (n <= String.length s)%nat -> String.length (take_chars n s) = n.
Proof.
  revert s. induction n as [|n IH]; intros [|a s] Hn; cbn in *; try lia.
  rewrite IH; lia.
Qed.

Lemma lastIndexOf_go_bound c s i found j :
  lastIndexOf_go c s i found = Some j ->
  found = Some j \/ (i <= j < i + String.length s)%nat.
Proof.
  revert i found. induction s as [|a s IH]; intros i found H; cbn in *.
  - left. exact H.
  - apply IH in H as [H|H]; [|right; lia].
    destruct (Ascii.eqb a c); [|left; exact H].
    injection H as <-. right. lia.
Qed.

(** A parent path that is not empty is a proper prefix of the path, so
    it comes strictly before it in the order of the listing. *)
Lemma substring_to_last_before c s :
  truthy (substring_to_last c s) = true ->
  String.le (substring_to_last c s) s /\ substring_to_last c s <> s.
Proof.
  unfold substring_to_last. destruct (lastIndexOf c s) as [i|] eqn:Hi; [|discriminate].
  intros _. split; [apply take_chars_le|].
  apply lastIndexOf_go_bound in Hi as [Hi|Hi]; [discriminate|].
  intros Heq. apply (f_equal String.length) in Heq.
  rewrite take_chars_length in Heq; lia.
Qed.

(** In a sorted listing, a listed parent path stands before the path. *)
Lemma parent_listed_before (containerPath : string) (pre post : list string)
    (p : string) :
  Sorted String.le (pre ++ p :: post) ->
  parent_key containerPath p ∈ pre ++ p :: post ->
  parent_key containerPath p = containerPath \/ parent_key containerPath p ∈ pre.
Proof.
  intros Hsorted Hin. unfold parent_key in *.
  destruct (truthy (substring_to_last "/" p)) eqn:Ht; [|left; reflexivity].
  right. destruct (substring_to_last_before "/" p Ht) as [Hle Hne].
  apply elem_of_app in Hin as [Hin|Hin]; [exact Hin|]. exfalso.
  apply elem_of_cons in Hin as [Hin|Hin]; [exact (Hne Hin)|].
  apply Sorted_StronglySorted in Hsorted; [|apply _].
  apply StronglySorted_app_1_r in Hsorted.
  apply StronglySorted_cons in Hsorted as [Hall _].
  rewrite Forall_forall in Hall. specialize (Hall _ Hin).
  apply Hne. apply (anti_symm String.le); assumption.
Qed.

(** ** The objects of the tree under construction *)

Lemma push_child_length pa a heap : length (push_child pa a heap) = length heap.
Proof.
  unfold push_child. destruct (heap !! pa) as [parent|]; [|reflexivity].
  destruct (children parent); [apply length_insert|reflexivity].
Qed.

Lemma push_child_path pa a heap i :
  path <$> (push_child pa a heap !! i) = path <$> (heap !! i).
Proof.
  unfold push_child. destruct (heap !! pa) as [parent|] eqn:Hpa; [|reflexivity].
  destruct (children parent); [|reflexivity].
  destruct (decide (pa = i)) as [->|Hne].
  - rewrite list_lookup_insert_eq by (eapply lookup_lt_Some; eassumption).
    rewrite Hpa. reflexivity.
  - rewrite list_lookup_insert_ne by assumption. reflexivity.
Qed.

Lemma attach_length containerPath fileTree a heap :
  length (attach containerPath fileTree a heap) = length heap.
Proof.
  unfold attach. destruct (heap !! a); [|reflexivity].
  destruct (fileTree !! _); [apply push_child_length|reflexivity].
Qed.

Lemma attach_path containerPath fileTree a heap i :
  path <$> (attach containerPath fileTree a heap !! i) = path <$> (heap !! i).
Proof.
  unfold attach. destruct (heap !! a); [|reflexivity].
  destruct (fileTree !! _); [apply push_child_path|reflexivity].
Qed.

Lemma add_to_tree_entries_ok containerPath st p d :
  tree_entries_ok st -> tree_entries_ok (add_to_tree containerPath st p d).
Proof.
  intros Hok q a Hq. unfold add_to_tree in *. cbn [fileTree heap] in *.
  assert (Hpath : path <$> ((heap st ++ [new_item containerPath p d]) !! a) = Some q).
  { destruct (decide (p = q)) as [->|Hne].
    - rewrite lookup_insert_eq in Hq. injection Hq as <-.
      rewrite list_lookup_middle by reflexivity. reflexivity.
    - rewrite lookup_insert_ne in Hq by assumption.
      destruct (Hok q a Hq) as (item & Hitem & Hp).
      rewrite lookup_app_l by (eapply lookup_lt_Some; eassumption).
      rewrite Hitem. cbn. rewrite Hp. reflexivity. }
  rewrite <- (attach_path containerPath (<[p:=length (heap st)]> (fileTree st))
                (length (heap st))) in Hpath.
  destruct (attach _ _ _ _ !! a) as [item|]; [|discriminate].
  exists item. split; [reflexivity|]. cbn in Hpath. congruence.
Qed.

Lemma tree_after_snoc containerPath classified p d :
  tree_after containerPath (classified ++ [(p, d)]) =
  add_to_tree containerPath (tree_after containerPath classified) p d.
Proof. unfold tree_after. rewrite fold_left_app. reflexivity. Qed.

Lemma tree_after_entries_ok containerPath classified :
  tree_entries_ok (tree_after containerPath classified).
Proof.
  induction classified as [|[p d] classified IH] using rev_ind.
  - intros q a Hq. cbn in Hq. apply lookup_singleton_Some in Hq as [<- <-].
    eexists. split; reflexivity.
  - rewrite tree_after_snoc. apply add_to_tree_entries_ok, IH.
Qed.

Lemma tree_after_listed containerPath classified q :
  q = containerPath \/ q ∈ classified.*1 ->
  is_Some (fileTree (tree_after containerPath classified) !! q).
Proof.
  induction classified as [|[p d] classified IH] using rev_ind; intros Hq.
  - destruct Hq as [->|Hq]; [|inversion Hq]. cbn. rewrite lookup_singleton_eq. eauto.
  - rewrite tree_after_snoc. unfold add_to_tree. cbn [fileTree].
    destruct (decide (p = q)) as [->|Hne].
    + rewrite lookup_insert_eq. eauto.
    + rewrite lookup_insert_ne by assumption. apply IH.
      destruct Hq as [Hq|Hq]; [left; exact Hq|right].
      rewrite fmap_app in Hq. apply elem_of_app in Hq as [Hq|Hq]; [exact Hq|].
      cbn in Hq. apply list_elem_of_singleton in Hq. congruence.
Qed.

(** ** C6: the forest of [getFileTree] *)

(** C6.  First, whenever the listing under [/root] leaves the paths
    [/root/a], [/root/a/b.txt], [/root/c] and the [stat]s classify the
    first and the last as directories and the middle one as a file,
    [getFileTree] returns a forest of exactly two top-level nodes, [a]
    before [c], where [a] has the one child [b.txt] and [c] has none.
    Second, in general: if the listed paths are sorted and the parent of
    every listed path is listed too (or is the starting directory), then
    at the moment the loop reaches a path [p], the lookup of the parent
    of [p] in [fileTree] finds an object that was made before the one for
    [p] and that carries the parent path. *)
Theorem getFileTree_forest_and_parents :
  (forall (E : Env) (containerId : string) (s : State) (output : string),
     exec_result E (trace s) (podman_exec_sh containerId (sh_find_tree "/root"))
       = Ok output ->
     listed_paths "/root" output = ["/root/a"; "/root/a/b.txt"; "/root/c"] ->
     stat_answers E containerId
       (trace s ++ [Exec (podman_exec_sh containerId (sh_find_tree "/root"))])
       ["/root/a"; "/root/a/b.txt"; "/root/c"] = [true; false; true] ->
     forest_of (snd (getFileTree E containerId "/root" s)) =
     [Node "a" "/root/a" directory
        (Some [Node "b.txt" "/root/a/b.txt" file None None]) None;
      Node "c" "/root/c" directory (Some []) None]) /\
  (forall (E : Env) (containerId containerPath : string) (s : State)
          (output : string) (pre post : list string) (p : string),
     Sorted String.le (listed_paths containerPath output) ->
     (forall q, q ∈ listed_paths containerPath output ->
        parent_key containerPath q = containerPath \/
        parent_key containerPath q ∈ listed_paths containerPath output) ->
     listed_paths containerPath output = pre ++ p :: post ->
     exists st,
       snd (getFileTree_loop E containerId containerPath pre
              (initial_tree containerPath) s) = Ok st /\
       exists pa parent,
         <[p := length (heap st)]> (fileTree st) !! parent_key containerPath p
           = Some pa /\
         (pa < length (heap st))%nat /\
         heap st !! pa = Some parent /\
         path parent = parent_key containerPath p).
Proof.
  split.
  - intros E containerId s output Hfind Hpaths Hstats.
    unfold getFileTree, bind at 1, execInContainer, execAsync. rewrite Hfind.
    unfold bind at 1. rewrite getFileTree_loop_run. cbn [trace usedPorts].
    rewrite Hpaths, Hstats. unfold ret. cbn [snd forest_of].
    vm_compute. reflexivity.
  - intros E containerId containerPath s output pre post p Hsorted Hclosed Hsplit.
    rewrite getFileTree_loop_run. cbn [snd]. eexists. split; [reflexivity|].
    set (classified := zip pre (stat_answers E containerId (trace s) pre)).
    fold (tree_after containerPath classified).
    assert (Hfst : classified.*1 = pre).
    { apply fst_zip. clear. generalize (trace s).
      induction pre as [|q pre IH]; intros tr; cbn; [lia|]. specialize (IH (tr ++ [Exec (stat_command containerId q)])). lia. }
    assert (Hp : p ∈ listed_paths containerPath output).
    { rewrite Hsplit. apply elem_of_app. right. left. }
    assert (Hne : p <> parent_key containerPath p).
    { unfold parent_key. destruct (truthy (substring_to_last "/" p)) eqn:Ht.
      - intros Heq. symmetry in Heq. revert Heq.
        apply (substring_to_last_before "/" p Ht).
      - apply list_elem_of_filter in Hp as [(_ & Hp) _]. exact Hp. }
    destruct (tree_after_listed containerPath classified
                (parent_key containerPath p)) as [pa Hpa].
    { rewrite Hfst. destruct (Hclosed p Hp) as [Hroot|Hin]; [left; exact Hroot|].
      rewrite Hsplit in Hsorted, Hin.
      apply (parent_listed_before containerPath pre post p Hsorted Hin). }
    destruct (tree_after_entries_ok containerPath classified _ _ Hpa)
      as (parent & Hparent & Hpath).
    exists pa, parent. rewrite lookup_insert_ne by exact Hne.
    split; [exact Hpa|]. split; [|split; assumption].
    eapply lookup_lt_Some. exact Hparent.
Qed.

Lemma listed_small_tree :
  listed_paths "/root" small_listing = ["/root/a"; "/root/a/b.txt"; "/root/c"].
Proof. vm_compute. reflexivity. Qed.

Lemma getFileTree_forest_and_parents_witness :
  forest_of (snd (getFileTree env_small_tree "c1" "/root" fresh)) =
  [Node "a" "/root/a" directory
     (Some [Node "b.txt" "/root/a/b.txt" file None None]) None;
   Node "c" "/root/c" directory (Some []) None] /\
  exists st,
    snd (getFileTree_loop env_small_tree "c1" "/root" ["/root/a"]
           (initial_tree "/root") fresh) = Ok st /\
    exists pa parent,
      <["/root/a/b.txt" := length (heap st)]> (fileTree st)
        !! parent_key "/root" "/root/a/b.txt" = Some pa /\
      (pa < length (heap st))%nat /\
      heap st !! pa = Some parent /\
      path parent = parent_key "/root" "/root/a/b.txt".
Proof.
  destruct getFileTree_forest_and_parents as [Hforest Hparents]. split.
  - apply (Hforest env_small_tree "c1" fresh small_listing).
    + reflexivity.
    + exact listed_small_tree.
    + vm_compute. reflexivity.
  - apply (Hparents env_small_tree "c1" "/root" fresh small_listing
             ["/root/a"] ["/root/c"] "/root/a/b.txt").
    + rewrite listed_small_tree.
      repeat first [apply Sorted_nil | apply HdRel_nil
                   | apply Sorted_cons | apply HdRel_cons].
      all: vm_compute; exact I.
    + rewrite listed_small_tree. intros q Hq.
      apply elem_of_cons in Hq as [->|Hq]; [left; vm_compute; reflexivity|].
      apply elem_of_cons in Hq as [->|Hq].
      * right. replace (parent_key "/root" "/root/a/b.txt") with "/root/a"
          by (vm_compute; reflexivity).
        left.
      * apply list_elem_of_singleton in Hq as ->. left. vm_compute. reflexivity.
    + exact listed_small_tree.
Defined.

(** * Further properties of the services *)

(** ** The allocator *)

(** X1.  [findAvailablePort] is first fit: when it returns a port, every
    candidate of the window below that port was turned down, because it
    was reserved or labeled or because its probe found a listener. *)
Theorem findAvailablePort_first_fit (E : Env) (startPort : Z) (s : State) :
  let '(s', r) := findAvailablePort E startPort s in
  match r with
  | Ok port =>
      exists new,
        trace s' = trace s ++ Exec podman_ps_assignedPort :: new /\
        forall z, startPort <= z < port ->
          rejected E (allUsedPorts_at E s)
            (trace s ++ [Exec podman_ps_assignedPort]) new z
  | Throw _ => True
  end.
Proof.
  rewrite findAvailablePort_run.
  pose proof (findAvailablePort_loop_spec E (allUsedPorts_at E s) 1000 startPort
                (with_event s (Exec podman_ps_assignedPort))) as H.
  destruct (findAvailablePort_loop E (allUsedPorts_at E s) 1000 startPort
              (with_event s (Exec podman_ps_assignedPort))) as [s' [port|m]];
    [|exact I].
  destruct H as (new & Htr & _ & _ & _ & _ & _ & Hrej).
  exists new. cbn in Htr. split; [rewrite Htr, <- app_assoc; reflexivity|].
  exact Hrej.
Qed.

(** X2.  [getAllAssignedPorts] never throws and issues the one listing
    command.  When the listing fails the result is empty; otherwise a
    port is in the result exactly if it is what [parseInt] reads on some
    line of the trimmed output (empty lines, [<no value>] and other
    lines that are no number contribute nothing). *)
Theorem getAllAssignedPorts_lines (E : Env) (s : State) :
  let '(s', r) := getAllAssignedPorts E s in
  s' = with_event s (Exec podman_ps_assignedPort) /\
  exists ports, r = Ok ports /\
    match exec_result E (trace s) podman_ps_assignedPort with
    | Throw _ => ports = []
    | Ok stdout =>
        forall z, z ∈ ports <->
          exists line, line ∈ split "010" (trim stdout) /\ parseInt line = Num z
    end.
Proof.
  rewrite getAllAssignedPorts_run. split; [reflexivity|].
  eexists. split; [reflexivity|].
  destruct (exec_result E (trace s) podman_ps_assignedPort) as [stdout|m];
    [|reflexivity].
  intros z. cbn [labeled_ports]. split.
  - unfold assignedPorts_of_stdout. intros Hz.
    apply list_elem_of_omap in Hz as (line & Hline & Hparse).
    apply list_elem_of_filter in Hline as [_ Hline].
    exists line. split; assumption.
  - intros (line & Hline & Hparse).
    eapply assignedPorts_of_stdout_complete; eassumption.
Qed.

(** X3.  [releasePort] undoes an allocation: releasing the port that
    [findAvailablePort] has just returned brings [usedPorts] back to what
    it was before the call.  Releasing is idempotent, and releasing a port
    that is not reserved changes nothing in [usedPorts]. *)
Theorem releasePort_undoes_allocation (E : Env) (startPort : Z) (s s1 : State)
    (port : Z) :
  findAvailablePort E startPort s = (s1, Ok port) ->
  usedPorts (fst (releasePort (Num port) s1)) = usedPorts s /\
  (forall (p : number) (st : State),
     usedPorts (fst (releasePort p (fst (releasePort p st)))) =
     usedPorts (fst (releasePort p st))) /\
  (forall (p : number) (st : State),
     p ∉ usedPorts st -> usedPorts (fst (releasePort p st)) = usedPorts st).
Proof.
  intros Hcall.
  pose proof (findAvailablePort_effect E startPort s) as H. rewrite Hcall in H.
  destruct H as (_ & _ & _ & Hu & Hnot & _).
  rewrite elem_of_allUsedPorts_at in Hnot. cbn [releasePort delete_port fst usedPorts].
  split; [|split].
  - rewrite Hu. apply set_eq. intros x.
    rewrite elem_of_difference, elem_of_union, !elem_of_singleton.
    split; [tauto|]. intros Hx. split; [tauto|]. intros ->. tauto.
  - intros p st. apply set_eq. intros x. rewrite !elem_of_difference. tauto.
  - intros p st Hp. apply set_eq. intros x.
    rewrite elem_of_difference, elem_of_singleton.
    split; [tauto|]. intros Hx. split; [exact Hx|]. intros ->. tauto.
Qed.

Lemma releasePort_undoes_allocation_witness :
  findAvailablePort env_quiet 8000 fresh =
    (fst (findAvailablePort env_quiet 8000 fresh), Ok 8000) /\
  usedPorts (fst (releasePort (Num 8000)
                    (fst (findAvailablePort env_quiet 8000 fresh)))) =
  usedPorts fresh.
Proof.
  assert (H : findAvailablePort env_quiet 8000 fresh =
              (fst (findAvailablePort env_quiet 8000 fresh), Ok 8000))
    by (vm_compute; reflexivity).
  split; [exact H|].
  exact (proj1 (releasePort_undoes_allocation env_quiet 8000 fresh _ 8000 H)).
Defined.






(** ** The lifecycle operations *)

(** X6.  [stopContainer] releases the port of the container before it
    asks the runtime to stop it, and the port stays released when the
    stop fails: in both cases [usedPorts] ends without the port, the
    trace shows inspection, reservation, release and stop in this order,
    and a failure of the stop comes back wrapped as
    [Failed to stop container: ...]. *)
Theorem stopContainer_releases_first (E : Env) (containerId : string) (s : State)
    (info : ContainerInfo) (src : string) :
  inspect_result E (trace s) containerId = Ok info ->
  port_source info src ->
  let port := parseInt src in
  let issued := [Exec (podman_inspect containerId); usedPorts_add port;
                 usedPorts_delete port; Exec (podman_stop containerId)] in
  let '(s', r) := stopContainer E containerId s in
  usedPorts s' = usedPorts s ∖ {[port]} /\
  match exec_result E (trace s ++ [Exec (podman_inspect containerId);
                                   usedPorts_add port; usedPorts_delete port])
          (podman_stop containerId) with
  | Ok _ =>
      r = Ok tt /\
      trace s' = trace s ++ issued ++
                 [console_log ["Stopped container: " +:+ containerId +:+
                               ", released port: " +:+ String_of port]]
  | Throw message =>
      r = Throw ("Failed to stop container: " +:+ message) /\
      trace s' = trace s ++ issued
  end.
Proof.
  intros Hins Hsrc port issued. subst issued.
  unfold stopContainer, try_catch, bind at 1, inspectContainer. rewrite Hins.
  unfold bind at 1. unfold bind at 1.
  rewrite (getPortFromContainer_run info src _ Hsrc). fold port.
  run_step. norm_trace.
  destruct (exec_result E _ (podman_stop containerId)) as [out|m]; norm_trace.
  - split; [apply release_after_add|]. split; reflexivity.
  - split; [apply release_after_add|]. split; reflexivity.
Qed.

Lemma stopContainer_releases_first_witness :
  snd (stopContainer env_stop_fails "c1"
         {| usedPorts := {[Num 8000]}; trace := [] |}) =
    Throw "Failed to stop container: Command failed: podman stop" /\
  Num 8000 ∉ usedPorts (fst (stopContainer env_stop_fails "c1"
                               {| usedPorts := {[Num 8000]}; trace := [] |})).
Proof.
  pose proof (stopContainer_releases_first env_stop_fails "c1"
                {| usedPorts := {[Num 8000]}; trace := [] |}
                (info_on_8000 true) "8000" eq_refl
                (or_introl (conj eq_refl eq_refl))) as H.
  cbv zeta in H.
  destruct (stopContainer env_stop_fails "c1" _) as [s' r].
  destruct H as (Hu & H). cbn [fst snd]. split.
  - vm_compute in H. destruct H as [H _]. exact H.
  - rewrite Hu. intros Hin. apply elem_of_difference in Hin as [_ Hin].
    apply Hin. apply elem_of_singleton. reflexivity.
Defined.

(** X7.  A container that is reported with neither a host port binding
    nor an [assignedPort] label cannot be stopped or deleted, and cannot
    be started when it runs: each operation fails with its wrapped
    [Could not determine container port] error right after the
    inspection, so no stop, remove or start is issued and [usedPorts] is
    unchanged. *)
Theorem port_undeterminable (E : Env) (containerId : string) (s : State)
    (info : ContainerInfo) :
  inspect_result E (trace s) containerId = Ok info ->
  truthy_opt (HostPort info) = false ->
  truthy_opt (assignedPortLabel info) = false ->
  stopContainer E containerId s =
    (with_event s (Exec (podman_inspect containerId)),
     Throw "Failed to stop container: Could not determine container port") /\
  deleteContainer E containerId s =
    (with_event s (Exec (podman_inspect containerId)),
     Throw "Failed to delete container: Could not determine container port") /\
  (Running info = true ->
   startContainer E containerId s =
     (with_event s (Exec (podman_inspect containerId)),
      Throw "Failed to start container: Could not determine container port")).
Proof.
  intros Hins Hhp Hl.
  assert (Hport : forall st, getPortFromContainer info st =
                    (st, Throw "Could not determine container port")).
  { intros st. unfold getPortFromContainer. rewrite Hhp, Hl. reflexivity. }
  split; [|split].
  - unfold stopContainer, try_catch, bind at 1, inspectContainer. rewrite Hins.
    unfold bind at 1. unfold bind at 1. rewrite Hport. reflexivity.
  - unfold deleteContainer, try_catch, bind at 1, inspectContainer. rewrite Hins.
    unfold bind at 1. unfold bind at 1. rewrite Hport. reflexivity.
  - intros Hrun.
    unfold startContainer, try_catch, bind at 1, inspectContainer.
    rewrite Hins, Hrun, Hport. reflexivity.
Qed.

Lemma port_undeterminable_witness :
  deleteContainer (env_without_port true) "c1" fresh =
    (with_event fresh (Exec (podman_inspect "c1")),
     Throw "Failed to delete container: Could not determine container port").
Proof.
  exact (proj1 (proj2 (port_undeterminable (env_without_port true) "c1" fresh
                         (info_without_port true) eq_refl eq_refl eq_refl))).
Defined.

(** X8.  When the inspection fails, [startContainer], [stopContainer]
    and [deleteContainer] fail with the message of the inspection behind
    their own prefix; nothing but the inspection was issued and
    [usedPorts] is unchanged. *)
Theorem inspect_failure_is_wrapped (E : Env) (containerId : string) (s : State)
    (message : string) :
  inspect_result E (trace s) containerId = Throw message ->
  startContainer E containerId s =
    (with_event s (Exec (podman_inspect containerId)),
     Throw ("Failed to start container: " +:+ message)) /\
  stopContainer E containerId s =
    (with_event s (Exec (podman_inspect containerId)),
     Throw ("Failed to stop container: " +:+ message)) /\
  deleteContainer E containerId s =
    (with_event s (Exec (podman_inspect containerId)),
     Throw ("Failed to delete container: " +:+ message)).
Proof.
  intros Hins. split; [|split].
  - unfold startContainer, try_catch, bind at 1, inspectContainer.
    rewrite Hins. reflexivity.
  - unfold stopContainer, try_catch, bind at 1, inspectContainer.
    rewrite Hins. reflexivity.
  - unfold deleteContainer, try_catch, bind at 1, inspectContainer.
    rewrite Hins. reflexivity.
Qed.

Lemma inspect_failure_is_wrapped_witness :
  startContainer env_down "c1" fresh =
    (with_event fresh (Exec (podman_inspect "c1")),
     Throw "Failed to start container: Command failed: podman inspect").
Proof.
  exact (proj1 (inspect_failure_is_wrapped env_down "c1" fresh
                  "Command failed: podman inspect" eq_refl)).
Defined.

(** X9.  A stopped container without an [assignedPort] label is started
    on a freshly allocated port: no recorded port is probed, the
    allocator is called right after the inspection, and the call goes on
    to the runtime start with the port the allocator returned; if the
    allocator finds no port its error comes back wrapped.  The port
    conflict error cannot arise. *)
Theorem startContainer_stopped_unlabeled (E : Env) (containerId : string)
    (s : State) (info : ContainerInfo) :
  inspect_result E (trace s) containerId = Ok info ->
  Running info = false ->
  truthy_opt (assignedPortLabel info) = false ->
  let s1 := with_event s (Exec (podman_inspect containerId)) in
  startContainer E containerId s =
  match findAvailablePort E BASE_PORT s1 with
  | (s2, Ok Q) => start_settled E containerId (Num Q) s2
  | (s2, Throw message) =>
      (s2, Throw ("Failed to start container: " +:+ message))
  end.
Proof.
  intros Hins Hrun Hl s1. subst s1.
  unfold startContainer, try_catch, bind at 1, inspectContainer.
  rewrite Hins, Hrun, Hl. unfold bind. unfold ret at 1. unfold with_event.
  destruct (findAvailablePort E BASE_PORT _) as [s2 [Q|m]]; [|reflexivity].
  cbn [andb]. unfold ret, execAsync, emit, start_settled, with_event. cbn.
  destruct (exec_result E _ (podman_start containerId)); reflexivity.
Qed.

Lemma startContainer_stopped_unlabeled_witness :
  snd (startContainer (env_without_port false) "c1" fresh) = Ok (Num 8000).
Proof.
  rewrite (startContainer_stopped_unlabeled (env_without_port false) "c1" fresh
             (info_without_port false) eq_refl eq_refl eq_refl).
  vm_compute. reflexivity.
Defined.

(** ** [writeFile] *)

Lemma answered_commands E new :
  forall tr, map fst (answered E tr new) = commands new.
Proof.
  induction new as [|e new IH]; intros tr; [reflexivity|].
  destruct e; cbn; rewrite ?IH; reflexivity.
Qed.

Ltac pick_script :=
  first [ solve [repeat eapply ex_intro; split; reflexivity]
        | left; solve [repeat eapply ex_intro; split; reflexivity]
        | right; pick_script ].

Ltac norm_goal :=
  cbn [trace usedPorts fst snd];
  repeat rewrite <- app_assoc; cbn [app].

(** Case analysis on the answer to the next command [c] of the run. *)
Ltac case_answer c :=
  match goal with
  | |- context [exec_result ?E ?tr c] =>
      let H := fresh "Hanswer" in
      let a := fresh "a" in
      let m := fresh "message" in
      destruct (exec_result E tr c) as [a|m] eqn:H; norm_goal
  end.

(** [answered] step by step, with the trace kept as one list behind
    its starting point. *)
Lemma answered_nil E tr : answered E tr [] = [].
Proof. reflexivity. Qed.

Lemma answered_exec E tr0 done c rest :
  answered E (tr0 ++ done) (Exec c :: rest) =
  (c, exec_result E (tr0 ++ done) c) ::
  answered E (tr0 ++ (done ++ [Exec c])) rest.
Proof. cbn. rewrite <- app_assoc. reflexivity. Qed.

Lemma answered_other E tr0 done e rest :
  (forall c, e <> Exec c) ->
  answered E (tr0 ++ done) (e :: rest) =
  answered E (tr0 ++ (done ++ [e])) rest.
Proof.
  intros He. destruct e; cbn; rewrite <- app_assoc; try reflexivity.
  exfalso. eapply He. reflexivity.
Qed.

Ltac run_answered :=
  match goal with
  | |- context [answered ?E ?tr ?new] =>
      let H := fresh in
      assert (H : answered E tr new = answered E (tr ++ []) new)
        by (rewrite app_nil_r; reflexivity);
      rewrite H; clear H
  end;
  repeat first
    [ rewrite answered_exec; cbn [app]
    | rewrite answered_other by (intros ?; discriminate); cbn [app]
    | rewrite answered_nil ].

Ltac finish_run :=
  split; [reflexivity|];
  eexists; split; [reflexivity|];
  run_answered;
  repeat match goal with
         | H : exec_result _ _ _ = _ |- _ => rewrite H; clear H
         end;
  pick_script.

(** The runs of [writeFile]: its commands with their answers form one
    of seven scripts, which fixes the result. *)
Lemma writeFile_script (E : Env) (containerId filePath content : string)
    (s : State) :
  let tempFile := tempFile_of E filePath content s in
  let target := getAbsolutePath filePath in
  let w := fs_writeFile tempFile content in
  let cp := podman_cp tempFile containerId target in
  let mk := podman_exec_mkdir containerId (substring_to_last "/" target) in
  let hd := podman_exec_head containerId target in
  let ul := fs_unlink tempFile in
  let '(s', r) := writeFile E containerId filePath content s in
  usedPorts s' = usedPorts s /\
  exists new, trace s' = trace s ++ new /\
    ((exists m a, answered E (trace s) new = [(w, Throw m); (ul, a)] /\
                  r = Throw m) \/
     (exists o1 o2 a o3,
        answered E (trace s) new =
          [(w, Ok o1); (cp, Ok o2); (hd, a); (ul, Ok o3)] /\ r = Ok tt) \/
     (exists o1 o2 a m a',
        answered E (trace s) new =
          [(w, Ok o1); (cp, Ok o2); (hd, a); (ul, Throw m); (ul, a')] /\
        r = Throw m) \/
     (exists o1 e m a,
        answered E (trace s) new =
          [(w, Ok o1); (cp, Throw e); (mk, Throw m); (ul, a)] /\ r = Throw m) \/
     (exists o1 e o2 m a,
        answered E (trace s) new =
          [(w, Ok o1); (cp, Throw e); (mk, Ok o2); (cp, Throw m); (ul, a)] /\
        r = Throw m) \/
     (exists o1 e o2 o3 a o4,
        answered E (trace s) new =
          [(w, Ok o1); (cp, Throw e); (mk, Ok o2); (cp, Ok o3); (hd, a);
           (ul, Ok o4)] /\ r = Ok tt) \/
     (exists o1 e o2 o3 a m a',
        answered E (trace s) new =
          [(w, Ok o1); (cp, Throw e); (mk, Ok o2); (cp, Ok o3); (hd, a);
           (ul, Throw m); (ul, a')] /\ r = Throw m)).
Proof.
  intros tempFile target w cp mk hd ul.
  unfold writeFile, get_uuidv4, fsPromises, execAsync_both, log_if_truthy.
  run_step. fold (tempFile_of E filePath content s). fold tempFile.
  fold target. norm_goal.
  case_answer (fs_writeFile tempFile content).
  2:{ case_answer (fs_unlink tempFile); finish_run. }
  case_answer (podman_cp tempFile containerId target).
  - destruct (truthy (exec_stderr E _ _)); destruct (truthy a0); norm_goal;
      (case_answer (podman_exec_head containerId target);
       (case_answer (fs_unlink tempFile);
        [finish_run | case_answer (fs_unlink tempFile); finish_run])).
  - case_answer (podman_exec_mkdir containerId (substring_to_last "/" target)).
    2:{ case_answer (fs_unlink tempFile); finish_run. }
    case_answer (podman_cp tempFile containerId target).
    2:{ case_answer (fs_unlink tempFile); finish_run. }
    destruct (truthy (exec_stderr E _ _)); destruct (truthy a1); norm_goal;
      (case_answer (podman_exec_head containerId target);
       (case_answer (fs_unlink tempFile);
        [finish_run | case_answer (fs_unlink tempFile); finish_run])).
Qed.

Ltac by_script H :=
  destruct H as [H|[H|[H|[H|[H|[H|H]]]]]];
  [ destruct H as (m & a & Hs & Hr)
  | destruct H as (o1 & o2 & a & o3 & Hs & Hr)
  | destruct H as (o1 & o2 & a & m & a' & Hs & Hr)
  | destruct H as (o1 & e & m & a & Hs & Hr)
  | destruct H as (o1 & e & o2 & m & a & Hs & Hr)
  | destruct H as (o1 & e & o2 & o3 & a & o4 & Hs & Hr)
  | destruct H as (o1 & e & o2 & o3 & a & m & a' & Hs & Hr) ].

(** X10.  [writeFile] always cleans up: whatever the commands answer,
    the first thing it asks of the system is to write the temporary file
    and the last thing is to unlink that same file.  It never touches
    [usedPorts]. *)
Theorem writeFile_unlinks_last (E : Env) (containerId filePath content : string)
    (s : State) :
  let tempFile := tempFile_of E filePath content s in
  let '(s', r) := writeFile E containerId filePath content s in
  usedPorts s' = usedPorts s /\
  exists new, trace s' = trace s ++ new /\
    head (commands new) = Some (fs_writeFile tempFile content) /\
    last (commands new) = Some (fs_unlink tempFile).
Proof.
  intros tempFile.
  pose proof (writeFile_script E containerId filePath content s) as H.
  cbv zeta in H. fold tempFile in H.
  destruct (writeFile E containerId filePath content s) as [s' r].
  destruct H as (Hu & new & Htr & H). split; [exact Hu|].
  exists new. split; [exact Htr|].
  rewrite <- (answered_commands E new (trace s)).
  by_script H; rewrite Hs; split; reflexivity.
Qed.

(** X11.  [writeFile] succeeds exactly when the temporary file was
    written, a copy into the container went through (the first one or the
    retry) and no unlink failed.  The answer to the verification read has
    no part in it: a failed verification does not fail the write. *)
Theorem writeFile_outcome (E : Env) (containerId filePath content : string)
    (s : State) :
  let tempFile := tempFile_of E filePath content s in
  let target := getAbsolutePath filePath in
  let '(s', r) := writeFile E containerId filePath content s in
  exists new, trace s' = trace s ++ new /\
    (r = Ok tt <->
     (exists o, (fs_writeFile tempFile content, Ok o) ∈ answered E (trace s) new) /\
     (exists o, (podman_cp tempFile containerId target, Ok o)
                  ∈ answered E (trace s) new) /\
     (forall m, (fs_unlink tempFile, Throw m) ∉ answered E (trace s) new)).
Proof.
  intros tempFile target.
  pose proof (writeFile_script E containerId filePath content s) as H.
  cbv zeta in H. fold tempFile in H. fold target in H.
  destruct (writeFile E containerId filePath content s) as [s' r].
  destruct H as (_ & new & Htr & H). exists new. split; [exact Htr|].
  by_script H; rewrite Hs, Hr; clear Hs Hr.
  - split; [discriminate|]. intros ((o & Hin) & _). not_in_explicit Hin.
  - split; [intros _|reflexivity]. split; [|split].
    + exists o1. left.
    + exists o2. right. left.
    + intros m Hin. not_in_explicit Hin.
  - split; [discriminate|]. intros (_ & _ & Hno). exfalso.
    apply (Hno m). right. right. right. left.
  - split; [discriminate|]. intros (_ & (o & Hin) & _). not_in_explicit Hin.
  - split; [discriminate|]. intros (_ & (o & Hin) & _). not_in_explicit Hin.
  - split; [intros _|reflexivity]. split; [|split].
    + exists o1. left.
    + exists o3. right. right. right. left.
    + intros m Hin. not_in_explicit Hin.
  - split; [discriminate|]. intros (_ & _ & Hno). exfalso.
    apply (Hno m). do 5 right. left.
Qed.

(** X12.  [writeFile] copies at most twice.  Its commands form one of
    seven sequences; the directory is made only after the first copy was
    rejected, and the second copy is issued only after the directory was
    made.  The thrown error, if any, is the rejection of the failed step,
    never that of the verification or of the unlink in the handler. *)
Theorem writeFile_retries_once (E : Env) (containerId filePath content : string)
    (s : State) :
  let tempFile := tempFile_of E filePath content s in
  let target := getAbsolutePath filePath in
  let w := fs_writeFile tempFile content in
  let cp := podman_cp tempFile containerId target in
  let mk := podman_exec_mkdir containerId (substring_to_last "/" target) in
  let hd := podman_exec_head containerId target in
  let ul := fs_unlink tempFile in
  let '(s', r) := writeFile E containerId filePath content s in
  exists new, trace s' = trace s ++ new /\
    commands new ∈ [[w; ul]; [w; cp; hd; ul]; [w; cp; hd; ul; ul];
                    [w; cp; mk; ul]; [w; cp; mk; cp; ul];
                    [w; cp; mk; cp; hd; ul]; [w; cp; mk; cp; hd; ul; ul]] /\
    (mk ∈ commands new ->
     exists e, answered E (trace s) new !! 1%nat = Some (cp, Throw e)) /\
    (forall a, answered E (trace s) new !! 3%nat = Some (cp, a) ->
       exists o, answered E (trace s) new !! 2%nat = Some (mk, Ok o)) /\
    (forall m, r = Throw m ->
       exists i c, answered E (trace s) new !! i = Some (c, Throw m) /\
         c <> hd /\ (c = ul -> i = 3%nat \/ i = 5%nat)).
Proof.
  intros tempFile target w cp mk hd ul.
  pose proof (writeFile_script E containerId filePath content s) as H.
  cbv zeta in H. fold tempFile in H. fold target in H.
  fold w in H. fold cp in H. fold mk in H. fold hd in H. fold ul in H.
  destruct (writeFile E containerId filePath content s) as [s' r].
  destruct H as (_ & new & Htr & H). exists new. split; [exact Htr|].
  rewrite <- (answered_commands E new (trace s)).
  by_script H; rewrite Hs, Hr; clear Hs Hr; cbn [map fst].
  - split; [left|]. split; [intros Hin; not_in_explicit Hin|].
    split; [intros ? [=]|]. intros ? [= <-]. exists 0%nat, w.
    split; [reflexivity|]. split; [discriminate|discriminate].
  - split; [right; left|]. split; [intros Hin; not_in_explicit Hin|].
    split; [intros ? [=]|]. intros ? [=].
  - split; [do 2 right; left|]. split; [intros Hin; not_in_explicit Hin|].
    split; [intros ? [=]|]. intros ? [= <-]. exists 3%nat, ul.
    split; [reflexivity|]. split; [discriminate|]. intros _. left. reflexivity.
  - split; [do 3 right; left|]. split; [intros _; eexists; reflexivity|].
    split; [intros ? [=]|]. intros ? [= <-]. exists 2%nat, mk.
    split; [reflexivity|]. split; [discriminate|discriminate].
  - split; [do 4 right; left|]. split; [intros _; eexists; reflexivity|].
    split; [intros ? _; eexists; reflexivity|]. intros ? [= <-].
    exists 3%nat, cp. split; [reflexivity|]. split; [discriminate|discriminate].
  - split; [do 5 right; left|]. split; [intros _; eexists; reflexivity|].
    split; [intros ? _; eexists; reflexivity|]. intros ? [=].
  - split; [do 6 right; left|]. split; [intros _; eexists; reflexivity|].
    split; [intros ? _; eexists; reflexivity|]. intros ? [= <-].
    exists 5%nat, ul. split; [reflexivity|]. split; [discriminate|].
    intros _. right. reflexivity.
Qed.

(** ** Names and paths *)

Lemma startsWith_app p s : startsWith p (p +:+ s) = true.
Proof.
  induction p as [|a p IH]; [reflexivity|].
  change (String a p +:+ s) with (String a (p +:+ s)).
  cbn [startsWith]. rewrite Ascii.eqb_refl. exact IH.
Qed.

Lemma includes_app p s : includes p (p +:+ s) = true.
Proof.
  pose proof (startsWith_app p s) as H.
  destruct (p +:+ s); cbn [includes]; rewrite H; reflexivity.
Qed.

Lemma drop_chars_app p s : drop_chars (String.length p) (p +:+ s) = s.
Proof. induction p as [|a p IH]; [reflexivity|exact IH]. Qed.

(** X13.  [cleanupImage] never throws: it issues the forced removal of
    the image [dec-nextjs-<containerId>] and nothing else, and swallows a
    failure of that command.  The name it removes is one that the naming
    check of [deleteContainer] accepts. *)
Theorem cleanupImage_never_throws (E : Env) (containerId : string) (s : State) :
  let imageName := "dec-nextjs-" +:+ containerId in
  let '(s', r) := cleanupImage E containerId s in
  r = Ok tt /\
  usedPorts s' = usedPorts s /\
  (exists new, trace s' = trace s ++ new /\ commands new = [podman_rmi imageName]) /\
  includes "dec-nextjs-" imageName = true.
Proof.
  intros imageName. unfold cleanupImage. fold imageName. run_step.
  destruct (exec_result E (trace s) (podman_rmi imageName)); cbn.
  - split; [reflexivity|]. split; [reflexivity|]. split; [|apply includes_app].
    eexists. rewrite <- app_assoc. split; reflexivity.
  - split; [reflexivity|]. split; [reflexivity|]. split; [|apply includes_app].
    eexists. split; reflexivity.
Qed.

(** X14.  [getAbsolutePath] always returns a path that starts with a
    slash: an absolute path is returned as it is, any other path is put
    under [/app/my-nextjs-app/].  Resolving twice is the same as
    resolving once. *)
Theorem getAbsolutePath_absolute (filePath : string) :
  startsWith "/" (getAbsolutePath filePath) = true /\
  getAbsolutePath (getAbsolutePath filePath) = getAbsolutePath filePath /\
  (startsWith "/" filePath = true -> getAbsolutePath filePath = filePath) /\
  (startsWith "/" filePath = false ->
   getAbsolutePath filePath = "/app/my-nextjs-app/" +:+ filePath).
Proof.
  assert (Habs : startsWith "/" (getAbsolutePath filePath) = true).
  { unfold getAbsolutePath. destruct (startsWith "/" filePath) eqn:H; [exact H|].
    reflexivity. }
  split; [exact Habs|]. split; [|split].
  - unfold getAbsolutePath at 1. rewrite Habs. reflexivity.
  - intros H. unfold getAbsolutePath. rewrite H. reflexivity.
  - intros H. unfold getAbsolutePath. rewrite H. reflexivity.
Qed.

Lemma getAbsolutePath_absolute_witness :
  getAbsolutePath "/etc/hosts" = "/etc/hosts" /\
  getAbsolutePath "src/app/page.tsx" = "/app/my-nextjs-app/src/app/page.tsx".
Proof.
  split.
  - apply (proj1 (proj2 (proj2 (getAbsolutePath_absolute "/etc/hosts")))).
    reflexivity.
  - apply (proj2 (proj2 (proj2 (getAbsolutePath_absolute "src/app/page.tsx")))).
    reflexivity.
Defined.

(** ** The store of [getFileTree] *)

Lemma push_child_without_children pa a objects :
  without_children <$> push_child pa a objects = without_children <$> objects.
Proof.
  unfold push_child. destruct (objects !! pa) as [parent|] eqn:Hpa; [|reflexivity].
  destruct (children parent) as [cs|] eqn:Hcs; [|reflexivity].
  rewrite list_fmap_insert. apply list_insert_id.
  rewrite list_lookup_fmap, Hpa. cbn. unfold without_children. cbn.
  rewrite Hcs. reflexivity.
Qed.

Lemma attach_without_children containerPath fileTree a objects :
  without_children <$> attach containerPath fileTree a objects =
  without_children <$> objects.
Proof.
  unfold attach. destruct (objects !! a); [|reflexivity].
  destruct (fileTree !! _); [apply push_child_without_children|reflexivity].
Qed.

Lemma without_children_new_item containerPath p d :
  without_children (new_item containerPath p d) = new_item containerPath p d.
Proof. destruct d; reflexivity. Qed.

(** The store after the loop: the root, then one item per path in the
    order of the listing, each as it was made; only [children] arrays
    have grown. *)
Lemma tree_after_store containerPath classified :
  without_children <$> heap (tree_after containerPath classified) =
  root_item containerPath ::
  ((fun '(p, d) => new_item containerPath p d) <$> classified).
Proof.
  induction classified as [|[p d] classified IH] using rev_ind; [reflexivity|].
  rewrite tree_after_snoc. unfold add_to_tree. cbn [heap].
  rewrite attach_without_children, !fmap_app, IH. cbn.
  rewrite without_children_new_item. reflexivity.
Qed.

Lemma stat_answers_length E containerId paths :
  forall tr, length (stat_answers E containerId tr paths) = length paths.
Proof.
  induction paths as [|p paths IH]; intros tr; cbn; [reflexivity|].
  rewrite IH. reflexivity.
Qed.

(** The run of [getFileTree] after a listing that succeeded. *)
Lemma getFileTree_run E containerId containerPath s output :
  exec_result E (trace s) (podman_exec_sh containerId (sh_find_tree containerPath))
    = Ok output ->
  let find := Exec (podman_exec_sh containerId (sh_find_tree containerPath)) in
  let paths := listed_paths containerPath output in
  let st := tree_after containerPath
              (zip paths (stat_answers E containerId (trace s ++ [find]) paths)) in
  getFileTree E containerId containerPath s =
  ({| usedPorts := usedPorts s;
      trace := trace s ++ find ::
               map (fun p => Exec (stat_command containerId p)) paths |},
   Ok (heap st, root_children containerPath st)).
Proof.
  intros Hfind find paths st.
  unfold getFileTree, bind at 1, execInContainer, execAsync. rewrite Hfind.
  unfold bind at 1. rewrite getFileTree_loop_run. cbn [trace usedPorts].
  unfold ret. rewrite <- app_assoc. reflexivity.
Qed.

(** X15.  [getFileTree] fails only if the listing fails, and then with
    the error of the listing.  Otherwise it issues one [stat] per listed
    path, in the order of the listing, and returns a store that holds
    the root object followed by exactly one object per listed path, in
    that order and with that path. *)
Theorem getFileTree_one_object_per_path (E : Env) (containerId containerPath : string)
    (s : State) :
  let find := podman_exec_sh containerId (sh_find_tree containerPath) in
  match exec_result E (trace s) find with
  | Throw message =>
      getFileTree E containerId containerPath s =
      (with_event s (Exec find), Throw message)
  | Ok output =>
      let paths := listed_paths containerPath output in
      exists objects top,
        getFileTree E containerId containerPath s =
        ({| usedPorts := usedPorts s;
            trace := trace s ++ Exec find ::
                     map (fun p => Exec (stat_command containerId p)) paths |},
         Ok (objects, top)) /\
        path <$> objects = containerPath :: paths
  end.
Proof.
  intros find.
  destruct (exec_result E (trace s) find) as [output|message] eqn:Hfind.
  - intros paths.
    set (classified :=
           zip paths (stat_answers E containerId (trace s ++ [Exec find]) paths)).
    exists (heap (tree_after containerPath classified)),
           (root_children containerPath (tree_after containerPath classified)).
    split; [apply (getFileTree_run E containerId containerPath s output Hfind)|].
    assert (Hpath : forall l : list FileItem,
               path <$> l = path <$> (without_children <$> l)).
    { intros l. rewrite <- list_fmap_compose. reflexivity. }
    rewrite Hpath, tree_after_store. cbn. f_equal.
    transitivity (classified.*1).
    + rewrite <- list_fmap_compose. apply list_fmap_ext.
      intros j [q d] _. reflexivity.
    + apply fst_zip. rewrite stat_answers_length. reflexivity.
  - unfold getFileTree, bind, execInContainer, execAsync. fold find.
    rewrite Hfind. reflexivity.
Qed.

Lemma stat_answers_lookup E containerId paths :
  forall tr i p,
    paths !! i = Some p ->
    stat_answers E containerId tr paths !! i =
    Some (is_directory
            (exec_result E
               (tr ++ map (fun q => Exec (stat_command containerId q))
                        (list.take i paths))
               (stat_command containerId p))).
Proof.
  induction paths as [|q paths IH]; intros tr i p Hi; [discriminate|].
  destruct i as [|i]; cbn in *.
  - injection Hi as ->. rewrite app_nil_r. reflexivity.
  - rewrite (IH _ i p Hi). rewrite <- app_assoc. reflexivity.
Qed.

Lemma without_children_file item containerPath p :
  without_children item = new_item containerPath p false ->
  item = new_item containerPath p false.
Proof.
  destruct item as [n pa ty [cs|] co]; unfold without_children; cbn;
    intros H; [discriminate|exact H].
Qed.

(** ** The [children] arrays of [getFileTree] *)

Lemma parent_key_ne containerPath p :
  p <> containerPath -> parent_key containerPath p <> p.
Proof.
  intros Hne. unfold parent_key.
  destruct (truthy (substring_to_last "/" p)) eqn:Ht.
  - apply (substring_to_last_before "/" p Ht).
  - intros Heq. apply Hne. symmetry. exact Heq.
Qed.

Lemma children_ok_snoc containerPath objects item :
  children_ok containerPath objects ->
  (children item = Some [] \/ children item = None) ->
  children_ok containerPath (objects ++ [item]).
Proof.
  intros Hok Hnew pa it cs Hpa Hcs.
  apply lookup_app_Some in Hpa as [Hpa|[Hlen Hpa]].
  - destruct (Hok pa it cs Hpa Hcs) as [Hnd Hch]. split; [exact Hnd|].
    intros c Hc. destruct (Hch c Hc) as (Hlt & child & Hchild & Hkey).
    split; [exact Hlt|]. exists child. split; [|exact Hkey].
    apply lookup_app_l_Some. exact Hchild.
  - apply list_lookup_singleton_Some in Hpa as [_ <-].
    destruct Hnew as [Hnew|Hnew]; rewrite Hnew in Hcs; [|discriminate].
    injection Hcs as <-. split; [constructor|]. intros c Hc. inversion Hc.
Qed.

Lemma children_ok_push containerPath objects pa a parent child :
  children_ok containerPath objects ->
  objects !! pa = Some parent ->
  objects !! a = Some child ->
  (pa < a)%nat ->
  (forall q it cs, objects !! q = Some it -> children it = Some cs -> a ∉ cs) ->
  parent_key containerPath (path child) = path parent ->
  children_ok containerPath (push_child pa a objects).
Proof.
  intros Hok Hpa Ha Hlt Hfresh Hkey. unfold push_child. rewrite Hpa.
  destruct (children parent) as [cs0|] eqn:Hcs0; [|exact Hok].
  set (parent' := {| name := name parent; path := path parent;
                     type := type parent; children := Some (cs0 ++ [a]);
                     content := content parent |}).
  assert (Hbound : (pa < length objects)%nat) by (eapply lookup_lt_Some; eassumption).
  assert (Hstable : forall c it, objects !! c = Some it ->
            exists it', <[pa:=parent']> objects !! c = Some it' /\ path it' = path it).
  { intros c it Hc. destruct (decide (pa = c)) as [<-|Hne].
    - rewrite list_lookup_insert_eq by exact Hbound. exists parent'.
      split; [reflexivity|]. rewrite Hpa in Hc. injection Hc as <-. reflexivity.
    - rewrite list_lookup_insert_ne by exact Hne. exists it. split; [exact Hc|reflexivity]. }
  intros q it cs Hq Hcs.
  destruct (decide (pa = q)) as [<-|Hne].
  - rewrite list_lookup_insert_eq in Hq by exact Hbound. injection Hq as <-.
    cbn in Hcs. injection Hcs as <-.
    destruct (Hok pa parent cs0 Hpa Hcs0) as [Hnd Hch]. split.
    + apply NoDup_app. split; [exact Hnd|]. split; [|apply NoDup_singleton].
      intros x Hx Hx'. apply list_elem_of_singleton in Hx' as ->.
      exact (Hfresh pa parent cs0 Hpa Hcs0 Hx).
    + intros c Hc. apply elem_of_app in Hc as [Hc|Hc].
      * destruct (Hch c Hc) as (Hltc & ch & Hchild & Hk). split; [exact Hltc|].
        destruct (Hstable c ch Hchild) as (ch' & Hch' & Hp).
        exists ch'. split; [exact Hch'|]. rewrite Hp. exact Hk.
      * apply list_elem_of_singleton in Hc as ->. split; [exact Hlt|].
        destruct (Hstable a child Ha) as (ch' & Hch' & Hp).
        exists ch'. split; [exact Hch'|]. rewrite Hp. exact Hkey.
  - rewrite list_lookup_insert_ne in Hq by exact Hne.
    destruct (Hok q it cs Hq Hcs) as [Hnd Hch]. split; [exact Hnd|].
    intros c Hc. destruct (Hch c Hc) as (Hltc & ch & Hchild & Hk).
    split; [exact Hltc|].
    destruct (Hstable c ch Hchild) as (ch' & Hch' & Hp).
    exists ch'. split; [exact Hch'|]. rewrite Hp. exact Hk.
Qed.

Lemma add_to_tree_children_ok containerPath st p d :
  p <> containerPath ->
  tree_entries_ok st ->
  children_ok containerPath (heap st) ->
  children_ok containerPath (heap (add_to_tree containerPath st p d)).
Proof.
  intros Hne Hentries Hok. unfold add_to_tree. cbn [heap].
  set (item := new_item containerPath p d).
  assert (Hok1 : children_ok containerPath (heap st ++ [item])).
  { apply children_ok_snoc; [exact Hok|]. destruct d; [left|right]; reflexivity. }
  unfold attach. rewrite list_lookup_middle by reflexivity.
  change (path item) with p.
  rewrite lookup_insert_ne by (intros Heq; exact (parent_key_ne _ _ Hne (eq_sym Heq))).
  destruct (fileTree st !! parent_key containerPath p) as [pa|] eqn:Hpa;
    [|exact Hok1].
  destruct (Hentries _ _ Hpa) as (parent & Hparent & Hpath).
  assert (Hlt : (pa < length (heap st))%nat) by (eapply lookup_lt_Some; eassumption).
  apply (children_ok_push containerPath _ pa (length (heap st)) parent item).
  - exact Hok1.
  - apply lookup_app_l_Some. exact Hparent.
  - apply list_lookup_middle. reflexivity.
  - exact Hlt.
  - intros q it cs Hq Hcs Hin.
    apply lookup_app_Some in Hq as [Hq|[_ Hq]].
    + destruct (Hok q it cs Hq Hcs) as [_ Hch].
      destruct (Hch _ Hin) as (_ & child & Hchild & _).
      apply lookup_lt_Some in Hchild. lia.
    + apply list_lookup_singleton_Some in Hq as [_ <-].
      destruct d; cbn in Hcs; [|discriminate].
      injection Hcs as <-. inversion Hin.
  - rewrite Hpath. reflexivity.
Qed.

Lemma tree_after_children_ok containerPath classified :
  Forall (fun p => p <> containerPath) classified.*1 ->
  children_ok containerPath (heap (tree_after containerPath classified)) /\
  fileTree (tree_after containerPath classified) !! containerPath = Some O.
Proof.
  induction classified as [|[p d] classified IH] using rev_ind; intros Hall.
  - split.
    + intros pa it cs Hpa Hcs. destruct pa; [|discriminate].
      cbn in Hpa. injection Hpa as <-. cbn in Hcs. injection Hcs as <-.
      split; [constructor|]. intros c Hc. inversion Hc.
    + cbn. apply lookup_singleton_eq.
  - rewrite fmap_app in Hall. apply Forall_app in Hall as [Hall Hp].
    cbn in Hp. apply Forall_cons in Hp as [Hp _].
    destruct (IH Hall) as [Hok Hroot]. rewrite tree_after_snoc. split.
    + apply add_to_tree_children_ok;
        [exact Hp | apply tree_after_entries_ok | exact Hok].
    + unfold add_to_tree. cbn [fileTree].
      rewrite lookup_insert_ne by exact Hp. exact Hroot.
Qed.

(** X17.  The [children] arrays that [getFileTree] returns are sound:
    every child is an object that was made after its parent and lies
    directly under it (the parent of its path is the path of the parent
    object), and no array holds a child twice.  The returned top-level
    array is the [children] array of the root object, the first object of
    the store. *)
Theorem getFileTree_children_sound (E : Env) (containerId containerPath : string)
    (s : State) (output : string) :
  exec_result E (trace s) (podman_exec_sh containerId (sh_find_tree containerPath))
    = Ok output ->
  exists objects top rootItem,
    snd (getFileTree E containerId containerPath s) = Ok (objects, top) /\
    children_ok containerPath objects /\
    objects !! O = Some rootItem /\
    path rootItem = containerPath /\
    children rootItem = Some top.
Proof.
  intros Hfind.
  rewrite (getFileTree_run E containerId containerPath s output Hfind). cbn [snd].
  set (paths := listed_paths containerPath output).
  set (classified := zip paths _).
  destruct (tree_after_children_ok containerPath classified) as [Hok Hroot].
  { unfold classified.
    rewrite fst_zip by (rewrite stat_answers_length; reflexivity).
    apply Forall_forall. intros p Hp.
    apply list_elem_of_filter in Hp as [(_ & Hp) _]. exact Hp. }
  pose proof (tree_after_store containerPath classified) as Hstore.
  apply (f_equal (fun l => l !! O)) in Hstore. rewrite list_lookup_fmap in Hstore.
  cbn in Hstore.
  destruct (heap (tree_after containerPath classified) !! O) as [rootItem|] eqn:H0;
    [|discriminate].
  assert (Hw : without_children rootItem = root_item containerPath)
    by (cbn in Hstore; congruence).
  destruct rootItem as [n pa ty [cs|] co]; [|discriminate].
  eexists _, cs, _. split; [|split; [exact Hok|split; [exact H0|]]].
  - unfold root_children, children_at. rewrite Hroot, H0. reflexivity.
  - split; [|reflexivity]. injection Hw as _ Hp _. exact Hp.
Qed.

Lemma getFileTree_children_sound_witness :
  exists objects top rootItem,
    snd (getFileTree env_small_tree "c1" "/root" fresh) = Ok (objects, top) /\
    children_ok "/root" objects /\
    objects !! O = Some rootItem /\
    path rootItem = "/root" /\
    children rootItem = Some top.
Proof.
  exact (getFileTree_children_sound env_small_tree "c1" "/root" fresh
           small_listing eq_refl).
Defined.

(** ** Every listed path is attached *)

Lemma tree_after_length containerPath classified :
  length (heap (tree_after containerPath classified)) = S (length classified).
Proof.
  rewrite <- (length_fmap without_children), tree_after_store. cbn.
  rewrite length_fmap. reflexivity.
Qed.

(** Children are only ever added. *)
Lemma push_child_mono pa a objects q it cs c :
  objects !! q = Some it -> children it = Some cs -> c ∈ cs ->
  exists it' cs', push_child pa a objects !! q = Some it' /\
    path it' = path it /\ children it' = Some cs' /\ c ∈ cs'.
Proof.
  intros Hq Hcs Hc. unfold push_child.
  destruct (objects !! pa) as [parent|] eqn:Hpa; [|eauto 6].
  destruct (children parent) as [cs0|] eqn:Hcs0; [|eauto 6].
  destruct (decide (pa = q)) as [<-|Hne].
  - rewrite list_lookup_insert_eq by (eapply lookup_lt_Some; eassumption).
    rewrite Hpa in Hq. injection Hq as <-. rewrite Hcs0 in Hcs. injection Hcs as <-.
    eexists _, _. split; [reflexivity|]. split; [reflexivity|].
    split; [reflexivity|]. apply elem_of_app. left. exact Hc.
  - rewrite list_lookup_insert_ne by exact Hne. eauto 6.
Qed.

Lemma add_to_tree_mono containerPath st p d q it cs c :
  heap st !! q = Some it -> children it = Some cs -> c ∈ cs ->
  exists it' cs', heap (add_to_tree containerPath st p d) !! q = Some it' /\
    path it' = path it /\ children it' = Some cs' /\ c ∈ cs'.
Proof.
  intros Hq Hcs Hc. unfold add_to_tree. cbn [heap].
  assert (Hq1 : (heap st ++ [new_item containerPath p d]) !! q = Some it)
    by (apply lookup_app_l_Some; exact Hq).
  unfold attach. rewrite list_lookup_middle by reflexivity.
  destruct (_ !! parent_key containerPath _); [|eauto 6].
  apply (push_child_mono _ _ _ q it cs c Hq1 Hcs Hc).
Qed.

Lemma fold_add_to_tree_mono containerPath rest :
  forall st q it cs c,
    heap st !! q = Some it -> children it = Some cs -> c ∈ cs ->
    exists it' cs',
      heap (fold_left (fun st '(p, d) => add_to_tree containerPath st p d) rest st)
        !! q = Some it' /\
      path it' = path it /\ children it' = Some cs' /\ c ∈ cs'.
Proof.
  induction rest as [|[p d] rest IH]; intros st q it cs c Hq Hcs Hc; [eauto 6|].
  cbn [fold_left].
  destruct (add_to_tree_mono containerPath st p d q it cs c Hq Hcs Hc)
    as (it1 & cs1 & Hq1 & Hp1 & Hcs1 & Hc1).
  destruct (IH _ q it1 cs1 c Hq1 Hcs1 Hc1) as (it2 & cs2 & Hq2 & Hp2 & Hcs2 & Hc2).
  exists it2, cs2. repeat split; try assumption. congruence.
Qed.

(** The step for a path whose parent is registered with a [children]
    array: the new object is pushed onto that array. *)
Lemma add_to_tree_attaches containerPath st p d pa parent cs :
  p <> containerPath ->
  fileTree st !! parent_key containerPath p = Some pa ->
  heap st !! pa = Some parent ->
  children parent = Some cs ->
  exists parent',
    heap (add_to_tree containerPath st p d) !! pa = Some parent' /\
    path parent' = path parent /\
    children parent' = Some (cs ++ [length (heap st)]).
Proof.
  intros Hne Hkey Hpa Hcs. unfold add_to_tree. cbn [heap].
  unfold attach. rewrite list_lookup_middle by reflexivity.
  change (path (new_item containerPath p d)) with p.
  rewrite lookup_insert_ne
    by (intros Heq; exact (parent_key_ne _ _ Hne (eq_sym Heq))).
  rewrite Hkey. unfold push_child.
  rewrite (lookup_app_l_Some _ _ _ _ Hpa), Hcs.
  rewrite list_lookup_insert_eq.
  - eexists. split; [reflexivity|]. split; reflexivity.
  - rewrite length_app. apply lookup_lt_Some in Hpa. lia.
Qed.

(** X18.  On a listing that is sorted, that lists the parent of every
    listed path (unless the parent is the starting directory) and in
    which every path that is the parent of a listed path is classified as
    a directory, no path is lost: the object of the [i]-th listed path is
    in the [children] array of an object that carries the path of its
    parent. *)
Theorem getFileTree_attaches_every_path (E : Env)
    (containerId containerPath : string) (s : State) (output : string)
    (i : nat) (p : string) :
  let find := podman_exec_sh containerId (sh_find_tree containerPath) in
  let paths := listed_paths containerPath output in
  exec_result E (trace s) find = Ok output ->
  Sorted String.le paths ->
  (forall q, q ∈ paths ->
     parent_key containerPath q = containerPath \/
     parent_key containerPath q ∈ paths) ->
  (forall j q, paths !! j = Some q ->
     (exists p', p' ∈ paths /\ parent_key containerPath p' = q) ->
     is_directory
       (exec_result E
          (trace s ++ Exec find ::
           map (fun q' => Exec (stat_command containerId q')) (list.take j paths))
          (stat_command containerId q)) = true) ->
  paths !! i = Some p ->
  exists objects top pa parent cs,
    snd (getFileTree E containerId containerPath s) = Ok (objects, top) /\
    objects !! pa = Some parent /\
    path parent = parent_key containerPath p /\
    children parent = Some cs /\
    S i ∈ cs.
Proof.
  intros find paths Hfind Hsorted Hclosed Hdirs Hi.
  rewrite (getFileTree_run E containerId containerPath s output Hfind).
  fold find. fold paths. cbn [snd].
  set (answers := stat_answers E containerId (trace s ++ [Exec find]) paths).
  set (classified := zip paths answers).
  assert (Hlen : length answers = length paths) by apply stat_answers_length.
  assert (Hfst : classified.*1 = paths) by (apply fst_zip; lia).
  assert (Hanswer : forall j q, paths !! j = Some q ->
            classified !! j =
            Some (q, is_directory
                       (exec_result E
                          (trace s ++ Exec find ::
                           map (fun q' => Exec (stat_command containerId q'))
                             (list.take j paths))
                          (stat_command containerId q)))).
  { intros j q Hj. unfold classified. rewrite lookup_zip_with, Hj. cbn.
    unfold answers. rewrite (stat_answers_lookup _ _ _ _ j q Hj). cbn.
    rewrite <- app_assoc. reflexivity. }
  pose proof (Hanswer i p Hi) as Hci.
  set (d := is_directory _) in Hci.
  assert (Hp : p ∈ paths) by (apply list_elem_of_lookup; eauto).
  assert (Hne : p <> containerPath).
  { apply list_elem_of_filter in Hp as [(_ & Hp) _]. exact Hp. }
  (* the tree when the loop reaches the path *)
  set (st := tree_after containerPath (list.take i classified)).
  assert (Hsplit : tree_after containerPath classified =
                   fold_left (fun st '(p, d) => add_to_tree containerPath st p d)
                     (list.drop (S i) classified)
                     (add_to_tree containerPath st p d)).
  { unfold tree_after at 1. rewrite <- (take_drop_middle classified i (p, d) Hci) at 1.
    rewrite fold_left_app. reflexivity. }
  assert (Htake : (list.take i classified).*1 = list.take i paths)
    by (rewrite <- Hfst, fmap_take; reflexivity).
  (* the parent is registered *)
  assert (Hkey : is_Some (fileTree st !! parent_key containerPath p)).
  { apply tree_after_listed. rewrite Htake.
    destruct (Hclosed p Hp) as [Hroot|Hin]; [left; exact Hroot|].
    apply (parent_listed_before containerPath _ (list.drop (S i) paths) p).
    - rewrite (take_drop_middle paths i p Hi). exact Hsorted.
    - rewrite (take_drop_middle paths i p Hi). exact Hin. }
  destruct Hkey as [pa Hpa].
  destruct (tree_after_entries_ok containerPath _ _ _ Hpa)
    as (parent & Hparent & Hpath).
  (* and it has a children array *)
  assert (Hchildren : exists cs, children parent = Some cs).
  { pose proof (tree_after_store containerPath (list.take i classified)) as Hstore.
    apply (f_equal (fun l => l !! pa)) in Hstore.
    rewrite list_lookup_fmap in Hstore.
    pose proof Hparent as Hparent'. unfold st in Hparent'.
    rewrite Hparent' in Hstore. clear Hparent'.
    cbn [fmap option_fmap option_map] in Hstore.
    destruct pa as [|j].
    - cbn in Hstore. injection Hstore as _ _ _ Hc _.
      destruct (children parent); [eauto|discriminate].
    - change ((root_item containerPath :: ?l) !! S j) with (l !! j) in Hstore.
      rewrite list_lookup_fmap in Hstore.
      destruct (list.take i classified !! j) as [[q dq]|] eqn:Hj; [|discriminate].
      cbn in Hstore. injection Hstore as _ Hq _ Hc _.
      apply lookup_take_Some in Hj as [Hj Hji].
      assert (Hqj : paths !! j = Some q).
      { rewrite <- Hfst, list_lookup_fmap, Hj. reflexivity. }
      rewrite (Hanswer j q Hqj) in Hj. injection Hj as <-.
      rewrite (Hdirs j q Hqj) in Hc.
      + destruct (children parent); [eauto|discriminate].
      + exists p. split; [exact Hp|]. congruence. }
  destruct Hchildren as [cs Hcs].
  destruct (add_to_tree_attaches containerPath st p d pa parent cs
              Hne Hpa Hparent Hcs) as (parent1 & Hparent1 & Hpath1 & Hcs1).
  assert (Hsize : length (heap st) = S i).
  { unfold st. rewrite tree_after_length, length_take.
    apply lookup_lt_Some in Hci. lia. }
  rewrite Hsize in Hcs1.
  destruct (fold_add_to_tree_mono containerPath (list.drop (S i) classified)
              _ pa parent1 _ (S i) Hparent1 Hcs1)
    as (parent2 & cs2 & Hparent2 & Hpath2 & Hcs2 & Hin2).
  { apply elem_of_app. right. left. }
  rewrite <- Hsplit in Hparent2.
  eexists _, _, pa, parent2, cs2. split; [reflexivity|].
  split; [exact Hparent2|]. split; [congruence|]. split; assumption.
Qed.

Lemma small_tree_sorted : Sorted String.le ["/root/a"; "/root/a/b.txt"; "/root/c"].
Proof.
  repeat first [apply Sorted_nil | apply HdRel_nil
               | apply Sorted_cons | apply HdRel_cons].
  all: vm_compute; exact I.
Qed.

Lemma small_tree_parents q :
  q ∈ ["/root/a"; "/root/a/b.txt"; "/root/c"] ->
  parent_key "/root" q = "/root" \/
  (q = "/root/a/b.txt" /\ parent_key "/root" q = "/root/a").
Proof.
  intros Hq.
  apply elem_of_cons in Hq as [->|Hq]; [left; vm_compute; reflexivity|].
  apply elem_of_cons in Hq as [->|Hq];
    [right; split; [reflexivity|vm_compute; reflexivity]|].
  apply list_elem_of_singleton in Hq as ->. left. vm_compute. reflexivity.
Qed.

Lemma getFileTree_attaches_every_path_witness :
  exists objects top pa parent cs,
    snd (getFileTree env_small_tree "c1" "/root" fresh) = Ok (objects, top) /\
    objects !! pa = Some parent /\
    path parent = parent_key "/root" "/root/a/b.txt" /\
    children parent = Some cs /\
    2%nat ∈ cs.
Proof.
  apply (getFileTree_attaches_every_path env_small_tree "c1" "/root" fresh
           small_listing 1 "/root/a/b.txt").
  - reflexivity.
  - rewrite listed_small_tree. exact small_tree_sorted.
  - rewrite listed_small_tree. intros q Hq.
    destruct (small_tree_parents q Hq) as [H|[_ H]]; [left; exact H|].
    right. rewrite H. left.
  - rewrite listed_small_tree. intros j q Hj (p' & Hp' & Hkey).
    assert (Hq : q = "/root" \/ q = "/root/a").
    { destruct (small_tree_parents p' Hp') as [H|[_ H]];
        rewrite H in Hkey; [left|right]; congruence. }
    destruct Hq as [->| ->].
    + destruct j as [|[|[|j]]]; discriminate.
    + reflexivity.
  - rewrite listed_small_tree. reflexivity.
Defined.

(** ** The names of the nodes *)

Lemma string_app_assoc (s1 s2 s3 : string) :
  (s1 +:+ s2) +:+ s3 = s1 +:+ (s2 +:+ s3).
Proof.
  induction s1 as [|a s1 IH]; [reflexivity|].
  change ((String a (s1 +:+ s2)) +:+ s3 = String a (s1 +:+ (s2 +:+ s3))).
  change (String a ((s1 +:+ s2) +:+ s3) = String a (s1 +:+ (s2 +:+ s3))).
  rewrite IH. reflexivity.
Qed.

Lemma string_app_nil_r (s : string) : s +:+ EmptyString = s.
Proof.
  induction s as [|a s IH]; [reflexivity|].
  change (String a (s +:+ EmptyString) = String a s). rewrite IH. reflexivity.
Qed.

Lemma rev_app_rev (x y : string) :
  String.rev_app x y = String.rev x +:+ y.
Proof.
  revert y. induction x as [|b x IH]; intros y; [reflexivity|].
  unfold String.rev. cbn [String.rev_app].
  rewrite (IH (String b y)), (IH (String b EmptyString)).
  rewrite string_app_assoc. reflexivity.
Qed.

Lemma remove_first_prefix p s :
  startsWith p s = true -> remove_first p s = drop_chars (String.length p) s.
Proof. intros H. destruct s; cbn [remove_first]; rewrite H; reflexivity. Qed.

(** A string without the separator is a single piece. *)
Lemma split_go_lacks sep s :
  forall cur, lacks sep s = true ->
    split_go sep cur s = [String.rev cur +:+ s].
Proof.
  induction s as [|a s IH]; intros cur Hs.
  - cbn. rewrite string_app_nil_r. reflexivity.
  - cbn in Hs. apply andb_true_iff in Hs as [Ha Hs].
    cbn [split_go]. apply negb_true_iff in Ha. rewrite Ha.
    rewrite (IH _ Hs). f_equal. unfold String.rev at 1. cbn [String.rev_app].
    rewrite rev_app_rev, string_app_assoc. reflexivity.
Qed.

(** X19.  The name of a node is the last piece of its path relative to
    the starting directory: for a path [containerPath/rel] the name is the
    last of the pieces of [rel] between slashes, and when [rel] has no
    slash, as for the entries directly under the starting directory, the
    name is [rel] itself. *)
Theorem new_item_name (containerPath rel : string) (isDirectory : bool) :
  let filePath := containerPath +:+ "/" +:+ rel in
  name (new_item containerPath filePath isDirectory) =
    default EmptyString (last (split "/" rel)) /\
  path (new_item containerPath filePath isDirectory) = filePath /\
  (lacks "/" rel = true ->
   name (new_item containerPath filePath isDirectory) = rel).
Proof.
  intros filePath.
  assert (Hrel : remove_first (containerPath +:+ "/") filePath = rel).
  { unfold filePath. rewrite <- string_app_assoc.
    rewrite remove_first_prefix by apply startsWith_app.
    apply drop_chars_app. }
  unfold new_item. cbn [name path]. rewrite Hrel.
  split; [reflexivity|]. split; [reflexivity|].
  intros Hlacks. unfold split. rewrite (split_go_lacks "/" rel _ Hlacks).
  reflexivity.
Qed.

Lemma new_item_name_witness :
  name (new_item "/app/my-nextjs-app" "/app/my-nextjs-app/package.json" false) =
  "package.json".
Proof.
  apply (proj2 (proj2 (new_item_name "/app/my-nextjs-app" "package.json" false))).
  reflexivity.
Defined.

(** ** [readFilesBatch] *)

Lemma read_or_placeholder_run E containerId filePath s :
  read_or_placeholder E containerId filePath s =
  (with_event s (Exec (cat_command containerId filePath)),
   Ok (filePath,
       content_of (exec_result E (trace s) (cat_command containerId filePath)))).
Proof.
  unfold read_or_placeholder, readFile, execInContainer, try_catch, bind,
    execAsync, ret, with_event, content_of, cat_command.
  destruct (exec_result E (trace s) _); reflexivity.
Qed.

Lemma read_batch_run E containerId batch :
  forall s,
    read_batch E containerId batch s =
    ({| usedPorts := usedPorts s;
        trace := trace s ++ map (fun p => Exec (cat_command containerId p)) batch |},
     Ok (reads E containerId (trace s) batch)).
Proof.
  induction batch as [|p batch IH]; intros s.
  - cbn. rewrite app_nil_r. destruct s; reflexivity.
  - cbn [read_batch]. unfold bind at 1. rewrite read_or_placeholder_run.
    unfold bind at 1. rewrite IH. cbn. rewrite <- app_assoc. reflexivity.
Qed.

Lemma reads_app E containerId l1 :
  forall tr l2,
    reads E containerId tr (l1 ++ l2) =
    reads E containerId tr l1 ++
    reads E containerId
      (tr ++ map (fun p => Exec (cat_command containerId p)) l1) l2.
Proof.
  induction l1 as [|p l1 IH]; intros tr l2; cbn.
  - rewrite app_nil_r. reflexivity.
  - rewrite IH, <- app_assoc. reflexivity.
Qed.

Lemma reads_keys E containerId paths :
  forall tr, (reads E containerId tr paths).*1 = paths.
Proof.
  induction paths as [|p paths IH]; intros tr; cbn; [reflexivity|].
  rewrite IH. reflexivity.
Qed.

Lemma readFilesBatch_loop_run E containerId filePaths fuel :
  forall i results s,
    (length filePaths <= i + fuel * batchSize)%nat ->
    readFilesBatch_loop E containerId filePaths fuel i results s =
    ({| usedPorts := usedPorts s;
        trace := trace s ++
                 map (fun p => Exec (cat_command containerId p))
                   (list.drop i filePaths) |},
     Ok (fold_left (fun m '(filePath, c) => map_set filePath c m)
           (reads E containerId (trace s) (list.drop i filePaths)) results)).
Proof.
  induction fuel as [|fuel IH]; intros i results s Hfuel.
  - cbn [readFilesBatch_loop]. rewrite drop_ge by lia. cbn.
    rewrite app_nil_r. destruct s; reflexivity.
  - cbn [readFilesBatch_loop]. destruct (i <? length filePaths)%nat eqn:Hi.
    + unfold bind. rewrite read_batch_run.
      rewrite IH by (cbn [trace]; unfold batchSize in *; lia).
      cbn [trace usedPorts].
      rewrite <- (drop_drop filePaths batchSize i).
      set (batch := list.take batchSize (list.drop i filePaths)).
      set (later := list.drop batchSize (list.drop i filePaths)).
      replace (list.drop i filePaths) with (batch ++ later)
        by apply take_drop.
      rewrite map_app, reads_app, fold_left_app, <- app_assoc.
      reflexivity.
    + apply Nat.ltb_ge in Hi. rewrite drop_ge by lia. cbn.
      rewrite app_nil_r. destruct s; reflexivity.
Qed.

(** Batching is invisible in the result: [readFilesBatch] issues one read
    per path, in the order of [filePaths], never throws, and returns the
    map that setting the entries one by one gives. *)
Lemma readFilesBatch_run E containerId filePaths s :
  readFilesBatch E containerId filePaths s =
  ({| usedPorts := usedPorts s;
      trace := trace s ++
               map (fun p => Exec (cat_command containerId p)) filePaths |},
   Ok (fold_left (fun m '(filePath, c) => map_set filePath c m)
         (reads E containerId (trace s) filePaths) [])).
Proof.
  unfold readFilesBatch.
  rewrite readFilesBatch_loop_run by (unfold batchSize; lia).
  reflexivity.
Qed.

Lemma map_get_set_eq {V} (k : string) (v : V) (m : JSMap V) :
  map_get k (map_set k v m) = Some v.
Proof.
  induction m as [|[k' v'] m IH]; cbn.
  - rewrite decide_True by reflexivity. reflexivity.
  - destruct (decide (k' = k)) as [->|Hne]; cbn.
    + rewrite decide_True by reflexivity. reflexivity.
    + rewrite decide_False by assumption. exact IH.
Qed.

Lemma map_get_set_ne {V} (k k' : string) (v : V) (m : JSMap V) :
  k <> k' -> map_get k' (map_set k v m) = map_get k' m.
Proof.
  intros Hne. induction m as [|[k0 v0] m IH]; cbn.
  - rewrite decide_False by assumption. reflexivity.
  - destruct (decide (k0 = k)) as [->|Hk]; cbn.
    + rewrite !decide_False by assumption. reflexivity.
    + destruct (decide (k0 = k')); [reflexivity | exact IH].
Qed.

Lemma map_get_fold_other (p : string) (l : list (string * string)) :
  forall m,
    p ∉ l.*1 ->
    map_get p (fold_left (fun m '(filePath, c) => map_set filePath c m) l m) =
    map_get p m.
Proof.
  induction l as [|[k v] l IH]; intros m Hp; cbn; [reflexivity|].
  cbn in Hp. apply not_elem_of_cons in Hp as [Hne Hp].
  rewrite IH by assumption. apply map_get_set_ne. congruence.
Qed.

(** X20. [readFilesBatch] never throws and issues exactly one read per
    path, in the order of [filePaths], whatever the batch size; the map it
    returns gives, for the last occurrence of a path, the content that its
    own read answered (without the byte order mark), or the placeholder
    [Error reading file: ...] when that read failed. *)
Theorem readFilesBatch_entry E containerId (filePaths : list string)
    (s : State) (i : nat) (p : string)
    (Hi : filePaths !! i = Some p)
    (Hlast : p ∉ list.drop (S i) filePaths) :
  exists s' results,
    readFilesBatch E containerId filePaths s = (s', Ok results) /\
    usedPorts s' = usedPorts s /\
    trace s' =
      trace s ++ map (fun q => Exec (cat_command containerId q)) filePaths /\
    map_get p results =
      Some (content_of
              (exec_result E
                 (trace s ++
                  map (fun q => Exec (cat_command containerId q))
                    (list.take i filePaths))
                 (cat_command containerId p))).
Proof.
  rewrite readFilesBatch_run. eexists _, _. split; [reflexivity|].
  split; [reflexivity|]. split; [reflexivity|].
  rewrite <- (take_drop_middle filePaths i p Hi) at 1.
  rewrite reads_app, fold_left_app. cbn [reads fold_left].
  rewrite map_get_fold_other by (rewrite reads_keys; exact Hlast).
  apply map_get_set_eq.
Qed.

Lemma readFilesBatch_entry_witness :
  exists s' results,
    readFilesBatch env_one_unreadable "c1" sixty_files fresh =
      (s', Ok results) /\
    usedPorts s' = usedPorts fresh /\
    trace s' =
      trace fresh ++
      map (fun q => Exec (cat_command "c1" q)) sixty_files /\
    map_get "f57" results =
      Some (content_of
              (exec_result env_one_unreadable
                 (trace fresh ++
                  map (fun q => Exec (cat_command "c1" q))
                    (list.take 57 sixty_files))
                 (cat_command "c1" "f57"))).
Proof.
  apply (readFilesBatch_entry env_one_unreadable "c1" sixty_files
           fresh 57 "f57").
  - vm_compute. reflexivity.
  - intros H. apply (bool_decide_pack _) in H. vm_compute in H. exact H.
Defined.

(** ** [getFileContentTree] *)

Lemma getFileContentTree_loop_run E containerId containerPath paths :
  forall st s,
    getFileContentTree_loop E containerId containerPath paths st s =
    ({| usedPorts := usedPorts s;
        trace := trace s ++ map (fun p => Exec (stat_command containerId p)) paths |},
     Ok (fold_left (fun st '(filePath, isDirectory) =>
                      add_to_content_tree containerPath st filePath isDirectory)
           (zip paths (stat_answers E containerId (trace s) paths)) st)).
Proof.
  induction paths as [|p paths IH]; intros st s.
  - cbn. rewrite app_nil_r. destruct s; reflexivity.
  - cbn [getFileContentTree_loop]. unfold bind at 1, getFileContentTree_step.
    unfold bind at 1. rewrite getFileStat_run. unfold ret at 1.
    rewrite IH. cbn. rewrite <- app_assoc. reflexivity.
Qed.

Lemma content_tree_after_snoc containerPath classified p d :
  content_tree_after containerPath (classified ++ [(p, d)]) =
  add_to_content_tree containerPath
    (content_tree_after containerPath classified) p d.
Proof. unfold content_tree_after. rewrite fold_left_app. reflexivity. Qed.

(** The first loop only makes objects: the store is the root followed by
    one new object per path. *)
Lemma content_tree_after_store containerPath classified :
  cheap (content_tree_after containerPath classified) =
  root_item containerPath ::
  ((fun '(p, d) => new_item containerPath p d) <$> classified).
Proof.
  induction classified as [|[p d] classified IH] using rev_ind; [reflexivity|].
  rewrite content_tree_after_snoc. cbn [add_to_content_tree cheap].
  rewrite IH, fmap_app. reflexivity.
Qed.

Lemma content_tree_after_files containerPath classified :
  filesToRead (content_tree_after containerPath classified) =
  files_of classified.
Proof.
  induction classified as [|[p d] classified IH] using rev_ind; [reflexivity|].
  rewrite content_tree_after_snoc. cbn [add_to_content_tree filesToRead].
  unfold files_of in *. rewrite omap_app, IH. cbn.
  destruct d; [rewrite app_nil_r|]; reflexivity.
Qed.

(** An entry of [pathToItemMap] points to an object with the path of the
    entry. *)
Lemma content_tree_after_keys containerPath classified :
  forall q a,
    map_get q (pathToItemMap (content_tree_after containerPath classified))
      = Some a ->
    exists item,
      cheap (content_tree_after containerPath classified) !! a = Some item /\
      path item = q.
Proof.
  induction classified as [|[p d] classified IH] using rev_ind;
    intros q a Hq; [discriminate|].
  rewrite content_tree_after_snoc in *.
  cbn [add_to_content_tree cheap pathToItemMap] in *.
  destruct (decide (p = q)) as [->|Hne].
  - rewrite map_get_set_eq in Hq. injection Hq as <-.
    exists (new_item containerPath q d). split; [|reflexivity].
    rewrite lookup_app_r by lia. rewrite Nat.sub_diag. reflexivity.
  - rewrite map_get_set_ne in Hq by assumption.
    destruct (IH q a Hq) as (item & Hitem & Hpath).
    exists item. split; [|exact Hpath]. apply lookup_app_l_Some. exact Hitem.
Qed.

(** The entry of a path points to the object of its last occurrence. *)
Lemma content_tree_after_last containerPath classified :
  forall i p d,
    classified !! i = Some (p, d) ->
    p ∉ (list.drop (S i) classified).*1 ->
    map_get p (pathToItemMap (content_tree_after containerPath classified))
      = Some (S i).
Proof.
  induction classified as [|[q e] classified IH] using rev_ind;
    intros i p d Hi Hlast; [discriminate|].
  rewrite content_tree_after_snoc.
  cbn [add_to_content_tree pathToItemMap].
  rewrite content_tree_after_store. cbn [length]. rewrite length_fmap.
  apply lookup_app_Some in Hi as [Hi|[Hlen Hi]].
  - pose proof (lookup_lt_Some _ _ _ Hi) as Hlt.
    rewrite drop_app_le in Hlast by lia. rewrite fmap_app in Hlast.
    apply not_elem_of_app in Hlast as [Hlast Hq].
    rewrite map_get_set_ne.
    + apply (IH i p d Hi Hlast).
    + intros ->. apply Hq. left.
  - destruct (i - length classified)%nat as [|k] eqn:Hk; [|discriminate].
    injection Hi as -> ->. replace i with (length classified) by lia.
    apply map_get_set_eq.
Qed.

Lemma set_content_other a a' c objects :
  a' <> a -> set_content a' c objects !! a = objects !! a.
Proof.
  intros Hne. unfold set_content. destruct (objects !! a'); [|reflexivity].
  apply list_lookup_insert_ne. exact Hne.
Qed.

(** [set_contents] leaves alone the objects that no entry points to. *)
Lemma set_contents_untouched (m : JSMap addr) (fileContents : JSMap string) a :
  forall objects,
    (forall q c, (q, c) ∈ fileContents -> map_get q m <> Some a) ->
    set_contents m fileContents objects !! a = objects !! a.
Proof.
  unfold set_contents.
  induction fileContents as [|[q c] fileContents IH]; intros objects Hm;
    [reflexivity|].
  cbn [fold_left]. rewrite IH.
  - destruct (map_get q m) as [a'|] eqn:Hq; [|reflexivity].
    apply set_content_other. intros ->. apply (Hm q c); [left|exact Hq].
  - intros q' c' Hin. apply (Hm q' c'). right. exact Hin.
Qed.

(** [set_contents] gives the object of a path the content that
    [fileContents] has for the path. *)
Lemma set_contents_hit (m : JSMap addr) (fileContents : JSMap string) a p c :
  map_get p m = Some a ->
  (forall q, map_get q m = Some a -> q = p) ->
  forall objects item,
    NoDup fileContents.*1 ->
    map_get p fileContents = Some c ->
    objects !! a = Some item ->
    set_contents m fileContents objects !! a =
    Some (with_content item (Some c)).
Proof.
  intros Hp Hinj.
  induction fileContents as [|[q c0] fileContents IH];
    intros objects item Hnd Hc Hitem; [discriminate|].
  cbn in Hnd. apply NoDup_cons in Hnd as [Hq Hnd]. cbn [map_get] in Hc.
  change (set_contents m ((q, c0) :: fileContents) objects) with
    (set_contents m fileContents
       (match map_get q m with
        | Some a' => set_content a' c0 objects
        | None => objects
        end)).
  destruct (decide (q = p)) as [->|Hne].
  - injection Hc as ->. rewrite Hp. rewrite set_contents_untouched.
    + unfold set_content. rewrite Hitem. apply list_lookup_insert_eq.
      apply (lookup_lt_Some _ _ _ Hitem).
    + intros q' c' Hin Hq'. apply Hinj in Hq' as ->. apply Hq.
      apply list_elem_of_fmap. exists (p, c'). split; [reflexivity|exact Hin].
  - apply (IH _ item Hnd Hc).
    destruct (map_get q m) as [a'|] eqn:Hqm; [|exact Hitem].
    rewrite set_content_other; [exact Hitem|].
    intros ->. apply Hne. apply Hinj. exact Hqm.
Qed.

Lemma attach_all_without_children containerPath fileTree items :
  forall objects,
    without_children <$> attach_all containerPath fileTree items objects =
    without_children <$> objects.
Proof.
  unfold attach_all.
  induction items as [|a items IH]; intros objects; [reflexivity|].
  cbn [fold_left]. rewrite IH. apply attach_without_children.
Qed.

Lemma set_content_paths a c objects :
  path <$> set_content a c objects = path <$> objects.
Proof.
  unfold set_content. destruct (objects !! a) as [item|] eqn:Ha; [|reflexivity].
  rewrite list_fmap_insert. apply list_insert_id.
  rewrite list_lookup_fmap, Ha. reflexivity.
Qed.

Lemma set_contents_paths (m : JSMap addr) (fileContents : JSMap string) :
  forall objects,
    path <$> set_contents m fileContents objects = path <$> objects.
Proof.
  unfold set_contents.
  induction fileContents as [|[q c] fileContents IH]; intros objects;
    [reflexivity|].
  cbn [fold_left]. rewrite IH.
  destruct (map_get q m); [apply set_content_paths|reflexivity].
Qed.

Lemma without_children_path item : path (without_children item) = path item.
Proof. reflexivity. Qed.

Lemma attach_all_paths containerPath fileTree items objects :
  path <$> attach_all containerPath fileTree items objects = path <$> objects.
Proof.
  pose proof (attach_all_without_children containerPath fileTree items objects)
    as H.
  apply (f_equal (fmap path)) in H. rewrite <- !list_fmap_compose in H.
  exact H.
Qed.

(** The keys of a [Map] after [set]: a new key goes to the end. *)
Lemma map_set_keys {V} (k : string) (v : V) (m : JSMap V) :
  (map_set k v m).*1 = m.*1 ++ (if decide (k ∈ m.*1) then [] else [k]).
Proof.
  induction m as [|[k' v'] m IH]; [reflexivity|].
  cbn [map_set]. destruct (decide (k' = k)) as [->|Hne].
  - cbn. rewrite decide_True by left. rewrite app_nil_r. reflexivity.
  - cbn. rewrite IH. f_equal.
    destruct (decide (k ∈ m.*1)) as [Hin|Hout].
    + rewrite decide_True by (right; exact Hin). reflexivity.
    + rewrite decide_False; [reflexivity|].
      intros Hin. apply elem_of_cons in Hin as [->|Hin]; [apply Hne|apply Hout];
        [reflexivity|exact Hin].
Qed.

Lemma map_set_NoDup {V} (k : string) (v : V) (m : JSMap V) :
  NoDup m.*1 -> NoDup (map_set k v m).*1.
Proof.
  intros Hnd. rewrite map_set_keys.
  destruct (decide (k ∈ m.*1)) as [Hin|Hout].
  - rewrite app_nil_r. exact Hnd.
  - apply NoDup_app. split; [exact Hnd|]. split.
    + intros x Hx Hk. apply list_elem_of_singleton in Hk as ->. tauto.
    + apply NoDup_singleton.
Qed.

Lemma fold_set_NoDup (l : list (string * string)) :
  forall m,
    NoDup m.*1 ->
    NoDup (fold_left (fun m '(filePath, c) => map_set filePath c m) l m).*1.
Proof.
  induction l as [|[k v] l IH]; intros m Hnd; [exact Hnd|].
  cbn [fold_left]. apply IH, map_set_NoDup, Hnd.
Qed.

Lemma fold_set_keys (l : list (string * string)) :
  forall m q,
    q ∈ (fold_left (fun m '(filePath, c) => map_set filePath c m) l m).*1 ->
    q ∈ m.*1 \/ q ∈ l.*1.
Proof.
  induction l as [|[k v] l IH]; intros m q Hq; [left; exact Hq|].
  cbn [fold_left] in Hq. apply IH in Hq as [Hq|Hq].
  - rewrite map_set_keys in Hq. apply elem_of_app in Hq as [Hq|Hq].
    + left. exact Hq.
    + right. destruct (decide (k ∈ m.*1)).
      * apply elem_of_nil in Hq. contradiction.
      * apply list_elem_of_singleton in Hq as ->. left.
  - right. cbn. right. exact Hq.
Qed.

(** The run of [getFileContentTree] after a listing that succeeded. *)
Lemma getFileContentTree_run E containerId containerPath s output :
  exec_result E (trace s)
    (podman_exec_sh containerId (sh_find_content_tree containerPath))
    = Ok output ->
  let find := Exec (podman_exec_sh containerId
                      (sh_find_content_tree containerPath)) in
  let paths := listed_paths containerPath output in
  let stats := trace s ++ find ::
               map (fun p => Exec (stat_command containerId p)) paths in
  let classified :=
    zip paths (stat_answers E containerId (trace s ++ [find]) paths) in
  let st := content_tree_after containerPath classified in
  let fileContents :=
    fold_left (fun m '(filePath, c) => map_set filePath c m)
      (reads E containerId stats (files_of classified)) [] in
  let objects :=
    attach_all containerPath (cfileTree st) (map snd (pathToItemMap st))
      (set_contents (pathToItemMap st) fileContents (cheap st)) in
  getFileContentTree E containerId containerPath s =
  ({| usedPorts := usedPorts s;
      trace := stats ++
               map (fun p => Exec (cat_command containerId p))
                 (files_of classified) |},
   Ok (objects, children_at objects (cfileTree st !! containerPath))).
Proof.
  intros Hfind find paths stats classified st fileContents objects.
  unfold getFileContentTree, bind at 1, execInContainer, execAsync.
  rewrite Hfind. unfold bind at 1. rewrite getFileContentTree_loop_run.
  cbn [trace usedPorts].
  change (fold_left _ _ (initial_content_tree containerPath)) with st.
  unfold bind at 1. rewrite readFilesBatch_run. cbn [trace usedPorts].
  assert (Hfiles : filesToRead st = files_of classified)
    by apply content_tree_after_files.
  rewrite Hfiles.
  unfold ret. subst objects fileContents stats.
  rewrite <- !app_assoc. reflexivity.
Qed.

(** X21.  [getFileContentTree] fails only if the listing fails, and then
    with the error of the listing.  Otherwise it first issues one [stat]
    per listed path and then one read per path that was not classified as
    a directory, both in the order of the listing: a directory is never
    read and no failing [stat] or read fails the call.  The store it
    returns holds the root object followed by one object per listed
    path. *)
Theorem getFileContentTree_stats_then_reads (E : Env)
    (containerId containerPath : string) (s : State) :
  let find := podman_exec_sh containerId (sh_find_content_tree containerPath) in
  match exec_result E (trace s) find with
  | Throw message =>
      getFileContentTree E containerId containerPath s =
      (with_event s (Exec find), Throw message)
  | Ok output =>
      let paths := listed_paths containerPath output in
      let classified :=
        zip paths (stat_answers E containerId (trace s ++ [Exec find]) paths) in
      exists objects top,
        getFileContentTree E containerId containerPath s =
        ({| usedPorts := usedPorts s;
            trace := (trace s ++ Exec find ::
                      map (fun p => Exec (stat_command containerId p)) paths) ++
                     map (fun p => Exec (cat_command containerId p))
                       (files_of classified) |},
         Ok (objects, top)) /\
        path <$> objects = containerPath :: paths
  end.
Proof.
  intros find.
  destruct (exec_result E (trace s) find) as [output|message] eqn:Hfind.
  - intros paths classified.
    eexists _, _.
    split; [apply (getFileContentTree_run E containerId containerPath s output Hfind)|].
    rewrite attach_all_paths, set_contents_paths, content_tree_after_store.
    cbn. f_equal.
    transitivity (classified.*1).
    + rewrite <- list_fmap_compose. apply list_fmap_ext.
      intros j [q d] _. reflexivity.
    + apply fst_zip. rewrite stat_answers_length. reflexivity.
  - unfold getFileContentTree, bind, execInContainer, execAsync. fold find.
    rewrite Hfind. reflexivity.
Qed.

Lemma files_of_subset classified q :
  q ∈ files_of classified -> (q, false) ∈ classified.
Proof.
  unfold files_of. intros Hq. apply list_elem_of_omap in Hq as ([q' d] & Hin & Hd).
  destruct d; [discriminate|]. injection Hd as ->. exact Hin.
Qed.

Lemma reads_lookup_last E containerId tr l1 p l2 :
  p ∉ l2 ->
  map_get p
    (fold_left (fun m '(filePath, c) => map_set filePath c m)
       (reads E containerId tr (l1 ++ p :: l2)) []) =
  Some (content_of
          (exec_result E
             (tr ++ map (fun q => Exec (cat_command containerId q)) l1)
             (cat_command containerId p))).
Proof.
  intros Hlast. rewrite reads_app, fold_left_app. cbn [reads fold_left].
  rewrite map_get_fold_other by (rewrite reads_keys; exact Hlast).
  apply map_get_set_eq.
Qed.

(** X22.  When the listing has no path twice, the object that
    [getFileContentTree] returns for a listed path is the object right
    after those of the paths listed before it; for a directory it has no
    content, and for any other path its content is what the read of that
    path answered, or the placeholder [Error reading file: ...] when that
    read failed; the reads of the other paths do not change it. *)
Theorem getFileContentTree_contents (E : Env)
    (containerId containerPath : string) (s : State) (output : string)
    (i : nat) (p : string) :
  let find := podman_exec_sh containerId (sh_find_content_tree containerPath) in
  let paths := listed_paths containerPath output in
  let stats := trace s ++ Exec find ::
               map (fun q => Exec (stat_command containerId q)) paths in
  let classified :=
    zip paths (stat_answers E containerId (trace s ++ [Exec find]) paths) in
  exec_result E (trace s) find = Ok output ->
  NoDup paths ->
  paths !! i = Some p ->
  let stat_answer :=
    exec_result E
      (trace s ++ Exec find ::
       map (fun q => Exec (stat_command containerId q)) (list.take i paths))
      (stat_command containerId p) in
  let read_answer :=
    exec_result E
      (stats ++ map (fun q => Exec (cat_command containerId q))
                  (files_of (list.take i classified)))
      (cat_command containerId p) in
  exists s' objects top item,
    getFileContentTree E containerId containerPath s = (s', Ok (objects, top)) /\
    objects !! S i = Some item /\
    without_children item =
      if is_directory stat_answer
      then new_item containerPath p true
      else with_content (new_item containerPath p false)
             (Some (content_of read_answer)).
Proof.
  intros find paths stats classified Hfind Hnd Hi stat_answer read_answer.
  rewrite (getFileContentTree_run E containerId containerPath s output Hfind).
  fold find paths stats classified.
  set (st := content_tree_after containerPath classified).
  set (fileContents :=
         fold_left (fun m '(filePath, c) => map_set filePath c m)
           (reads E containerId stats (files_of classified)) []).
  set (d := is_directory stat_answer).
  assert (Hfst : classified.*1 = paths).
  { apply fst_zip. rewrite stat_answers_length. reflexivity. }
  assert (Hc : classified !! i = Some (p, d)).
  { unfold classified. rewrite lookup_zip_with, Hi. cbn.
    rewrite (stat_answers_lookup _ _ _ _ i p Hi).
    unfold d, stat_answer. rewrite <- app_assoc. reflexivity. }
  assert (Hlast : p ∉ (list.drop (S i) classified).*1).
  { rewrite fmap_drop, Hfst. intros Hin.
    apply list_elem_of_lookup in Hin as [j Hj]. rewrite lookup_drop in Hj.
    pose proof (NoDup_lookup _ _ _ _ Hnd Hi Hj). lia. }
  assert (Hstore : cheap st !! S i = Some (new_item containerPath p d)).
  { unfold st. rewrite content_tree_after_store.
    change ((root_item containerPath :: ?l) !! S i) with (l !! i).
    rewrite list_lookup_fmap, Hc. reflexivity. }
  assert (Hp : map_get p (pathToItemMap st) = Some (S i))
    by apply (content_tree_after_last containerPath classified i p d Hc Hlast).
  assert (Hinj : forall q, map_get q (pathToItemMap st) = Some (S i) -> q = p).
  { intros q Hq.
    destruct (content_tree_after_keys containerPath classified q (S i) Hq)
      as (item & Hitem & Hpath).
    fold st in Hitem. rewrite Hstore in Hitem. injection Hitem as <-.
    symmetry. exact Hpath. }
  assert (Hset : set_contents (pathToItemMap st) fileContents (cheap st) !! S i =
                 Some (if d then new_item containerPath p true
                       else with_content (new_item containerPath p false)
                              (Some (content_of read_answer)))).
  { destruct d eqn:Hd.
    - rewrite set_contents_untouched; [exact Hstore|].
      intros q c Hin Hq. apply Hinj in Hq as ->.
      assert (Hkey : p ∈ fileContents.*1).
      { apply list_elem_of_fmap. exists (p, c). split; [reflexivity|exact Hin]. }
      apply fold_set_keys in Hkey as [Hkey|Hkey];
        [apply elem_of_nil in Hkey; contradiction|].
      rewrite reads_keys in Hkey. apply files_of_subset in Hkey.
      apply list_elem_of_lookup in Hkey as [j Hj].
      assert (Hpj : paths !! j = Some p).
      { rewrite <- Hfst, list_lookup_fmap, Hj. reflexivity. }
      pose proof (NoDup_lookup _ _ _ _ Hnd Hi Hpj) as <-.
      rewrite Hc in Hj. discriminate.
    - apply (set_contents_hit _ _ _ p); try assumption.
      + apply fold_set_NoDup. apply NoDup_nil_2.
      + unfold fileContents.
        rewrite <- (take_drop_middle classified i (p, false) Hc) at 1.
        unfold files_of at 1. rewrite omap_app. cbn [omap].
        apply reads_lookup_last.
        intros Hin. apply files_of_subset in Hin. apply Hlast.
        apply list_elem_of_fmap. exists (p, false). split; [reflexivity|exact Hin]. }
  pose proof (attach_all_without_children containerPath (cfileTree st)
                (map snd (pathToItemMap st))
                (set_contents (pathToItemMap st) fileContents (cheap st)))
    as Hattach.
  apply (f_equal (fun l => l !! S i)) in Hattach.
  rewrite !list_lookup_fmap, Hset in Hattach.
  destruct (attach_all containerPath (cfileTree st) (map snd (pathToItemMap st))
              (set_contents (pathToItemMap st) fileContents (cheap st)) !! S i)
    as [item|] eqn:Hitem; [|discriminate].
  eexists _, _, _, item. split; [reflexivity|]. split; [exact Hitem|].
  cbn [fmap option_fmap option_map] in Hattach. apply (inj Some) in Hattach.
  rewrite Hattach. destruct d; reflexivity.
Qed.

Lemma getFileContentTree_contents_witness :
  exists s' objects top item,
    getFileContentTree env_small_content_tree "c1" "/root" fresh =
      (s', Ok (objects, top)) /\
    objects !! 3%nat = Some item /\
    without_children item =
      with_content (new_item "/root" "/root/c" false)
        (Some "Error reading file: Command failed: cat").
Proof.
  assert (Hnd : NoDup (listed_paths "/root" small_listing)).
  { rewrite listed_small_tree.
    repeat (apply NoDup_cons; split; [intros H; not_in_explicit H|]).
    apply NoDup_nil_2. }
  destruct (getFileContentTree_contents env_small_content_tree "c1" "/root"
              fresh small_listing 2 "/root/c" eq_refl Hnd
              (f_equal (fun l => l !! 2%nat) listed_small_tree))
    as (s' & objects & top & item & Hrun & Hitem & Hw).
  exists s', objects, top, item. split; [exact Hrun|]. split; [exact Hitem|].
  rewrite Hw. vm_compute. reflexivity.
Defined.

(** ** Where [deleteContainer] fails *)

(** X23.  With the container inspected and its port determined,
    [deleteContainer] fails exactly when the stop of a running container
    or the removal of the container fails, and then with that error
    wrapped as [Failed to delete container: ...]: a failed stop ends the
    call before any removal, a failed removal of the container ends it
    before any removal of an image, and a failed removal of the image
    never fails the call. *)
Theorem deleteContainer_outcome (E : Env) (containerId : string) (s : State)
    (info : ContainerInfo) (src : string) :
  inspect_result E (trace s) containerId = Ok info ->
  port_source info src ->
  let port := parseInt src in
  let released :=
    trace s ++ [Exec (podman_inspect containerId); usedPorts_add port;
                usedPorts_delete port] in
  let announce :=
    console_log ["Stopping container before deletion: " +:+ containerId] in
  let stopping :=
    if Running info then [announce; Exec (podman_stop containerId)] else [] in
  let stop_answer :=
    if Running info
    then exec_result E (released ++ [announce]) (podman_stop containerId)
    else Ok EmptyString in
  let '(s', r) := deleteContainer E containerId s in
  match stop_answer with
  | Throw message =>
      r = Throw ("Failed to delete container: " +:+ message) /\
      trace s' = released ++ stopping
  | Ok _ =>
      match exec_result E (released ++ stopping) (podman_rm containerId) with
      | Throw message =>
          r = Throw ("Failed to delete container: " +:+ message) /\
          trace s' = released ++ stopping ++ [Exec (podman_rm containerId)]
      | Ok _ => r = Ok tt
      end
  end.
Proof.
  intros Hins Hsrc port released announce stopping stop_answer.
  subst released announce stopping stop_answer.
  unfold deleteContainer, try_catch, bind at 1, inspectContainer. rewrite Hins.
  unfold bind at 1. unfold bind at 1.
  rewrite (getPortFromContainer_run info src _ Hsrc). fold port.
  cbn [trace usedPorts].
  destruct (Running info) eqn:Hrun.
  - run_step. norm_trace.
    destruct (exec_result E _ (podman_stop containerId)) as [out1|m1] eqn:Hstop;
      norm_trace; [|split; reflexivity].
    destruct (exec_result E _ (podman_rm containerId)) as [out2|m2] eqn:Hrm;
      norm_trace; [|split; reflexivity].
    destruct (Image info) as [img|] eqn:Himg;
      cbn [truthy_opt default from_option id andb]; [|reflexivity].
    destruct (truthy img && includes "dec-nextjs-" img); [|reflexivity].
    destruct (exec_result E _ (podman_rmi img)); reflexivity.
  - run_step. norm_trace.
    destruct (exec_result E _ (podman_rm containerId)) as [out2|m2] eqn:Hrm;
      norm_trace; [|split; reflexivity].
    destruct (Image info) as [img|] eqn:Himg;
      cbn [truthy_opt default from_option id andb]; [|reflexivity].
    destruct (truthy img && includes "dec-nextjs-" img); [|reflexivity].
    destruct (exec_result E _ (podman_rmi img)); reflexivity.
Qed.

Lemma deleteContainer_outcome_witness :
  snd (deleteContainer env_stop_fails "c1" fresh) =
    Throw "Failed to delete container: Command failed: podman stop" /\
  commands (trace (fst (deleteContainer env_stop_fails "c1" fresh))) =
    [podman_inspect "c1"; podman_stop "c1"].
Proof.
  pose proof (deleteContainer_outcome env_stop_fails "c1" fresh
                (info_on_8000 true) "8000" eq_refl
                (or_introl (conj eq_refl eq_refl))) as H.
  cbv zeta in H.
  destruct (deleteContainer env_stop_fails "c1" fresh) as [[ports tr] r].
  vm_compute in H. destruct H as [-> ->]. split; reflexivity.
Defined.

(** ** The [children] arrays of [getFileContentTree] *)

Lemma content_tree_after_root containerPath classified :
  containerPath ∉ classified.*1 ->
  cfileTree (content_tree_after containerPath classified) !! containerPath
    = Some O.
Proof.
  induction classified as [|[p d] classified IH] using rev_ind; intros Hroot.
  - apply lookup_singleton_eq.
  - rewrite fmap_app in Hroot. apply not_elem_of_app in Hroot as [Hroot Hp].
    rewrite content_tree_after_snoc. cbn [add_to_content_tree cfileTree].
    rewrite lookup_insert_ne; [apply IH, Hroot|].
    intros ->. apply Hp. left.
Qed.

Lemma content_tree_after_entry containerPath classified :
  forall i p d,
    classified !! i = Some (p, d) ->
    p ∉ (list.drop (S i) classified).*1 ->
    cfileTree (content_tree_after containerPath classified) !! p = Some (S i).
Proof.
  induction classified as [|[q e] classified IH] using rev_ind;
    intros i p d Hi Hlast; [discriminate|].
  rewrite content_tree_after_snoc.
  cbn [add_to_content_tree cfileTree].
  rewrite content_tree_after_store. cbn [length]. rewrite length_fmap.
  apply lookup_app_Some in Hi as [Hi|[Hlen Hi]].
  - pose proof (lookup_lt_Some _ _ _ Hi) as Hlt.
    rewrite drop_app_le in Hlast by lia. rewrite fmap_app in Hlast.
    apply not_elem_of_app in Hlast as [Hlast Hq].
    rewrite lookup_insert_ne.
    + apply (IH i p d Hi Hlast).
    + intros ->. apply Hq. left.
  - destruct (i - length classified)%nat as [|k] eqn:Hk; [|discriminate].
    injection Hi as -> ->. replace i with (length classified) by lia.
    apply lookup_insert_eq.
Qed.

Lemma set_content_children a c objects :
  (fun it => with_content it None) <$> set_content a c objects =
  (fun it => with_content it None) <$> objects.
Proof.
  unfold set_content. destruct (objects !! a) as [item|] eqn:Ha; [|reflexivity].
  rewrite list_fmap_insert. apply list_insert_id.
  rewrite list_lookup_fmap, Ha. reflexivity.
Qed.

(** [set_contents] changes nothing but contents. *)
Lemma set_contents_children (m : JSMap addr) (fileContents : JSMap string) :
  forall objects,
    (fun it => with_content it None) <$> set_contents m fileContents objects =
    (fun it => with_content it None) <$> objects.
Proof.
  unfold set_contents.
  induction fileContents as [|[q c] fileContents IH]; intros objects;
    [reflexivity|].
  cbn [fold_left]. rewrite IH.
  destruct (map_get q m); [apply set_content_children|reflexivity].
Qed.

Lemma set_contents_lookup (m : JSMap addr) (fileContents : JSMap string)
    objects a item :
  objects !! a = Some item ->
  exists item',
    set_contents m fileContents objects !! a = Some item' /\
    path item' = path item /\ children item' = children item.
Proof.
  intros Ha.
  pose proof (set_contents_children m fileContents objects) as H.
  apply (f_equal (fun l => l !! a)) in H.
  rewrite !list_lookup_fmap, Ha in H.
  destruct (set_contents m fileContents objects !! a) as [item'|];
    [|discriminate].
  cbn in H. apply (inj Some) in H.
  exists item'. split; [reflexivity|].
  split; [exact (f_equal path H)|exact (f_equal children H)].
Qed.

Lemma attach_lookup containerPath fileTree b objects a item :
  objects !! a = Some item ->
  exists item',
    attach containerPath fileTree b objects !! a = Some item' /\
    path item' = path item /\
    (is_Some (children item) -> is_Some (children item')).
Proof.
  intros Ha.
  pose proof (attach_without_children containerPath fileTree b objects) as H.
  apply (f_equal (fun l => l !! a)) in H.
  rewrite !list_lookup_fmap, Ha in H.
  destruct (attach containerPath fileTree b objects !! a) as [item'|];
    [|discriminate].
  cbn in H. apply (inj Some) in H.
  exists item'. split; [reflexivity|].
  split; [exact (f_equal path H)|].
  intros [cs Hcs]. apply (f_equal children) in H. cbn in H. rewrite Hcs in H.
  destruct (children item'); [eauto|discriminate].
Qed.

Lemma attach_all_mono containerPath fileTree items :
  forall objects q it cs c,
    objects !! q = Some it -> children it = Some cs -> c ∈ cs ->
    exists it' cs',
      attach_all containerPath fileTree items objects !! q = Some it' /\
      path it' = path it /\ children it' = Some cs' /\ c ∈ cs'.
Proof.
  unfold attach_all.
  induction items as [|b items IH]; intros objects q it cs c Hq Hcs Hc;
    [eauto 6|].
  cbn [fold_left].
  assert (H1 : exists it1 cs1,
             attach containerPath fileTree b objects !! q = Some it1 /\
             path it1 = path it /\ children it1 = Some cs1 /\ c ∈ cs1).
  { unfold attach. destruct (objects !! b); [|eauto 6].
    destruct (fileTree !! _); [|eauto 6].
    apply (push_child_mono _ _ _ q it cs c Hq Hcs Hc). }
  destruct H1 as (it1 & cs1 & Hq1 & Hp1 & Hcs1 & Hc1).
  destruct (IH _ q it1 cs1 c Hq1 Hcs1 Hc1) as (it2 & cs2 & Hq2 & Hp2 & Hcs2 & Hc2).
  exists it2, cs2. repeat split; try assumption. congruence.
Qed.

(** The third loop attaches every object it visits whose parent is
    registered with a [children] array. *)
Lemma attach_all_attaches containerPath fileTree items :
  forall objects a item pa parent,
    a ∈ items ->
    objects !! a = Some item ->
    fileTree !! parent_key containerPath (path item) = Some pa ->
    objects !! pa = Some parent ->
    is_Some (children parent) ->
    exists parent' cs',
      attach_all containerPath fileTree items objects !! pa = Some parent' /\
      path parent' = path parent /\ children parent' = Some cs' /\ a ∈ cs'.
Proof.
  induction items as [|b items IH];
    intros objects a item pa parent Ha Hitem Hkey Hparent Hsome.
  - apply elem_of_nil in Ha. contradiction.
  - change (attach_all containerPath fileTree (b :: items) objects) with
      (attach_all containerPath fileTree items
         (attach containerPath fileTree b objects)).
    destruct (decide (a = b)) as [<-|Hne].
    + destruct Hsome as [cs Hcs].
      assert (H1 : exists parent1,
                 attach containerPath fileTree a objects !! pa = Some parent1 /\
                 path parent1 = path parent /\
                 children parent1 = Some (cs ++ [a])).
      { unfold attach. rewrite Hitem, Hkey. unfold push_child.
        rewrite Hparent, Hcs. rewrite list_lookup_insert_eq
          by (eapply lookup_lt_Some; eassumption).
        eexists. split; [reflexivity|]. split; reflexivity. }
      destruct H1 as (parent1 & Hparent1 & Hpath1 & Hcs1).
      destruct (attach_all_mono containerPath fileTree items _ pa parent1 _ a
                  Hparent1 Hcs1) as (parent2 & cs2 & H2 & Hp2 & Hcs2 & Hin2).
      { apply elem_of_app. right. left. }
      exists parent2, cs2. repeat split; try assumption. congruence.
    + apply elem_of_cons in Ha as [Ha|Ha]; [contradiction|].
      destruct (attach_lookup containerPath fileTree b objects a item Hitem)
        as (item1 & Hitem1 & Hpath1 & _).
      destruct (attach_lookup containerPath fileTree b objects pa parent Hparent)
        as (parent1 & Hparent1 & Hppath1 & Hsome1).
      rewrite <- Hpath1 in Hkey.
      destruct (IH _ a item1 pa parent1 Ha Hitem1 Hkey Hparent1 (Hsome1 Hsome))
        as (parent2 & cs2 & H2 & Hp2 & Hcs2 & Hin2).
      exists parent2, cs2. repeat split; try assumption. congruence.
Qed.

Lemma map_get_elem {V} (k : string) (v : V) (m : JSMap V) :
  map_get k m = Some v -> (k, v) ∈ m.
Proof.
  induction m as [|[k' v'] m IH]; cbn; [discriminate|].
  destruct (decide (k' = k)) as [->|Hne].
  - intros [= ->]. left.
  - intros H. right. apply IH, H.
Qed.

(** X24.  [getFileContentTree] attaches its objects only after all of
    them are made, so that the order of the listing does not matter:
    when the listing has no path twice, the object of a listed path is in
    the [children] array of the object of its parent as soon as the
    parent is the starting directory or is listed anywhere, before or
    after the path, and classified as a directory. *)
Theorem getFileContentTree_attaches_in_any_order (E : Env)
    (containerId containerPath : string) (s : State) (output : string)
    (i : nat) (p : string) :
  let find := podman_exec_sh containerId (sh_find_content_tree containerPath) in
  let paths := listed_paths containerPath output in
  exec_result E (trace s) find = Ok output ->
  NoDup paths ->
  paths !! i = Some p ->
  (parent_key containerPath p = containerPath \/
   exists j,
     paths !! j = Some (parent_key containerPath p) /\
     is_directory
       (exec_result E
          (trace s ++ Exec find ::
           map (fun q => Exec (stat_command containerId q)) (list.take j paths))
          (stat_command containerId (parent_key containerPath p))) = true) ->
  exists s' objects top pa parent cs,
    getFileContentTree E containerId containerPath s = (s', Ok (objects, top)) /\
    objects !! pa = Some parent /\
    path parent = parent_key containerPath p /\
    children parent = Some cs /\
    S i ∈ cs.
Proof.
  intros find paths Hfind Hnd Hi Hparent.
  rewrite (getFileContentTree_run E containerId containerPath s output Hfind).
  fold find paths.
  set (stats := trace s ++ Exec find ::
                map (fun q => Exec (stat_command containerId q)) paths).
  set (classified :=
         zip paths (stat_answers E containerId (trace s ++ [Exec find]) paths)).
  set (st := content_tree_after containerPath classified).
  set (fileContents :=
         fold_left (fun m '(filePath, c) => map_set filePath c m)
           (reads E containerId stats (files_of classified)) []).
  assert (Hfst : classified.*1 = paths).
  { apply fst_zip. rewrite stat_answers_length. reflexivity. }
  assert (Hanswer : forall j q, paths !! j = Some q ->
            classified !! j =
            Some (q, is_directory
                       (exec_result E
                          (trace s ++ Exec find ::
                           map (fun q' => Exec (stat_command containerId q'))
                             (list.take j paths))
                          (stat_command containerId q)))).
  { intros j q Hj. unfold classified. rewrite lookup_zip_with, Hj. cbn.
    rewrite (stat_answers_lookup _ _ _ _ j q Hj). cbn.
    rewrite <- app_assoc. reflexivity. }
  assert (Hlast : forall j q, paths !! j = Some q ->
            q ∉ (list.drop (S j) classified).*1).
  { intros j q Hj. rewrite fmap_drop, Hfst. intros Hin.
    apply list_elem_of_lookup in Hin as [k Hk]. rewrite lookup_drop in Hk.
    pose proof (NoDup_lookup _ _ _ _ Hnd Hj Hk). lia. }
  assert (Hstore : forall j q d, classified !! j = Some (q, d) ->
            cheap st !! S j = Some (new_item containerPath q d)).
  { intros j q d Hj. unfold st. rewrite content_tree_after_store.
    change ((root_item containerPath :: ?l) !! S j) with (l !! j).
    rewrite list_lookup_fmap, Hj. reflexivity. }
  (* the object of the path *)
  pose proof (Hanswer i p Hi) as Hci. set (d := is_directory _) in Hci.
  pose proof (Hstore i p d Hci) as Hitem0.
  destruct (set_contents_lookup (pathToItemMap st) fileContents _ _ _ Hitem0)
    as (item & Hitem & Hpath & _).
  change (path (new_item containerPath p d)) with p in Hpath.
  assert (Hvisited : S i ∈ map snd (pathToItemMap st)).
  { apply list_elem_of_In, in_map_iff. exists (p, S i). split; [reflexivity|].
    apply list_elem_of_In, map_get_elem.
    apply (content_tree_after_last containerPath classified i p d Hci
             (Hlast i p Hi)). }
  (* the object of the parent *)
  assert (Hpa : exists pa parent0,
             cfileTree st !! parent_key containerPath p = Some pa /\
             cheap st !! pa = Some parent0 /\
             path parent0 = parent_key containerPath p /\
             is_Some (children parent0)).
  { destruct Hparent as [Hroot|(j & Hj & Hdir)].
    - exists O, (root_item containerPath). rewrite Hroot. split.
      + apply content_tree_after_root. rewrite Hfst. intros Hin.
        apply list_elem_of_filter in Hin as [(_ & Hin) _]. apply Hin. reflexivity.
      + split; [unfold st; rewrite content_tree_after_store; reflexivity|].
        split; [reflexivity|]. eexists. reflexivity.
    - pose proof (Hanswer j _ Hj) as Hcj. rewrite Hdir in Hcj.
      exists (S j), (new_item containerPath (parent_key containerPath p) true).
      split; [apply (content_tree_after_entry _ _ j _ true Hcj (Hlast j _ Hj))|].
      split; [apply (Hstore j _ true Hcj)|].
      split; [reflexivity|]. eexists. reflexivity. }
  destruct Hpa as (pa & parent0 & Hkey & Hparent0 & Hppath & Hsome).
  destruct (set_contents_lookup (pathToItemMap st) fileContents _ _ _ Hparent0)
    as (parent1 & Hparent1 & Hppath1 & Hchildren1).
  rewrite <- Hchildren1 in Hsome. rewrite <- Hpath in Hkey.
  destruct (attach_all_attaches containerPath (cfileTree st)
              (map snd (pathToItemMap st)) _ (S i) item pa parent1
              Hvisited Hitem Hkey Hparent1 Hsome)
    as (parent2 & cs2 & Hparent2 & Hppath2 & Hcs2 & Hin2).
  eexists _, _, _, pa, parent2, cs2. split; [reflexivity|].
  split; [exact Hparent2|]. split; [congruence|]. split; assumption.
Qed.

Lemma listed_unsorted :
  listed_paths "/root" unsorted_listing = ["/root/a/b.txt"; "/root/a"].
Proof. vm_compute. reflexivity. Qed.

Lemma getFileContentTree_attaches_in_any_order_witness :
  exists s' objects top pa parent cs,
    getFileContentTree env_unsorted_content_tree "c1" "/root" fresh =
      (s', Ok (objects, top)) /\
    objects !! pa = Some parent /\
    path parent = parent_key "/root" "/root/a/b.txt" /\
    children parent = Some cs /\
    1%nat ∈ cs.
Proof.
  apply (getFileContentTree_attaches_in_any_order env_unsorted_content_tree
           "c1" "/root" fresh unsorted_listing 0 "/root/a/b.txt" eq_refl).
  - rewrite listed_unsorted.
    repeat (apply NoDup_cons; split; [intros H; not_in_explicit H|]).
    apply NoDup_nil_2.
  - rewrite listed_unsorted. reflexivity.
  - right. exists 1%nat. rewrite listed_unsorted. split; reflexivity.
Defined.

(** ** What becomes of a listed path in [getFileTree] *)

(** The object of the [i]-th listed path: it carries the classification
    of its [stat], and it is pushed onto the [children] array of the
    object registered for its parent when that object has such an
    array. *)
Lemma getFileTree_object_and_parent (E : Env)
    (containerId containerPath : string) (s : State) (output : string)
    (i : nat) (p : string) :
  let find := podman_exec_sh containerId (sh_find_tree containerPath) in
  let paths := listed_paths containerPath output in
  let answer (j : nat) (q : string) :=
    exec_result E
      (trace s ++ Exec find ::
       map (fun q' => Exec (stat_command containerId q')) (list.take j paths))
      (stat_command containerId q) in
  exec_result E (trace s) find = Ok output ->
  paths !! i = Some p ->
  exists objects top item,
    snd (getFileTree E containerId containerPath s) = Ok (objects, top) /\
    objects !! S i = Some item /\
    without_children item =
      new_item containerPath p (is_directory (answer i p)) /\
    ((parent_key containerPath p = containerPath \/
      parent_key containerPath p ∈ list.take i paths) ->
     (forall j, paths !! j = Some (parent_key containerPath p) ->
        is_directory (answer j (parent_key containerPath p)) = true) ->
     exists pa parent cs,
       objects !! pa = Some parent /\
       path parent = parent_key containerPath p /\
       children parent = Some cs /\
       S i ∈ cs /\
       (parent_key containerPath p = containerPath -> S i ∈ top)).
Proof.
  intros find paths answer Hfind Hi.
  rewrite (getFileTree_run E containerId containerPath s output Hfind).
  fold find. fold paths. cbn [snd].
  set (answers := stat_answers E containerId (trace s ++ [Exec find]) paths).
  set (classified := zip paths answers).
  assert (Hlen : length answers = length paths) by apply stat_answers_length.
  assert (Hfst : classified.*1 = paths) by (apply fst_zip; lia).
  assert (Hanswer : forall j q, paths !! j = Some q ->
            classified !! j = Some (q, is_directory (answer j q))).
  { intros j q Hj. unfold classified. rewrite lookup_zip_with, Hj. cbn.
    unfold answers. rewrite (stat_answers_lookup _ _ _ _ j q Hj). cbn.
    unfold answer. rewrite <- app_assoc. reflexivity. }
  pose proof (Hanswer i p Hi) as Hci.
  set (d := is_directory (answer i p)) in *.
  pose proof (tree_after_store containerPath classified) as Hfinal.
  assert (Hlook : (without_children <$>
                     heap (tree_after containerPath classified)) !! S i
                  = Some (new_item containerPath p d)).
  { rewrite Hfinal.
    change ((root_item containerPath :: ?l) !! S i) with (l !! i).
    rewrite list_lookup_fmap, Hci. reflexivity. }
  rewrite list_lookup_fmap in Hlook.
  destruct (heap (tree_after containerPath classified) !! S i)
    as [item|] eqn:Hitem; [|discriminate].
  cbn [fmap option_fmap option_map] in Hlook. apply (inj Some) in Hlook.
  eexists _, _, item. split; [reflexivity|]. split; [exact Hitem|].
  split; [exact Hlook|].
  intros Hlisted Hdirs.
  assert (Hp : p ∈ paths) by (apply list_elem_of_lookup; eauto).
  assert (Hne : p <> containerPath).
  { apply list_elem_of_filter in Hp as [(_ & Hp) _]. exact Hp. }
  assert (Hall : Forall (fun q => q <> containerPath) paths).
  { apply Forall_forall. intros q Hq.
    apply list_elem_of_filter in Hq as [(_ & Hq) _]. exact Hq. }
  (* the tree when the loop reaches the path *)
  set (st := tree_after containerPath (list.take i classified)).
  assert (Hsplit : tree_after containerPath classified =
                   fold_left (fun st '(p, d) => add_to_tree containerPath st p d)
                     (list.drop (S i) classified)
                     (add_to_tree containerPath st p d)).
  { unfold tree_after at 1. rewrite <- (take_drop_middle classified i (p, d) Hci) at 1.
    rewrite fold_left_app. reflexivity. }
  assert (Htake : (list.take i classified).*1 = list.take i paths)
    by (rewrite <- Hfst, fmap_take; reflexivity).
  (* the parent is registered *)
  assert (Hkey : is_Some (fileTree st !! parent_key containerPath p)).
  { apply tree_after_listed. rewrite Htake. exact Hlisted. }
  destruct Hkey as [pa Hpa].
  destruct (tree_after_entries_ok containerPath _ _ _ Hpa)
    as (parent & Hparent & Hpath).
  (* and it has a children array *)
  assert (Hchildren : exists cs, children parent = Some cs).
  { pose proof (tree_after_store containerPath (list.take i classified)) as Hstore.
    apply (f_equal (fun l => l !! pa)) in Hstore.
    rewrite list_lookup_fmap in Hstore.
    pose proof Hparent as Hparent'. unfold st in Hparent'.
    rewrite Hparent' in Hstore. clear Hparent'.
    cbn [fmap option_fmap option_map] in Hstore.
    destruct pa as [|j].
    - cbn in Hstore. injection Hstore as _ _ _ Hc _.
      destruct (children parent); [eauto|discriminate].
    - change ((root_item containerPath :: ?l) !! S j) with (l !! j) in Hstore.
      rewrite list_lookup_fmap in Hstore.
      destruct (list.take i classified !! j) as [[q dq]|] eqn:Hj; [|discriminate].
      cbn in Hstore. injection Hstore as _ Hq _ Hc _.
      apply lookup_take_Some in Hj as [Hj Hji].
      assert (Hqj : paths !! j = Some q).
      { rewrite <- Hfst, list_lookup_fmap, Hj. reflexivity. }
      rewrite (Hanswer j q Hqj) in Hj. injection Hj as <-.
      assert (Hqp : q = parent_key containerPath p) by congruence.
      rewrite Hqp in Hqj, Hc. rewrite (Hdirs j Hqj) in Hc.
      destruct (children parent); [eauto|discriminate]. }
  destruct Hchildren as [cs Hcs].
  destruct (add_to_tree_attaches containerPath st p d pa parent cs
              Hne Hpa Hparent Hcs) as (parent1 & Hparent1 & Hpath1 & Hcs1).
  assert (Hsize : length (heap st) = S i).
  { unfold st. rewrite tree_after_length, length_take.
    apply lookup_lt_Some in Hci. lia. }
  rewrite Hsize in Hcs1.
  destruct (fold_add_to_tree_mono containerPath (list.drop (S i) classified)
              _ pa parent1 _ (S i) Hparent1 Hcs1)
    as (parent2 & cs2 & Hparent2 & Hpath2 & Hcs2 & Hin2).
  { apply elem_of_app. right. left. }
  rewrite <- Hsplit in Hparent2.
  exists pa, parent2, cs2.
  split; [exact Hparent2|]. split; [congruence|]. split; [exact Hcs2|].
  split; [exact Hin2|].
  intros Hroot.
  destruct (tree_after_children_ok containerPath (list.take i classified))
    as [_ Hroot_i].
  { rewrite Htake. apply Forall_take. exact Hall. }
  destruct (tree_after_children_ok containerPath classified) as [_ Hroot_n].
  { rewrite Hfst. exact Hall. }
  fold st in Hroot_i. rewrite Hroot, Hroot_i in Hpa. injection Hpa as <-.
  unfold root_children, children_at. rewrite Hroot_n, Hparent2, Hcs2.
  exact Hin2.
Qed.

(** X16.  The object made for a listed path carries the classification
    that its [stat] came back with; a path whose [stat] fails does not
    fail the traversal and gets a file object, with no [children] array
    and no content.  The path is not dropped either, unless its parent
    is: when the parent is the starting directory, or was listed before
    the path and classified as a directory, the object is in the
    [children] array of the object of the parent, which for a path
    directly under the starting directory is the returned array. *)
Theorem getFileTree_classifies_by_stat (E : Env) (containerId containerPath : string)
    (s : State) (output : string) (i : nat) (p : string) :
  let find := podman_exec_sh containerId (sh_find_tree containerPath) in
  let paths := listed_paths containerPath output in
  let answer (j : nat) (q : string) :=
    exec_result E
      (trace s ++ Exec find ::
       map (fun q' => Exec (stat_command containerId q')) (list.take j paths))
      (stat_command containerId q) in
  exec_result E (trace s) find = Ok output ->
  paths !! i = Some p ->
  exists objects top item,
    snd (getFileTree E containerId containerPath s) = Ok (objects, top) /\
    objects !! S i = Some item /\
    without_children item =
      new_item containerPath p (is_directory (answer i p)) /\
    (forall message, answer i p = Throw message ->
       item = new_item containerPath p false) /\
    ((parent_key containerPath p = containerPath \/
      parent_key containerPath p ∈ list.take i paths) ->
     (forall j, paths !! j = Some (parent_key containerPath p) ->
        is_directory (answer j (parent_key containerPath p)) = true) ->
     exists pa parent cs,
       objects !! pa = Some parent /\
       path parent = parent_key containerPath p /\
       children parent = Some cs /\
       S i ∈ cs /\
       (parent_key containerPath p = containerPath -> S i ∈ top)).
Proof.
  intros find paths answer Hfind Hi.
  destruct (getFileTree_object_and_parent E containerId containerPath s output
              i p Hfind Hi) as (objects & top & item & Hres & Hitem & Hw & Hparent).
  exists objects, top, item.
  split; [exact Hres|]. split; [exact Hitem|]. split; [exact Hw|].
  split; [|exact Hparent].
  intros message Hthrow. fold find paths in Hw. unfold answer in Hthrow.
  rewrite Hthrow in Hw. apply (without_children_file _ _ _ Hw).
Qed.

Lemma getFileTree_classifies_by_stat_witness :
  exists objects top,
    snd (getFileTree env_stat_fails "c1" "/root" fresh) = Ok (objects, top) /\
    objects !! 1%nat = Some (new_item "/root" "/root/a" false) /\
    1%nat ∈ top.
Proof.
  destruct (getFileTree_classifies_by_stat env_stat_fails "c1" "/root" fresh
              small_listing 0 "/root/a" eq_refl
              (f_equal (fun l => l !! 0%nat) listed_small_tree))
    as (objects & top & item & Hres & Hitem & _ & Hfile & Hparent).
  exists objects, top. split; [exact Hres|]. split.
  - rewrite Hitem. f_equal. apply (Hfile "Command failed: stat"). reflexivity.
  - destruct Hparent as (pa & parent & cs & _ & _ & _ & _ & Htop).
    + left. reflexivity.
    + intros j Hj. rewrite listed_small_tree in Hj.
      destruct j as [|[|[|j]]]; discriminate.
    + apply Htop. reflexivity.
Defined.

(** ** What becomes of a listed path in [getFileContentTree] *)

(** The object of the [i]-th path of a listing without repetitions: it
    carries the classification of its [stat] and, unless it is a
    directory, the content that its read came back with; the third loop
    pushes it onto the [children] array of the object registered for its
    parent when that object has such an array. *)
Lemma getFileContentTree_object_and_parent (E : Env)
    (containerId containerPath : string) (s : State) (output : string)
    (i : nat) (p : string) :
  let find := podman_exec_sh containerId (sh_find_content_tree containerPath) in
  let paths := listed_paths containerPath output in
  let stats := trace s ++ Exec find ::
               map (fun q => Exec (stat_command containerId q)) paths in
  let classified :=
    zip paths (stat_answers E containerId (trace s ++ [Exec find]) paths) in
  let answer (j : nat) (q : string) :=
    exec_result E
      (trace s ++ Exec find ::
       map (fun q' => Exec (stat_command containerId q')) (list.take j paths))
      (stat_command containerId q) in
  let read_answer :=
    exec_result E
      (stats ++ map (fun q => Exec (cat_command containerId q))
                  (files_of (list.take i classified)))
      (cat_command containerId p) in
  exec_result E (trace s) find = Ok output ->
  NoDup paths ->
  paths !! i = Some p ->
  exists s' objects top item,
    getFileContentTree E containerId containerPath s = (s', Ok (objects, top)) /\
    objects !! S i = Some item /\
    without_children item =
      (if is_directory (answer i p)
       then new_item containerPath p true
       else with_content (new_item containerPath p false)
              (Some (content_of read_answer))) /\
    ((parent_key containerPath p = containerPath \/
      exists j, paths !! j = Some (parent_key containerPath p) /\
                is_directory (answer j (parent_key containerPath p)) = true) ->
     exists pa parent cs,
       objects !! pa = Some parent /\
       path parent = parent_key containerPath p /\
       children parent = Some cs /\
       S i ∈ cs /\
       (parent_key containerPath p = containerPath -> S i ∈ top)).
Proof.
  intros find paths stats classified answer read_answer Hfind Hnd Hi.
  rewrite (getFileContentTree_run E containerId containerPath s output Hfind).
  fold find paths stats classified.
  set (st := content_tree_after containerPath classified).
  set (fileContents :=
         fold_left (fun m '(filePath, c) => map_set filePath c m)
           (reads E containerId stats (files_of classified)) []).
  set (heap1 := set_contents (pathToItemMap st) fileContents (cheap st)).
  set (d := is_directory (answer i p)).
  assert (Hfst : classified.*1 = paths).
  { apply fst_zip. rewrite stat_answers_length. reflexivity. }
  assert (Hanswer : forall j q, paths !! j = Some q ->
            classified !! j = Some (q, is_directory (answer j q))).
  { intros j q Hj. unfold classified. rewrite lookup_zip_with, Hj. cbn.
    rewrite (stat_answers_lookup _ _ _ _ j q Hj). cbn.
    unfold answer. rewrite <- app_assoc. reflexivity. }
  assert (Hlast : forall j q, paths !! j = Some q ->
            q ∉ (list.drop (S j) classified).*1).
  { intros j q Hj. rewrite fmap_drop, Hfst. intros Hin.
    apply list_elem_of_lookup in Hin as [k Hk]. rewrite lookup_drop in Hk.
    pose proof (NoDup_lookup _ _ _ _ Hnd Hj Hk). lia. }
  assert (Hstore : forall j q e, classified !! j = Some (q, e) ->
            cheap st !! S j = Some (new_item containerPath q e)).
  { intros j q e Hj. unfold st. rewrite content_tree_after_store.
    change ((root_item containerPath :: ?l) !! S j) with (l !! j).
    rewrite list_lookup_fmap, Hj. reflexivity. }
  pose proof (Hanswer i p Hi) as Hc. fold d in Hc.
  pose proof (Hstore i p d Hc) as Hitem0.
  assert (Hp : map_get p (pathToItemMap st) = Some (S i))
    by apply (content_tree_after_last containerPath classified i p d Hc
                (Hlast i p Hi)).
  assert (Hinj : forall q, map_get q (pathToItemMap st) = Some (S i) -> q = p).
  { intros q Hq.
    destruct (content_tree_after_keys containerPath classified q (S i) Hq)
      as (item & Hitem & Hpath).
    fold st in Hitem. rewrite Hitem0 in Hitem. injection Hitem as <-.
    symmetry. exact Hpath. }
  (* the object after the contents are set *)
  assert (Hset : heap1 !! S i =
                 Some (if d then new_item containerPath p true
                       else with_content (new_item containerPath p false)
                              (Some (content_of read_answer)))).
  { unfold heap1. destruct d eqn:Hd.
    - rewrite set_contents_untouched; [exact Hitem0|].
      intros q c Hin Hq. apply Hinj in Hq as ->.
      assert (Hkey : p ∈ fileContents.*1).
      { apply list_elem_of_fmap. exists (p, c). split; [reflexivity|exact Hin]. }
      apply fold_set_keys in Hkey as [Hkey|Hkey];
        [apply elem_of_nil in Hkey; contradiction|].
      rewrite reads_keys in Hkey. apply files_of_subset in Hkey.
      apply list_elem_of_lookup in Hkey as [j Hj].
      assert (Hpj : paths !! j = Some p).
      { rewrite <- Hfst, list_lookup_fmap, Hj. reflexivity. }
      pose proof (NoDup_lookup _ _ _ _ Hnd Hi Hpj) as <-.
      rewrite Hc in Hj. discriminate.
    - apply (set_contents_hit _ _ _ p); try assumption.
      + apply fold_set_NoDup. apply NoDup_nil_2.
      + unfold fileContents.
        rewrite <- (take_drop_middle classified i (p, false) Hc) at 1.
        unfold files_of at 1. rewrite omap_app. cbn [omap].
        apply reads_lookup_last.
        intros Hin. apply files_of_subset in Hin. apply (Hlast i p Hi).
        apply list_elem_of_fmap. exists (p, false). split; [reflexivity|exact Hin]. }
  set (item1 := if d then new_item containerPath p true
                else with_content (new_item containerPath p false)
                       (Some (content_of read_answer))) in *.
  assert (Hpath1 : path item1 = p) by (unfold item1; destruct d; reflexivity).
  (* the object in the result *)
  pose proof (attach_all_without_children containerPath (cfileTree st)
                (map snd (pathToItemMap st)) heap1) as Hattach.
  apply (f_equal (fun l => l !! S i)) in Hattach.
  rewrite !list_lookup_fmap, Hset in Hattach.
  destruct (attach_all containerPath (cfileTree st) (map snd (pathToItemMap st))
              heap1 !! S i) as [item|] eqn:Hitem; [|discriminate].
  cbn [fmap option_fmap option_map] in Hattach. apply (inj Some) in Hattach.
  eexists _, _, _, item. split; [reflexivity|]. split; [exact Hitem|]. split.
  { rewrite Hattach. unfold item1. destruct d; reflexivity. }
  intros Hparent.
  assert (Hvisited : S i ∈ map snd (pathToItemMap st)).
  { apply list_elem_of_In, in_map_iff. exists (p, S i). split; [reflexivity|].
    apply list_elem_of_In, map_get_elem. exact Hp. }
  assert (Hroot : cfileTree st !! containerPath = Some O).
  { apply content_tree_after_root. rewrite Hfst. intros Hin.
    apply list_elem_of_filter in Hin as [(_ & Hin) _]. apply Hin. reflexivity. }
  (* the object of the parent *)
  assert (Hpa : exists pa parent0,
             cfileTree st !! parent_key containerPath p = Some pa /\
             cheap st !! pa = Some parent0 /\
             path parent0 = parent_key containerPath p /\
             is_Some (children parent0)).
  { destruct Hparent as [Hpk|(j & Hj & Hdir)].
    - exists O, (root_item containerPath). rewrite Hpk.
      split; [exact Hroot|].
      split; [unfold st; rewrite content_tree_after_store; reflexivity|].
      split; [reflexivity|]. eexists. reflexivity.
    - pose proof (Hanswer j _ Hj) as Hcj. rewrite Hdir in Hcj.
      exists (S j), (new_item containerPath (parent_key containerPath p) true).
      split; [apply (content_tree_after_entry _ _ j _ true Hcj (Hlast j _ Hj))|].
      split; [apply (Hstore j _ true Hcj)|].
      split; [reflexivity|]. eexists. reflexivity. }
  destruct Hpa as (pa & parent0 & Hkey & Hparent0 & Hppath & Hsome).
  destruct (set_contents_lookup (pathToItemMap st) fileContents _ _ _ Hparent0)
    as (parent1 & Hparent1 & Hppath1 & Hchildren1).
  fold heap1 in Hparent1.
  rewrite <- Hchildren1 in Hsome.
  pose proof Hkey as Hkey1. rewrite <- Hpath1 in Hkey1.
  destruct (attach_all_attaches containerPath (cfileTree st)
              (map snd (pathToItemMap st)) _ (S i) item1 pa parent1
              Hvisited Hset Hkey1 Hparent1 Hsome)
    as (parent2 & cs2 & Hparent2 & Hppath2 & Hcs2 & Hin2).
  exists pa, parent2, cs2.
  split; [exact Hparent2|]. split; [congruence|]. split; [exact Hcs2|].
  split; [exact Hin2|].
  intros Hpk. rewrite Hpk, Hroot in Hkey. injection Hkey as <-.
  rewrite Hroot. unfold children_at. rewrite Hparent2, Hcs2. exact Hin2.
Qed.

(** ** C10: a path whose [stat] fails *)




(** ** C7: a file that cannot be read *)

(** C7.  No failing read fails the traversal.  [readFilesBatch] returns
    a map for every list of paths, and the map holds for a path (at its
    last mention in the list) what its own read came back with: the
    content that [readFile] returned, or, when the read failed, the
    placeholder [Error reading file: ] followed by the message of the
    failure.  [getFileContentTree] succeeds whenever its listing does,
    and, the listing naming no path twice, the object of every path that
    is not classified as a directory has as content what the read of that
    very path came back with, in the same way: a failed read changes the
    content of its own file only. *)
Theorem failed_read_gives_placeholder (E : Env) (containerId containerPath : string) :
  (forall (s : State) (filePaths : list string) (i : nat) (p : string),
     filePaths !! i = Some p ->
     p ∉ list.drop (S i) filePaths ->
     exists s' results,
       readFilesBatch E containerId filePaths s = (s', Ok results) /\
       match exec_result E
               (trace s ++ map (fun q => Exec (cat_command containerId q))
                             (list.take i filePaths))
               (cat_command containerId p) with
       | Ok output => map_get p results = Some (strip_BOM output)
       | Throw message =>
           map_get p results = Some ("Error reading file: " +:+ message)
       end) /\
  (forall (s : State) (output : string),
     let find := podman_exec_sh containerId (sh_find_content_tree containerPath) in
     exec_result E (trace s) find = Ok output ->
     (exists result,
        snd (getFileContentTree E containerId containerPath s) = Ok result) /\
     forall (i : nat) (p : string),
       let paths := listed_paths containerPath output in
       let stats := trace s ++ Exec find ::
                    map (fun q => Exec (stat_command containerId q)) paths in
       let classified :=
         zip paths (stat_answers E containerId (trace s ++ [Exec find]) paths) in
       NoDup paths ->
       paths !! i = Some p ->
       is_directory
         (exec_result E
            (trace s ++ Exec find ::
             map (fun q => Exec (stat_command containerId q)) (list.take i paths))
            (stat_command containerId p)) = false ->
       exists objects top item,
         snd (getFileContentTree E containerId containerPath s) =
           Ok (objects, top) /\
         objects !! S i = Some item /\
         path item = p /\
         match exec_result E
                 (stats ++ map (fun q => Exec (cat_command containerId q))
                             (files_of (list.take i classified)))
                 (cat_command containerId p) with
         | Ok output => content item = Some (strip_BOM output)
         | Throw message =>
             content item = Some ("Error reading file: " +:+ message)
         end).
Proof.
  split.
  - intros s filePaths i p Hi Hlast.
    rewrite readFilesBatch_run. eexists _, _. split; [reflexivity|].
    assert (Hget : map_get p
                     (fold_left (fun m '(filePath, c) => map_set filePath c m)
                        (reads E containerId (trace s) filePaths) []) =
                   Some (content_of
                           (exec_result E
                              (trace s ++
                               map (fun q => Exec (cat_command containerId q))
                                 (list.take i filePaths))
                              (cat_command containerId p)))).
    { rewrite <- (take_drop_middle filePaths i p Hi) at 1.
      apply reads_lookup_last. exact Hlast. }
    rewrite Hget.
    destruct (exec_result E _ (cat_command containerId p)); reflexivity.
  - intros s output find Hfind. split.
    + rewrite (getFileContentTree_run E containerId containerPath s output Hfind).
      eexists. reflexivity.
    + intros i p paths stats classified Hnd Hi Hfile.
      destruct (getFileContentTree_object_and_parent E containerId containerPath
                  s output i p Hfind Hnd Hi)
        as (s' & objects & top & item & Hres & Hitem & Hw & _).
      fold find paths stats classified in Hw. rewrite Hfile in Hw.
      exists objects, top, item. split; [rewrite Hres; reflexivity|].
      split; [exact Hitem|]. split; [exact (f_equal path Hw)|].
      apply (f_equal content) in Hw. cbn in Hw. rewrite Hw.
      destruct (exec_result E _ (cat_command containerId p)); reflexivity.
Qed.

Lemma failed_read_gives_placeholder_witness :
  exists objects top unreadable readable,
    snd (getFileContentTree env_small_content_tree "c1" "/root" fresh) =
      Ok (objects, top) /\
    objects !! 3%nat = Some unreadable /\
    path unreadable = "/root/c" /\
    content unreadable = Some "Error reading file: Command failed: cat" /\
    objects !! 2%nat = Some readable /\
    path readable = "/root/a/b.txt" /\
    content readable = Some "hello".
Proof.
  destruct (failed_read_gives_placeholder env_small_content_tree "c1" "/root")
    as (_ & Htree).
  destruct (Htree fresh small_listing eq_refl) as (_ & Hfiles).
  assert (Hnd : NoDup (listed_paths "/root" small_listing)).
  { rewrite listed_small_tree.
    repeat (apply NoDup_cons; split; [intros H; not_in_explicit H|]).
    apply NoDup_nil_2. }
  destruct (Hfiles 2%nat "/root/c" Hnd
              (f_equal (fun l => l !! 2%nat) listed_small_tree) eq_refl)
    as (objects & top & unreadable & Hres & Hitem & Hpath & Hcontent).
  destruct (Hfiles 1%nat "/root/a/b.txt" Hnd
              (f_equal (fun l => l !! 1%nat) listed_small_tree) eq_refl)
    as (objects' & top' & readable & Hres' & Hitem' & Hpath' & Hcontent').
  rewrite Hres in Hres'. injection Hres' as <- <-.
  exists objects, top, unreadable, readable.
  split; [exact Hres|]. split; [exact Hitem|]. split; [exact Hpath|].
  split; [exact Hcontent|]. split; [exact Hitem'|]. split; [exact Hpath'|].
  exact Hcontent'.
Defined.

(** ** C8: the temporary file and the retry of [writeFile] *)

(** C8 as it was claimed fails: a failed first copy is not always
    followed by a second one.  When the container has stopped, the copy
    is rejected and so is the [mkdir]; [writeFile] then unlinks the
    temporary file and fails with the error of the [mkdir], having copied
    once. *)
Lemma writeFile_mkdir_failure_no_retry :
  let run := writeFile env_container_stopped "c1" "src/app/page.tsx" "hello"
               fresh in
  commands (trace (fst run)) =
    [fs_writeFile "/tmp/file-6fa459ea" "hello";
     podman_cp "/tmp/file-6fa459ea" "c1" "/app/my-nextjs-app/src/app/page.tsx";
     podman_exec_mkdir "c1" "/app/my-nextjs-app/src/app";
     fs_unlink "/tmp/file-6fa459ea"] /\
  copies (commands (trace (fst run))) = 1%nat /\
  snd run = Throw "Command failed: podman exec".
Proof. vm_compute. repeat split; reflexivity. Qed.

(** C8, as amended.  Whatever the commands answer, the last command of
    [writeFile] is the unlink of its temporary file: after a successful
    copy and on every error path.  When the first copy is rejected, the
    next command is the [mkdir] of the directory of the target; if the
    [mkdir] succeeds the copy is issued once more, and that is the only
    retry, and if the [mkdir] is rejected the call fails with that error
    and the copy is not retried.  A first copy that succeeds is the only
    copy, and no directory is made.  After a copy that succeeded the
    verification read is issued, and when it is rejected the call still
    succeeds, unless an unlink is rejected. *)
Theorem writeFile_cleanup_and_retry (E : Env)
    (containerId filePath content : string) (s : State) :
  let tempFile := tempFile_of E filePath content s in
  let target := getAbsolutePath filePath in
  let cp := podman_cp tempFile containerId target in
  let mk := podman_exec_mkdir containerId (substring_to_last "/" target) in
  let hd := podman_exec_head containerId target in
  let ul := fs_unlink tempFile in
  let '(s', r) := writeFile E containerId filePath content s in
  exists new, trace s' = trace s ++ new /\
    let script := answered E (trace s) new in
    last script.*1 = Some ul /\
    (forall e, script !! 1%nat = Some (cp, Throw e) ->
       exists a, script !! 2%nat = Some (mk, a) /\
         match a with
         | Ok _ =>
             (exists a', script !! 3%nat = Some (cp, a')) /\
             copies script.*1 = 2%nat
         | Throw m => copies script.*1 = 1%nat /\ r = Throw m
         end) /\
    (forall o, script !! 1%nat = Some (cp, Ok o) ->
       copies script.*1 = 1%nat /\ mk ∉ script.*1) /\
    ((exists o, (cp, Ok o) ∈ script) -> hd ∈ script.*1) /\
    (forall v, (hd, Throw v) ∈ script ->
       (r = Ok tt <-> forall m, (ul, Throw m) ∉ script)).
Proof.
  intros tempFile target cp mk hd ul.
  pose proof (writeFile_script E containerId filePath content s) as H.
  cbv zeta in H. fold tempFile in H. fold target in H.
  fold cp in H. fold mk in H. fold hd in H. fold ul in H.
  destruct (writeFile E containerId filePath content s) as [s' r].
  destruct H as (_ & new & Htr & H). exists new. split; [exact Htr|].
  cbv zeta.
  by_script H; rewrite Hs, Hr; clear Hs Hr; cbn [fmap list_fmap fst].
  - split; [reflexivity|]. split; [intros ? [=]|]. split; [intros ? [=]|].
    split; [intros (o & Hin); not_in_explicit Hin|].
    intros v Hin. not_in_explicit Hin.
  - split; [reflexivity|]. split; [intros ? [=]|].
    split.
    { intros ? _. split; [reflexivity|]. intros Hin. not_in_explicit Hin. }
    split; [intros _; right; right; left|].
    intros v _. split; [intros _ m' Hin; not_in_explicit Hin|reflexivity].
  - split; [reflexivity|]. split; [intros ? [=]|].
    split.
    { intros ? _. split; [reflexivity|]. intros Hin. not_in_explicit Hin. }
    split; [intros _; right; right; left|].
    intros v _. split; [discriminate|]. intros Hno. exfalso.
    apply (Hno m). right. right. right. left.
  - split; [reflexivity|].
    split.
    { intros ? _. eexists. split; [reflexivity|]. split; reflexivity. }
    split; [intros ? [=]|].
    split; [intros (o & Hin); not_in_explicit Hin|].
    intros v Hin. not_in_explicit Hin.
  - split; [reflexivity|].
    split.
    { intros ? _. eexists. split; [reflexivity|].
      split; [eexists; reflexivity|reflexivity]. }
    split; [intros ? [=]|].
    split; [intros (o & Hin); not_in_explicit Hin|].
    intros v Hin. not_in_explicit Hin.
  - split; [reflexivity|].
    split.
    { intros ? _. eexists. split; [reflexivity|].
      split; [eexists; reflexivity|reflexivity]. }
    split; [intros ? [=]|].
    split; [intros _; do 4 right; left|].
    intros v _. split; [intros _ m' Hin; not_in_explicit Hin|reflexivity].
  - split; [reflexivity|].
    split.
    { intros ? _. eexists. split; [reflexivity|].
      split; [eexists; reflexivity|reflexivity]. }
    split; [intros ? [=]|].
    split; [intros _; do 4 right; left|].
    intros v _. split; [discriminate|]. intros Hno. exfalso.
    apply (Hno m). do 5 right. left.
Qed.

Lemma writeFile_cleanup_and_retry_witness :
  let run := writeFile env_copy_needs_mkdir "c1" "src/app/page.tsx" "hello"
               fresh in
  last (commands (trace (fst run))) = Some (fs_unlink "/tmp/file-6fa459ea") /\
  copies (commands (trace (fst run))) = 2%nat /\
  snd run = Ok tt.
Proof.
  cbv zeta.
  pose proof (writeFile_cleanup_and_retry env_copy_needs_mkdir "c1"
                "src/app/page.tsx" "hello" fresh) as H.
  cbv zeta in H.
  destruct (writeFile env_copy_needs_mkdir "c1" "src/app/page.tsx" "hello" fresh)
    as [[ports tr] r] eqn:Hrun.
  vm_compute in Hrun. injection Hrun as <- <- <-.
  destruct H as (new & Htr & Hlast & Hretry & _ & _ & Hverify).
  cbn [trace fresh app] in Htr. subst new. cbn [fst snd trace].
  split; [vm_compute in Hlast; exact Hlast|]. split.
  - destruct (Hretry "Command failed: podman cp") as (a & Ha & Hcopies).
    { vm_compute. reflexivity. }
    vm_compute in Ha. injection Ha as <-.
    destruct Hcopies as [_ Hcopies]. vm_compute in Hcopies. exact Hcopies.
  - apply (Hverify "Command failed: head").
    + vm_compute. do 4 right. left.
    + intros m Hin. vm_compute in Hin. not_in_explicit Hin.
Defined.
